(** * The frontier crawler of [scrapper/crawler.py], embedded and verified

    The development follows the source file top down:

    - [Str]: the operations of Python's [str] that the crawler and
      [urllib.parse] use ([find], slices, [partition], [lower], ...);
    - [Url]: [urllib.parse.urlparse] / [urlunparse] as CPython 3.11 has them
      (the interpreter the package declares, [python_requires >= 3.11]);
    - [normalize_url], [same_site], [build_ctx], the seed discoverers and
      [inpage_discover];
    - the worker pool of [crawl_bfs] as a transition system whose atomic
      steps are the stretches of [worker] between two [await]s that suspend,
      and [crawl_site] on top of it.

    Then come the invariants of the worker pool and its termination, what
    [urlparse] returns ([parse_ok]) and how a URL that [urlunparse] has put
    together is read back ([reparse]), and the statements about the crawl
    and about URLs, each with the number of the sentence it settles.

    Characters are 8-bit ([ascii]); [str.lower] is modelled on the ASCII
    letters and the NFKC check that [urlsplit] runs on non-ASCII netlocs is
    outside the model: the development speaks of ASCII URL strings.
    Everything the crawler obtains from the network or from a third-party
    parser (httpx, BeautifulSoup, feedparser, tldextract, [re], [ipaddress])
    is a field of the class [Env]; an exception is the result [None]. *)

From Stdlib Require Import ZArith Lia Ascii.
From stdpp Require Import base tactics option list gmap sets strings sorting.

Local Open Scope Z_scope.
Local Open Scope nat_scope.

(** ** Python [str] operations *)

Module Str.

Fixpoint length (s : string) : nat :=
    match s with
    | "" => 0
    | String _ s' => S (length s')
    end.

(** [s[:n]] *)
Fixpoint take (n : nat) (s : string) : string :=
    match n, s with
    | S n', String a s' => String a (take n' s')
    | _, _ => ""
    end.

(** [s[n:]] *)
Fixpoint drop (n : nat) (s : string) : string :=
    match n, s with
    | S n', String _ s' => drop n' s'
    | _, _ => s
    end.

(** [s.find(c)]; [None] stands for Python's [-1]. *)
Fixpoint find (c : ascii) (s : string) : option nat :=
    match s with
    | "" => None
    | String a s' => if decide (a = c) then Some 0 else S <$> find c s'
    end.

(** [s.find(c, start)] *)
Definition find_from (c : ascii) (start : nat) (s : string) : option nat :=
    if decide (start ≤ length s) then (λ i, start + i) <$> find c (drop start s)
    else None.

(** [s.rfind(c)] *)
Fixpoint rfind (c : ascii) (s : string) : option nat :=
    match s with
    | "" => None
    | String a s' =>
        match rfind c s' with
        | Some i => Some (S i)
        | None => if decide (a = c) then Some 0 else None
        end
    end.

(** [c in s] for a one-character [c] *)
Definition has (c : ascii) (s : string) : bool := bool_decide (is_Some (find c s)).

(** [s.startswith(p)] *)
Fixpoint startswith (p s : string) : bool :=
    match p, s with
    | "", _ => true
    | String a p', String b s' => bool_decide (a = b) && startswith p' s'
    | String _ _, "" => false
    end.

(** [s.endswith(p)] *)
Definition endswith (p s : string) : bool :=
    bool_decide (length p ≤ length s) &&
    bool_decide (drop (length s - length p) s = p).

(** [p in s] for a substring [p] *)
Fixpoint contains (p s : string) : bool :=
    startswith p s ||
    match s with
    | "" => false
    | String _ s' => contains p s'
    end.

(** [s.lstrip(chars)], the set of characters given as a predicate *)
Fixpoint lstrip (P : ascii → bool) (s : string) : string :=
    match s with
    | "" => ""
    | String a s' => if P a then lstrip P s' else s
    end.

(** [s.rstrip(c)] for a one-character [c] *)
Fixpoint rstrip (c : ascii) (s : string) : string :=
    match s with
    | "" => ""
    | String a s' =>
        match rstrip c s' with
        | "" => if decide (a = c) then "" else String a ""
        | r => String a r
        end
    end.

(** [s.replace(c, "")] for a one-character [c] *)
Fixpoint remove (c : ascii) (s : string) : string :=
    match s with
    | "" => ""
    | String a s' => if decide (a = c) then remove c s' else String a (remove c s')
    end.

(** [s.partition(c)]: the middle component is reported as a flag. *)
Definition partition (c : ascii) (s : string) : string * bool * string :=
    match find c s with
    | Some i => (take i s, true, drop (S i) s)
    | None => (s, false, "")
    end.

(** [s.rpartition(c)] *)
Definition rpartition (c : ascii) (s : string) : string * bool * string :=
    match rfind c s with
    | Some i => (take i s, true, drop (S i) s)
    | None => ("", false, s)
    end.

Definition lower_char (a : ascii) : ascii :=
    let n := Ascii.nat_of_ascii a in
    if (65 <=? n) && (n <=? 90) then Ascii.ascii_of_nat (n + 32) else a.

(** [s.lower()] *)
Fixpoint lower (s : string) : string :=
    match s with
    | "" => ""
    | String a s' => String (lower_char a) (lower s')
    end.

Fixpoint forallb (P : ascii → bool) (s : string) : bool :=
    match s with
    | "" => true
    | String a s' => P a && forallb P s'
    end.

(** [sep.join(parts)] *)
Fixpoint join (sep : string) (parts : list string) : string :=
    match parts with
    | [] => ""
    | [p] => p
    | p :: ps => p +:+ sep +:+ join sep ps
    end.

(** truthiness of a string: [if s:] *)
Definition nonempty (s : string) : bool :=
    match s with "" => false | _ => true end.

End Str.

(** ** [urllib.parse] (CPython 3.11) *)

Module Url.

Definition uses_netloc : list string :=
    [""; "ftp"; "http"; "gopher"; "nntp"; "telnet";
     "imap"; "wais"; "file"; "mms"; "https"; "shttp";
     "snews"; "prospero"; "rtsp"; "rtspu"; "rsync";
     "svn"; "svn+ssh"; "sftp"; "nfs"; "git"; "git+ssh";
     "ws"; "wss"].

Definition uses_params : list string :=
    [""; "ftp"; "hdl"; "prospero"; "http"; "imap";
     "https"; "shttp"; "rtsp"; "rtspu"; "sip"; "sips";
     "mms"; "sftp"; "tel"].

Definition is_alpha (a : ascii) : bool :=
    let n := Ascii.nat_of_ascii a in
    ((65 <=? n) && (n <=? 90)) || ((97 <=? n) && (n <=? 122)).

Definition is_digit (a : ascii) : bool :=
    let n := Ascii.nat_of_ascii a in (48 <=? n) && (n <=? 57).

(** [c in scheme_chars] *)
Definition scheme_char (a : ascii) : bool :=
    is_alpha a || is_digit a ||
    bool_decide (a = "+"%char) || bool_decide (a = "-"%char) || bool_decide (a = "."%char).

(** [c in _WHATWG_C0_CONTROL_OR_SPACE] *)
Definition c0_or_space (a : ascii) : bool := Ascii.nat_of_ascii a <=? 32.

Record SplitResult := mkSplit {
    s_scheme : string; s_netloc : string; s_path : string;
    s_query : string; s_fragment : string }.

Record ParseResult := mkParse {
    scheme : string; netloc : string; path : string;
    params : string; query : string; fragment : string }.

(** [_splitnetloc(url, start)] *)
Definition _splitnetloc (url : string) (start : nat) : string * string :=
    let delim := Str.length url in
    let delim :=
      foldl (λ delim c,
               match Str.find_from c start url with
               | Some wdelim => Nat.min delim wdelim
               | None => delim
               end) delim ["/"; "?"; "#"]%char in
    (Str.drop start (Str.take delim url), Str.drop delim url).

(** [_splitparams(url)] *)
Definition _splitparams (url : string) : string * string :=
    if Str.has "/" url then
      match Str.find_from ";" (default 0 (Str.rfind "/" url)) url with
      | None => (url, "")
      | Some i => (Str.take i url, Str.drop (S i) url)
      end
    else
      match Str.find ";" url with
      | Some i => (Str.take i url, Str.drop (S i) url)
      | None => (Str.take (Str.length url - 1) url, url)
      end.

(** [_check_bracketed_host(hostname)] decides with [re] and [ipaddress]
    whether a bracketed host is an IPv6 or IPvFuture literal; it is taken
    from the environment ([true]: accepted, [false]: [ValueError]). *)
Class Ipaddress := { _check_bracketed_host : string → bool }.

Section with_ipaddress.
Context `{Ipaddress}.

(** [_check_bracketed_netloc(netloc)]; [false] is [ValueError]. *)
Definition _check_bracketed_netloc (netloc : string) : bool :=
      let hostname_and_port := (Str.rpartition "@" netloc).2 in
      let '(before_bracket, have_open_br, bracketed) :=
        Str.partition "[" hostname_and_port in
      if have_open_br then
        if Str.nonempty before_bracket then false
        else
          let '(hostname, _, port) := Str.partition "]" bracketed in
          if Str.nonempty port && negb (Str.startswith ":" port) then false
          else _check_bracketed_host hostname
      else
        let '(hostname, _, port) := Str.partition ":" hostname_and_port in
        _check_bracketed_host hostname.

(** The first lines of [urlsplit]: strip leading C0 controls and spaces,
    then remove tab, CR and LF everywhere. *)
Definition clean (url : string) : string :=
      let url := Str.lstrip c0_or_space url in
      foldl (λ url b, Str.remove b url) url ["009"; "013"; "010"]%char.

(** [url[0].isascii() and url[0].isalpha()] *)
Definition first_alpha (url : string) : bool :=
      match url with
      | String a _ => is_alpha a
      | "" => false
      end.

(** The scheme stage of [urlsplit], on a cleaned [url]. *)
Definition split_scheme (url : string) : string * string :=
      match Str.find ":" url with
      | Some i =>
          if bool_decide (0 < i) && first_alpha url
             && Str.forallb scheme_char (Str.take i url)
          then (Str.lower (Str.take i url), Str.drop (S i) url)
          else ("", url)
      | None => ("", url)
      end.

(** The netloc stage of [urlsplit]; [None] is [ValueError]. *)
Definition split_netloc (url : string) : option (string * string) :=
      if Str.startswith "//" url then
        let '(netloc, url) := _splitnetloc url 2 in
        if (Str.has "[" netloc && negb (Str.has "]" netloc))
           || (Str.has "]" netloc && negb (Str.has "[" netloc))
        then None
        else if Str.has "[" netloc && Str.has "]" netloc
             then if _check_bracketed_netloc netloc then Some (netloc, url) else None
             else Some (netloc, url)
      else Some ("", url).

(** [urlsplit(url)]; [None] is [ValueError]. *)
Definition urlsplit (url : string) : option SplitResult :=
      let url := clean url in
      let '(scheme, url) := split_scheme url in
      '(netloc, url) ← split_netloc url;
      let '(url, fragment) :=
        if Str.has "#" url
        then let '(u, _, f) := Str.partition "#" url in (u, f)
        else (url, "") in
      let '(url, query) :=
        if Str.has "?" url
        then let '(u, _, q) := Str.partition "?" url in (u, q)
        else (url, "") in
      Some (mkSplit scheme netloc url query fragment).

(** [urlparse(url)]; [None] is [ValueError]. *)
Definition urlparse (url : string) : option ParseResult :=
      r ← urlsplit url;
      let '(url, params) :=
        if bool_decide (s_scheme r ∈ uses_params) && Str.has ";" (s_path r)
        then _splitparams (s_path r)
        else (s_path r, "") in
      Some (mkParse (s_scheme r) (s_netloc r) url params (s_query r) (s_fragment r)).

End with_ipaddress.

(** [urlunsplit((scheme, netloc, url, query, fragment))] *)
Definition urlunsplit (r : SplitResult) : string :=
    let url := s_path r in
    let url :=
      if Str.nonempty (s_netloc r)
         || (Str.nonempty (s_scheme r) && bool_decide (s_scheme r ∈ uses_netloc)
             && negb (Str.startswith "//" url))
      then
        let url :=
          if Str.nonempty url && negb (Str.startswith "/" url)
          then "/" +:+ url else url in
        "//" +:+ s_netloc r +:+ url
      else url in
    let url := if Str.nonempty (s_scheme r) then s_scheme r +:+ ":" +:+ url else url in
    let url := if Str.nonempty (s_query r) then url +:+ "?" +:+ s_query r else url in
    let url := if Str.nonempty (s_fragment r) then url +:+ "#" +:+ s_fragment r else url in
    url.

(** [urlunparse((scheme, netloc, url, params, query, fragment))] *)
Definition urlunparse (p : ParseResult) : string :=
    let url := if Str.nonempty (params p) then path p +:+ ";" +:+ params p else path p in
    urlunsplit (mkSplit (scheme p) (netloc p) url (query p) (fragment p)).


End Url.

(** ** The environment of a crawl *)

(** An [httpx.Response], as far as the crawler reads it. *)
Record Response := mkResponse {
  status_code : Z;
  content_type : option string;   (* the [content-type] header *)
  text : string }.

(** A [feedparser] entry and parse result. *)
Record FeedEntry := mkEntry { entry_link : option string; entry_id : option string }.
Record Feed := mkFeed { bozo : bool; entries : list FeedEntry }.

(** The three places where the source iterates over a [set]. *)
Inductive IterSite := IterSeeds | IterMerge | IterLinks.

Class Env := {
  env_ipaddress :: Url.Ipaddress;
  (** [tldextract.extract(url)]: the fields [domain] and [suffix] *)
  tldextract : string → string * string;
  (** [urllib.parse.urljoin(base, url)]; [None] is [ValueError] *)
  urljoin : string → string → option string;
  (** [bool(re.search(p, s))]; [None] is [re.error] *)
  re_search : string → string → option bool;
  (** [httpx.get(url)] of the sitemap probe; [None] is an exception *)
  httpx_get : string → option Response;
  (** [client.get(url)] of the crawl, redirects followed; [None] is an exception *)
  client_get : string → option Response;
  (** the texts of the [<loc>] elements of an XML document *)
  soup_locs : string → option (list string);
  (** the [href]s of the [<a href>] elements of an HTML document *)
  soup_hrefs : string → option (list string);
  (** [feedparser.parse(url)] *)
  feedparser_parse : string → option Feed;
  (** the order in which a [set] is iterated: any order *)
  set_order : IterSite → gset string → list string;
  set_order_perm : ∀ t X, set_order t X ≡ₚ elements X
}.

(** What a call that may raise produces, and what a crawl that may still be
    running has produced. *)
Inductive Outcome (A : Type) :=
  | Returned (a : A)
  | Raised
  | Running.
Arguments Returned {A} a.
Arguments Raised {A}.
Arguments Running {A}.

Section crawler.
Context `{Env}.

Record CrawlContext := mkCtx {
    root : string;
    root_host : string;
    allowed_hosts : gset string }.

Definition normalize_url (url : string) : string :=
    match Url.urlparse url with
    | Some parsed =>
        if negb (Str.nonempty (Url.scheme parsed)) then url
        else
          let netloc := Str.lower (Url.netloc parsed) in
          let scheme := Str.lower (Url.scheme parsed) in
          Url.urlunparse
            (Url.mkParse scheme netloc
               (if Str.nonempty (Url.path parsed) then Url.path parsed else "/")
               (Url.params parsed) (Url.query parsed) "")
    | None => url
    end.

(** [None]: [urlparse] raises. *)
Definition same_site (url : string) (ctx : CrawlContext) : option bool :=
    parsed ← Url.urlparse url;
    let host := Str.lower (Url.netloc parsed) in
    Some (bool_decide (host ∈ allowed_hosts ctx)
          || Str.endswith ("." +:+ root_host ctx) host).

(** [None]: the response is discarded. *)
Definition fetch (url : string) : option Response :=
    match client_get url with
    | Some resp => if bool_decide (400 ≤ status_code resp)%Z then None else Some resp
    | None => None
    end.

Definition is_slash (a : ascii) : bool := bool_decide (a = "/"%char).

Definition guess_feeds (base_url : string) : option (list string) :=
    let candidates :=
      ["/feed"; "/rss"; "/rss.xml"; "/index.xml"; "/atom.xml";
       "/blog/rss.xml"; "/blog/index.xml"] in
    let root := Str.rstrip "/" base_url in
    mapM (λ c, urljoin (root +:+ "/") (Str.lstrip is_slash c)) candidates.

Definition guess_sitemaps (base_url : string) : option (list string) :=
    let candidates :=
      ["/sitemap.xml"; "/sitemap_index.xml"; "/sitemap/sitemap.xml";
       "/sitemap-index.xml"] in
    let root := Str.rstrip "/" base_url in
    mapM (λ c, urljoin (root +:+ "/") (Str.lstrip is_slash c)) candidates.

Definition extract_domain (url : string) : string :=
    let ext := tldextract url in
    let parts := filter (λ p, Str.nonempty p = true) [ext.1; ext.2] in
    Str.join "." parts.

Definition build_ctx (root_url : string) : option CrawlContext :=
    parsed ← Url.urlparse root_url;
    let host := Str.lower (Url.netloc parsed) in
    let root_host := extract_domain root_url in
    let allowed_hosts : gset string := {[ host; root_host; "www." +:+ root_host ]} in
    Some (mkCtx (normalize_url root_url) root_host allowed_hosts).

Definition discover_from_sitemap (base_url : string) : gset string :=
    match guess_sitemaps base_url with
    | None => ∅
    | Some sm_urls =>
        foldl (λ (discovered : gset string) sm_url,
                 match httpx_get sm_url with
                 | None => discovered
                 | Some resp =>
                     if bool_decide (status_code resp ≠ 200%Z) then discovered
                     else
                       match soup_locs (text resp) with
                       | None => discovered
                       | Some locs =>
                           foldl (λ (discovered : gset string) loc,
                                    if Str.nonempty loc
                                    then discovered ∪ {[ normalize_url loc ]}
                                    else discovered)
                                 discovered locs
                       end
                 end)
              ∅ sm_urls
    end.

(** [entry.get('link') or entry.get('id')] *)
Definition entry_target (entry : FeedEntry) : option string :=
    match entry_link entry with
    | Some l => if Str.nonempty l then Some l else entry_id entry
    | None => entry_id entry
    end.

(** The loop over the entries of one feed; a [urljoin] that raises ends
    it, and what was added before stays. *)
Fixpoint add_entries (feed_url : string) (es : list FeedEntry)
      (urls : gset string) : gset string :=
    match es with
    | [] => urls
    | entry :: es =>
        match entry_target entry with
        | Some link =>
            if Str.nonempty link then
              match urljoin feed_url link with
              | Some joined => add_entries feed_url es (urls ∪ {[ normalize_url joined ]})
              | None => urls
              end
            else add_entries feed_url es urls
        | None => add_entries feed_url es urls
        end
    end.

(** [None]: [guess_feeds] raises, outside of any [try]. *)
Definition discover_from_feeds (base_url : string) : option (gset string) :=
    feed_urls ← guess_feeds base_url;
    Some (foldl (λ (urls : gset string) feed_url,
                   match feedparser_parse feed_url with
                   | None => urls
                   | Some parsed =>
                       if bozo parsed then urls
                       else add_entries feed_url (entries parsed) urls
                   end)
                ∅ feed_urls).

(** [None]: the parser or [urljoin] raises. *)
Definition inpage_discover (html base_url : string) : option (gset string) :=
    hrefs ← soup_hrefs html;
    foldl (λ (found : option (gset string)) href,
             found ← found;
             if Str.startswith "mailto:" href || Str.startswith "tel:" href
             then Some found
             else joined ← urljoin base_url href;
                  Some (found ∪ {[ normalize_url joined ]}))
          (Some ∅) hrefs.

(** *** The worker pool of [crawl_bfs]

    A worker is suspended at one of its [await]s, or has left its loop.
    [Top]: about to test [len(results) < max_pages]; [Waiting]: inside
    [asyncio.wait_for(to_visit.get(), timeout=1.0)]; [Fetching current]:
    inside [await fetch(client, current)]; [Exited]: after [break] or a
    false loop test; [Failed]: an exception left the coroutine.  The
    semaphore has as many permits as there are workers and a worker holds
    at most one, so [async with sem] never suspends; [to_visit] is
    unbounded, so [await to_visit.put(link)] never suspends either. *)
Inductive Worker :=
    | Top
    | Waiting
    | Fetching (current : string)
    | Exited
    | Failed.

(** What the workers do to the shared state, in order, newest first:
    a trace that the code does not keep. *)
Inductive Event :=
    | Claim (u : string)     (* [seen.add(u)] *)
    | Get (u : string)       (* [fetch(client, u)] is issued *)
    | Accept (u : string)    (* [results.add(u)] *)
    | Put (u : string).      (* [to_visit.put(u)] by a worker *)

#[global] Instance Event_eq_dec : EqDecision Event.
Proof. solve_decision. Defined.

Record Frontier := mkFrontier {
    to_visit : list string;
    seen : gset string;
    results : gset string;
    trace : list Event }.

Section worker.
Variables (ctx : CrawlContext) (max_pages : Z) (exclude_patterns : list string).

(** [any(re.search(p, current) for p in exclude_patterns or [])];
    [None]: a pattern does not compile. *)
Fixpoint excluded (patterns : list string) (current : string) : option bool :=
      match patterns with
      | [] => Some false
      | p :: patterns =>
          m ← re_search p current;
          if m : bool then Some true else excluded patterns current
      end.

(** The loop [for link in discovered_links]. *)
Fixpoint enqueue_children (links : list string) (f : Frontier) : option Frontier :=
      match links with
      | [] => Some f
      | link :: links =>
          inside ← same_site link ctx;
          if inside && bool_decide (link ∉ seen f)
          then enqueue_children links
                 (mkFrontier (to_visit f ++ [link]) (seen f) (results f)
                             (Put link :: trace f))
          else enqueue_children links f
      end.

(** From the dequeued [current] to the next suspension. *)
Definition claim (current : string) (f : Frontier) : Worker * Frontier :=
      if bool_decide (current ∈ seen f) then (Top, f)
      else
        let f := mkFrontier (to_visit f) ({[ current ]} ∪ seen f) (results f)
                            (Claim current :: trace f) in
        match same_site current ctx with
        | None => (Failed, f)
        | Some false => (Top, f)
        | Some true =>
            match excluded exclude_patterns current with
            | None => (Failed, f)
            | Some true => (Top, f)
            | Some false =>
                (Fetching current,
                 mkFrontier (to_visit f) (seen f) (results f) (Get current :: trace f))
            end
        end.

(** From the completed fetch of [current] to the next suspension. *)
Definition fetched (current : string) (f : Frontier) : Worker * Frontier :=
      match fetch current with
      | None => (Top, f)
      | Some resp =>
          let ctype := default "" (content_type resp) in
          if negb (Str.contains "text/html" ctype) then (Top, f)
          else
            let html := text resp in
            let f := mkFrontier (to_visit f) (seen f) ({[ current ]} ∪ results f)
                                (Accept current :: trace f) in
            if bool_decide (max_pages ≤ Z.of_nat (size (results f)))%Z then (Exited, f)
            else
              match inpage_discover html current with
              | None => (Failed, f)
              | Some discovered_links =>
                  match enqueue_children (set_order IterLinks discovered_links) f with
                  | None => (Failed, f)
                  | Some f => (Top, f)
                  end
              end
      end.

(** One atomic stretch of [worker]. *)
Definition worker_step (w : Worker) (f : Frontier) : Worker * Frontier :=
      match w with
      | Top =>
          if bool_decide (Z.of_nat (size (results f)) < max_pages)%Z
          then (Waiting, f) else (Exited, f)
      | Waiting =>
          match to_visit f with
          | [] => (Exited, f)                   (* [asyncio.TimeoutError]: [break] *)
          | current :: rest =>
              claim current (mkFrontier rest (seen f) (results f) (trace f))
          end
      | Fetching current => fetched current f
      | Exited => (Exited, f)
      | Failed => (Failed, f)
      end.

Record State := mkState { frontier : Frontier; workers : list Worker }.

Definition finished (w : Worker) : bool :=
      match w with Exited | Failed => true | _ => false end.

Definition failed (w : Worker) : bool :=
      match w with Failed => true | _ => false end.

(** The event loop resumes worker [i].  Once a worker has failed,
    [asyncio.gather] raises and [crawl_site] closes the loop. *)
Definition step (i : nat) (st : State) : State :=
      if existsb failed (workers st) then st
      else
        match workers st !! i with
        | Some w =>
            let '(w', f') := worker_step w (frontier st) in
            mkState f' (<[ i := w' ]> (workers st))
        | None => st
        end.

(** A schedule: the workers in the order the event loop resumes them. *)
Definition run (sched : list nat) (st : State) : State :=
      foldl (λ st i, step i st) st sched.

(** [await asyncio.gather] of all the workers, then [return results]. *)
Definition gather (st : State) : Outcome (gset string) :=
      if existsb failed (workers st) then Raised
      else if forallb finished (workers st) then Returned (results (frontier st))
      else Running.

End worker.

(** The state in which the workers start. *)
Definition crawl_init (ctx : CrawlContext) (max_pages concurrency : Z)
      (seed_urls : gset string) : State :=
    let seeded :=
      take (Z.to_nat (Z.max 100 (max_pages / 2))) (set_order IterSeeds seed_urls) in
    mkState (mkFrontier (root ctx :: seeded) ∅ ∅ [])
            (replicate (Z.to_nat concurrency) Top).

Definition crawl_bfs (root_url : string) (max_pages concurrency : Z)
      (include_patterns exclude_patterns : list string) (sched : list nat)
      : Outcome (gset string) :=
    match build_ctx root_url with
    | None => Raised
    | Some ctx =>
        let seed_urls : gset string := ∅ in
        let seed_urls := seed_urls ∪ discover_from_sitemap (root ctx) in
        match discover_from_feeds (root ctx) with
        | None => Raised
        | Some from_feeds =>
            let seed_urls := seed_urls ∪ from_feeds in
            (* [asyncio.Semaphore(concurrency)] *)
            if bool_decide (concurrency < 0)%Z then Raised
            else
              gather (run ctx max_pages exclude_patterns sched
                          (crawl_init ctx max_pages concurrency seed_urls))
        end
    end.

(** The loop [for u in seed] of [crawl_site]. *)
Fixpoint merge_seed (max_pages : Z) (seed : list string) (all_urls : gset string)
      : gset string :=
    match seed with
    | [] => all_urls
    | u :: seed =>
        if bool_decide (max_pages ≤ Z.of_nat (size all_urls))%Z then all_urls
        else merge_seed max_pages seed ({[ u ]} ∪ all_urls)
    end.

(** [sorted(all_urls)] *)
Definition sorted (all_urls : gset string) : list string :=
    merge_sort String.le (elements all_urls).

Definition crawl_site (root_url : string) (max_pages concurrency : Z)
      (include_patterns exclude_patterns : list string) (sched : list nat)
      : Outcome (list string) :=
    match build_ctx root_url with
    | None => Raised
    | Some ctx =>
        let urls_from_sitemap := discover_from_sitemap root_url in
        match discover_from_feeds root_url with
        | None => Raised
        | Some urls_from_feeds =>
            let seed := set_order IterMerge (urls_from_sitemap ∪ urls_from_feeds) in
            match crawl_bfs root_url max_pages concurrency
                            include_patterns exclude_patterns sched with
            | Raised => Raised
            | Running => Running
            | Returned crawled =>
                let all_urls : gset string := ∅ ∪ crawled in
                let all_urls := merge_seed max_pages seed all_urls in
                let all_urls :=
                  if bool_decide (all_urls = ∅) then {[ root_url ]} ∪ all_urls
                  else all_urls in
                Returned (sorted all_urls)
            end
        end
    end.

End crawler.


(** ** The atomic steps as a relation *)

Section steps.
Context `{Env}.
Variables (ctx : CrawlContext) (max_pages : Z) (exclude_patterns : list string).

Local Abbreviation excluded := (excluded exclude_patterns).
Local Abbreviation worker_step := (worker_step ctx max_pages exclude_patterns).
Local Abbreviation step := (step ctx max_pages exclude_patterns).
Local Abbreviation run := (run ctx max_pages exclude_patterns).

(** [f'] is [f] after the children [added], all of them among [links],
    in scope and unseen, were put on the queue. *)
Definition expanded (links added : list string) (f f' : Frontier) : Prop :=
    to_visit f' = to_visit f ++ added ∧ seen f' = seen f ∧ results f' = results f
    ∧ trace f' = (Put <$> reverse added) ++ trace f
    ∧ Forall (λ l, l ∈ links ∧ l ∉ seen f ∧ same_site l ctx = Some true) added.

Lemma enqueue_children_expanded links f f' :
    enqueue_children ctx links f = Some f' → ∃ added, expanded links added f f'.
Proof.
    revert f. induction links as [|l links IH]; intros f Hq; simpl in Hq.
    - injection Hq as <-. exists []. unfold expanded. simpl.
      rewrite app_nil_r. auto.
    - destruct (same_site l ctx) as [inside|] eqn:Hs; simpl in Hq; [|done].
      destruct (inside && bool_decide (l ∉ seen f)) eqn:Hb.
      + apply andb_true_iff in Hb as [-> Hl%bool_decide_eq_true].
        apply IH in Hq as (added & Hv & Hsn & Hr & Ht & Hall). simpl in *.
        exists (l :: added). unfold expanded. repeat split.
        * rewrite Hv, <- app_assoc. done.
        * done.
        * done.
        * rewrite Ht, reverse_cons, fmap_app, <- app_assoc. done.
        * constructor; [set_solver|].
          eapply Forall_impl; [exact Hall|]. set_solver.
      + apply IH in Hq as (added & Hv & Hsn & Hr & Ht & Hall).
        exists added. unfold expanded. repeat split; try done.
        eapply Forall_impl; [exact Hall|]. set_solver.
Qed.

Inductive wstep : Worker → Frontier → Worker → Frontier → Prop :=
    | ws_enter f :
        (Z.of_nat (size (results f)) < max_pages)%Z → wstep Top f Waiting f
    | ws_cap f :
        ¬ (Z.of_nat (size (results f)) < max_pages)%Z → wstep Top f Exited f
    | ws_timeout f :
        to_visit f = [] → wstep Waiting f Exited f
    | ws_dup f u q :
        to_visit f = u :: q → u ∈ seen f →
        wstep Waiting f Top (mkFrontier q (seen f) (results f) (trace f))
    | ws_skip f u q w' :
        to_visit f = u :: q → u ∉ seen f → w' = Top ∨ w' = Failed →
        wstep Waiting f w'
              (mkFrontier q ({[ u ]} ∪ seen f) (results f) (Claim u :: trace f))
    | ws_get f u q :
        to_visit f = u :: q → u ∉ seen f →
        same_site u ctx = Some true → excluded u = Some false →
        wstep Waiting f (Fetching u)
              (mkFrontier q ({[ u ]} ∪ seen f) (results f)
                          (Get u :: Claim u :: trace f))
    | ws_discard f u :
        wstep (Fetching u) f Top f
    | ws_accept_last f u w' :
        w' = Exited ∧ (max_pages ≤ Z.of_nat (size ({[ u ]} ∪ results f)))%Z
        ∨ w' = Failed →
        wstep (Fetching u) f w'
              (mkFrontier (to_visit f) (seen f) ({[ u ]} ∪ results f)
                          (Accept u :: trace f))
    | ws_accept_expand f u resp links added f' :
        fetch u = Some resp →
        inpage_discover (text resp) u = Some links →
        ¬ (max_pages ≤ Z.of_nat (size ({[ u ]} ∪ results f)))%Z →
        expanded (set_order IterLinks links) added
                 (mkFrontier (to_visit f) (seen f) ({[ u ]} ∪ results f)
                             (Accept u :: trace f)) f' →
        wstep (Fetching u) f Top f'
    | ws_idle w f :
        finished w = true → wstep w f w f.

Lemma worker_step_wstep w f w' f' :
    worker_step w f = (w', f') → wstep w f w' f'.
Proof.
    destruct w as [| |current| |]; simpl; intros Hs.
    - case_bool_decide; simplify_eq; by constructor.
    - destruct (to_visit f) as [|u q] eqn:Hq; simplify_eq; [by constructor|].
      unfold claim in Hs; simpl in Hs.
      case_bool_decide; simplify_eq; [by eapply ws_dup|].
      destruct (same_site u ctx) as [[]|] eqn:Hsite; simplify_eq;
        try (apply ws_skip; auto; fail).
      destruct (excluded u) as [[]|] eqn:Hex; simplify_eq;
        try (apply ws_skip; auto; fail).
      by apply ws_get.
    - unfold fetched in Hs.
      destruct (fetch current) as [resp|] eqn:Hf; simplify_eq; [|constructor].
      destruct (negb _); simplify_eq; [constructor|]. simpl in Hs.
      case_bool_decide; simplify_eq; [apply ws_accept_last; auto|].
      destruct (inpage_discover _ _) as [links|] eqn:Hl; simplify_eq;
        [|apply ws_accept_last; auto].
      destruct (enqueue_children _ _ _) as [f2|] eqn:He; simplify_eq;
        [|apply ws_accept_last; auto].
      apply enqueue_children_expanded in He as [added He].
      eapply ws_accept_expand; eauto.
    - simplify_eq. by constructor.
    - simplify_eq. by constructor.
Qed.

(** A step of the pool: worker [i] moves, the others stay. *)
Inductive pstep : State → State → Prop :=
    | ps_stay st : pstep st st
    | ps_move st i w w' f' :
        workers st !! i = Some w →
        wstep w (frontier st) w' f' →
        pstep st (mkState f' (<[ i := w' ]> (workers st))).

Lemma step_pstep i st : pstep st (step i st).
Proof.
    unfold step. destruct (existsb _ _); [constructor|].
    destruct (workers st !! i) as [w|] eqn:Hw; [|constructor].
    destruct (worker_step w (frontier st)) as [w' f'] eqn:Hs.
    eapply ps_move; eauto using worker_step_wstep.
Qed.

Lemma run_snoc sched i st : run (sched ++ [i]) st = step i (run sched st).
Proof. unfold run. by rewrite foldl_app. Qed.

Lemma run_app s1 s2 st : run (s1 ++ s2) st = run s2 (run s1 st).
Proof. unfold run. by rewrite foldl_app. Qed.

(** Induction over the states of a run. *)
Lemma run_invariant (P : State → Prop) st0 :
    P st0 → (∀ st st', P st → pstep st st' → P st') →
    ∀ sched, P (run sched st0).
Proof.
    intros H0 Hstep sched. induction sched as [|i sched IH] using rev_ind; [done|].
    rewrite run_snoc. eapply Hstep; [exact IH|apply step_pstep].
Qed.

  (** *** Deduplication: what [seen] guarantees *)

Record dedup_inv (st : State) : Prop := mkDedup {
    di_results : results (frontier st) ⊆ seen (frontier st);
    di_fetching : ∀ i u, workers st !! i = Some (Fetching u) →
                         u ∈ seen (frontier st) ∧ u ∉ results (frontier st);
    di_distinct : ∀ i j u, workers st !! i = Some (Fetching u) →
                           workers st !! j = Some (Fetching u) → i = j }.

Lemma expanded_seen links added f f' : expanded links added f f' → seen f' = seen f.
Proof. by intros (_ & ? & _). Qed.

Lemma expanded_results links added f f' :
    expanded links added f f' → results f' = results f.
Proof. by intros (_ & _ & ? & _). Qed.

Lemma dedup_inv_step st st' : dedup_inv st → pstep st st' → dedup_inv st'.
Proof.
    intros [Hr Hf Hd] Hp. destruct Hp as [st|st i w w' f' Hi Hw]; [done|].
    assert (Hlt : i < length (workers st)) by (by eapply lookup_lt_Some).
    inversion Hw; subst; simpl in *.
    - (* enter *)
      split; simpl; [done| |].
      + intros j u [(_ & ? & _)|[_ ?]]%list_lookup_insert_Some; [done|eauto].
      + intros j k u [(_ & ? & _)|[_ ?]]%list_lookup_insert_Some; [done|].
        intros [(_ & ? & _)|[_ ?]]%list_lookup_insert_Some; [done|eauto].
    - (* cap *)
      split; simpl; [done| |].
      + intros j u [(_ & ? & _)|[_ ?]]%list_lookup_insert_Some; [done|eauto].
      + intros j k u [(_ & ? & _)|[_ ?]]%list_lookup_insert_Some; [done|].
        intros [(_ & ? & _)|[_ ?]]%list_lookup_insert_Some; [done|eauto].
    - (* timeout *)
      split; simpl; [done| |].
      + intros j u [(_ & ? & _)|[_ ?]]%list_lookup_insert_Some; [done|eauto].
      + intros j k u [(_ & ? & _)|[_ ?]]%list_lookup_insert_Some; [done|].
        intros [(_ & ? & _)|[_ ?]]%list_lookup_insert_Some; [done|eauto].
    - (* dup *)
      split; simpl; [done| |].
      + intros j v [(_ & ? & _)|[_ ?]]%list_lookup_insert_Some; [done|eauto].
      + intros j k v [(_ & ? & _)|[_ ?]]%list_lookup_insert_Some; [done|].
        intros [(_ & ? & _)|[_ ?]]%list_lookup_insert_Some; [done|eauto].
    - (* skip *)
      split; simpl; [set_solver| |].
      + intros j v [(_ & ? & _)|[_ Hj]]%list_lookup_insert_Some;
          [naive_solver|]. destruct (Hf _ _ Hj). set_solver.
      + intros j k v [(_ & ? & _)|[_ ?]]%list_lookup_insert_Some; [naive_solver|].
        intros [(_ & ? & _)|[_ ?]]%list_lookup_insert_Some; [naive_solver|eauto].
    - (* get *)
      split; simpl; [set_solver| |].
      + intros j v [(_ & ? & _)|[_ Hj]]%list_lookup_insert_Some.
        * simplify_eq. split; [set_solver|]. intros ?. apply H1. by apply Hr.
        * destruct (Hf _ _ Hj). set_solver.
      + intros j k v [(-> & ? & _)|[? Hj]]%list_lookup_insert_Some
                     [(-> & ? & _)|[? Hk]]%list_lookup_insert_Some;
          simplify_eq; eauto.
        * destruct (Hf _ _ Hk). done.
        * destruct (Hf _ _ Hj). done.
    - (* discard *)
      split; simpl; [done| |].
      + intros j v [(_ & ? & _)|[_ ?]]%list_lookup_insert_Some; [done|eauto].
      + intros j k v [(_ & ? & _)|[_ ?]]%list_lookup_insert_Some; [done|].
        intros [(_ & ? & _)|[_ ?]]%list_lookup_insert_Some; [done|eauto].
    - (* accept, last *)
      destruct (Hf _ _ Hi) as [Hus Hur].
      split; simpl; [set_solver| |].
      + intros j v [(_ & ? & _)|[Hne Hj]]%list_lookup_insert_Some;
          [naive_solver|].
        destruct (Hf _ _ Hj). split; [done|].
        intros [->%elem_of_singleton|?]%elem_of_union; [|done].
        apply Hne. eauto.
      + intros j k v [(_ & ? & _)|[_ ?]]%list_lookup_insert_Some; [naive_solver|].
        intros [(_ & ? & _)|[_ ?]]%list_lookup_insert_Some; [naive_solver|eauto].
    - (* accept, expand *)
      destruct (Hf _ _ Hi) as [Hus Hur].
      match goal with Hx : expanded _ _ _ _ |- _ =>
        pose proof (expanded_seen _ _ _ _ Hx) as Hs';
        pose proof (expanded_results _ _ _ _ Hx) as Hr' end. simpl in *.
      split; simpl; rewrite ?Hs', ?Hr'; [set_solver| |].
      + intros j v [(_ & ? & _)|[Hne Hj]]%list_lookup_insert_Some; [done|].
        destruct (Hf _ _ Hj). split; [done|].
        intros [->%elem_of_singleton|?]%elem_of_union; [|done].
        apply Hne. eauto.
      + intros j k v [(_ & ? & _)|[_ ?]]%list_lookup_insert_Some; [done|].
        intros [(_ & ? & _)|[_ ?]]%list_lookup_insert_Some; [done|eauto].
    - (* idle *)
      rewrite list_insert_id by done. by destruct st.
Qed.

  (** *** The trace: each URL is fetched and accepted once, and is not put
      on the queue after it was claimed *)

Definition fetched_urls (tr : list Event) : list string :=
    omap (λ e, match e with Get u => Some u | _ => None end) tr.

Definition accepted_urls (tr : list Event) : list string :=
    omap (λ e, match e with Accept u => Some u | _ => None end) tr.

(** No [Put u] is newer than a [Claim u]. *)
Fixpoint put_ok (tr : list Event) : Prop :=
    match tr with
    | [] => True
    | Put u :: older => Claim u ∉ older ∧ put_ok older
    | _ :: older => put_ok older
    end.

Lemma put_ok_split tr newer older u :
    put_ok tr → tr = newer ++ Put u :: older → Claim u ∉ older.
Proof.
    revert tr. induction newer as [|e newer IH]; intros tr Hok ->; simpl in Hok.
    - tauto.
    - eapply IH; [|done]. destruct e; tauto.
Qed.

Lemma fetched_puts l tr : fetched_urls ((Put <$> l) ++ tr) = fetched_urls tr.
Proof. induction l; simpl; auto. Qed.

Lemma accepted_puts l tr : accepted_urls ((Put <$> l) ++ tr) = accepted_urls tr.
Proof. induction l; simpl; auto. Qed.

Lemma claim_puts l tr u : Claim u ∈ (Put <$> l) ++ tr ↔ Claim u ∈ tr.
Proof.
    induction l as [|a l IH]; simpl; [done|].
    rewrite elem_of_cons, IH. naive_solver.
Qed.

Lemma put_ok_puts l tr :
    Forall (λ x, Claim x ∉ tr) l → put_ok tr → put_ok ((Put <$> l) ++ tr).
Proof.
    induction 1 as [|a l Ha Hl IH]; simpl; [done|].
    intros Hok. split; [by rewrite claim_puts|auto].
Qed.

Record trace_inv (st : State) : Prop := mkTraceInv {
    ti_claim : ∀ u, Claim u ∈ trace (frontier st) ↔ u ∈ seen (frontier st);
    ti_get : ∀ u, u ∈ fetched_urls (trace (frontier st)) → u ∈ seen (frontier st);
    ti_get_once : NoDup (fetched_urls (trace (frontier st)));
    ti_accept : ∀ u, u ∈ accepted_urls (trace (frontier st)) ↔ u ∈ results (frontier st);
    ti_accept_once : NoDup (accepted_urls (trace (frontier st)));
    ti_put : put_ok (trace (frontier st)) }.

Lemma trace_inv_step st st' :
    dedup_inv st → trace_inv st → pstep st st' → trace_inv st'.
Proof.
    intros [Hr Hf Hd] [Hc Hg Hg1 Ha Ha1 Hp] Hstep.
    destruct Hstep as [st|st i w w' f' Hi Hw]; [done|].
    inversion Hw; subst; simpl in *; try (by split).
    - (* skip *)
      split; simpl; auto.
      + intros v. rewrite elem_of_cons, Hc. set_solver.
      + intros v Hv. apply Hg in Hv. set_solver.
    - (* get *)
      split; simpl; auto.
      + intros v. rewrite !elem_of_cons, Hc. set_solver.
      + intros v [->|Hv%Hg]%elem_of_cons; set_solver.
      + constructor; [|done]. intros Hu%Hg. done.
    - (* accept, last *)
      destruct (Hf _ _ Hi) as [Hus Hur].
      split; simpl; auto.
      + intros v. rewrite elem_of_cons, Hc. naive_solver.
      + intros v. rewrite elem_of_cons, Ha. set_solver.
      + constructor; [|done]. by rewrite Ha.
    - (* accept, expand *)
      destruct (Hf _ _ Hi) as [Hus Hur].
      match goal with Hx : expanded _ _ _ _ |- _ =>
        destruct Hx as (Hv' & Hs' & Hr' & Ht' & Hall) end. simpl in *.
      split; simpl; rewrite ?Hs', ?Hr', ?Ht', ?fetched_puts, ?accepted_puts; simpl; auto.
      + intros v. rewrite claim_puts, elem_of_cons, Hc. naive_solver.
      + intros v. rewrite elem_of_cons, Ha. set_solver.
      + constructor; [|done]. by rewrite Ha.
      + apply put_ok_puts; [|done].
        apply Forall_reverse. eapply Forall_impl; [exact Hall|].
        intros l (_ & Hl & _). rewrite elem_of_cons, Hc. naive_solver.
Qed.

  (** *** Scope and exclusion: what enters [results] passed both filters *)

Definition passes_filters (u : string) : Prop :=
    same_site u ctx = Some true ∧ excluded u = Some false.

Record scope_inv (st : State) : Prop := mkScopeInv {
    si_results : ∀ u, u ∈ results (frontier st) → passes_filters u;
    si_fetching : ∀ i u, workers st !! i = Some (Fetching u) → passes_filters u }.

Lemma scope_inv_step st st' : scope_inv st → pstep st st' → scope_inv st'.
Proof.
    intros [Hr Hf] Hstep. destruct Hstep as [st|st i w w' f' Hi Hw]; [done|].
    assert (Hother : ∀ j u, j ≠ i → <[i:=w']> (workers st) !! j = Some (Fetching u) →
                            passes_filters u).
    { intros j u Hne Hj. rewrite list_lookup_insert_ne in Hj by done. eauto. }
    assert (Hsame : ∀ j u, w' ≠ Fetching u →
                           <[i:=w']> (workers st) !! j = Some (Fetching u) → passes_filters u).
    { intros j u Hne Hj. destruct (decide (j = i)) as [->|]; [|eauto].
      apply list_lookup_insert_Some in Hj as [(_ & ? & _)|[? _]]; done. }
    inversion Hw; subst; simpl in *;
      try (split; simpl; [exact Hr|intros j v; by apply Hsame]).
    - (* skip *)
      split; simpl; [exact Hr|]. intros j v. apply Hsame. naive_solver.
    - (* get *)
      split; simpl; [exact Hr|]. intros j v Hj.
      destruct (decide (j = i)) as [->|]; [|eauto].
      apply list_lookup_insert_Some in Hj as [(_ & ? & _)|[? _]]; [|done].
      simplify_eq. by split.
    - (* accept, last *)
      split; simpl.
      + intros v [->%elem_of_singleton|?]%elem_of_union; eauto.
      + intros j v. apply Hsame. naive_solver.
    - (* accept, expand *)
      match goal with Hx : expanded _ _ _ _ |- _ =>
        pose proof (expanded_results _ _ _ _ Hx) as Hr' end. simpl in *.
      split; simpl; rewrite ?Hr'.
      + intros v [->%elem_of_singleton|?]%elem_of_union; eauto.
      + intros j v. by apply Hsame.
    - (* idle *)
      rewrite list_insert_id by done. by destruct st.
Qed.

  (** *** The page budget under concurrency *)

(** A worker that passed the loop test and has not come back to it. *)
Definition armed (w : Worker) : nat :=
    match w with Waiting | Fetching _ => 1 | _ => 0 end.

Definition cap_inv (st : State) : Prop :=
    size (results (frontier st)) + sum_list (armed <$> workers st)
    ≤ pred (Z.to_nat max_pages) + length (workers st).

Lemma sum_insert (g : Worker → nat) (l : list Worker) i w w' :
    l !! i = Some w →
    sum_list (g <$> <[i:=w']> l) + g w = sum_list (g <$> l) + g w'.
Proof.
    revert i. induction l as [|a l IH]; intros [|i] Hi; simplify_eq/=; [lia|].
    specialize (IH _ Hi). lia.
Qed.

Lemma armed_le (l : list Worker) : sum_list (armed <$> l) ≤ length l.
Proof. induction l as [|[] l IH]; csimpl; lia. Qed.

Lemma size_add_le (u : string) (X : gset string) : size ({[ u ]} ∪ X) ≤ S (size X).
Proof.
    rewrite size_union_alt, size_singleton.
    assert (size (X ∖ {[ u ]}) ≤ size X) by (apply subseteq_size; set_solver).
    lia.
Qed.

Lemma size_add_fresh (u : string) (X : gset string) :
    u ∉ X → size ({[ u ]} ∪ X) = S (size X).
Proof. intros. rewrite size_union, size_singleton by set_solver. done. Qed.

Lemma cap_inv_step st st' : cap_inv st → pstep st st' → cap_inv st'.
Proof.
    unfold cap_inv. intros Hc Hstep.
    destruct Hstep as [st|st i w w' f' Hi Hw]; [done|]. simpl.
    rewrite length_insert.
    pose proof (sum_insert armed _ _ _ w' Hi) as Hsum.
    pose proof (armed_le (<[i:=w']> (workers st))) as Hle.
    rewrite length_insert in Hle.
    inversion Hw; subst; simpl in *;
      repeat match goal with
             | Hx : expanded _ _ _ _ |- _ =>
                 rewrite (expanded_results _ _ _ _ Hx); clear Hx; simpl
             | Hx : _ ∨ _ |- _ => destruct Hx
             | Hx : _ ∧ _ |- _ => destruct Hx
             end; subst; simpl in *;
      try match goal with
          | |- context [size ({[ ?u ]} ∪ ?X)] => pose proof (size_add_le u X)
          end; lia.
Qed.

  (** *** Where the URLs of the frontier come from *)

(** [u] is a link of a page that was accepted. *)
Definition linked_from_result (f : Frontier) (u : string) : Prop :=
    ∃ v resp links, v ∈ results f ∧ fetch v = Some resp
                    ∧ inpage_discover (text resp) v = Some links ∧ u ∈ links.

Definition origin_inv (q0 : list string) (st : State) : Prop :=
    ∀ u, u ∈ to_visit (frontier st) ∨ u ∈ seen (frontier st) →
         u ∈ q0 ∨ linked_from_result (frontier st) u.

Lemma linked_from_result_mono f f' u :
    results f ⊆ results f' → linked_from_result f u → linked_from_result f' u.
Proof. intros Hsub (v & resp & links & ? & ?). exists v, resp, links. set_solver. Qed.

Lemma origin_inv_step q0 st st' : origin_inv q0 st → pstep st st' → origin_inv q0 st'.
Proof.
    unfold origin_inv. intros Ho Hstep.
    destruct Hstep as [st|st i w w' f' Hi Hw]; [done|].
    inversion Hw; subst; simpl in *; auto.
    - (* dup *) intros v Hv. apply Ho. rewrite H0. set_solver.
    - (* skip *) intros v Hv. apply Ho. rewrite H0. set_solver.
    - (* get *) intros v Hv. apply Ho. rewrite H0. set_solver.
    - (* accept, last *)
      intros v Hv. destruct (Ho v Hv) as [?|Hl]; [by left|right].
      eapply linked_from_result_mono; [|exact Hl]. simpl. set_solver.
    - (* accept, expand *)
      destruct H3 as (Hv' & Hs' & Hr' & Ht' & Hall). simpl in *.
      intros v Hv. rewrite Hv', Hs', elem_of_app in Hv.
      destruct Hv as [[Hv|Hv]|Hv].
      + destruct (Ho v) as [?|Hl]; [by left|by left|right].
        eapply linked_from_result_mono; [|exact Hl]. rewrite Hr'. set_solver.
      + right. rewrite Forall_forall in Hall. destruct (Hall v Hv) as (Hin & _).
        rewrite set_order_perm, elem_of_elements in Hin.
        exists u, resp, links. rewrite Hr'. set_solver.
      + destruct (Ho v) as [?|Hl]; [by right|by left|right].
        eapply linked_from_result_mono; [|exact Hl]. rewrite Hr'. set_solver.
Qed.

  (** *** Termination *)

(** A move: an unfinished worker is resumed while no worker has failed. *)
Definition moves (st st' : State) : Prop :=
    ∃ i w, existsb failed (workers st) = false ∧ workers st !! i = Some w
           ∧ finished w = false ∧ st' = step i st.

Definition weight (w : Worker) : nat :=
    match w with Fetching _ => 3 | Top => 2 | Waiting => 1 | Exited | Failed => 0 end.

(** Accepts that can still happen, and work that is left without one. *)
Definition budget (st : State) : nat :=
    pred (Z.to_nat max_pages) + length (workers st) - size (results (frontier st)).

Definition backlog (st : State) : nat :=
    3 * length (to_visit (frontier st)) + sum_list (weight <$> workers st).

Lemma moves_decrease st st' :
    dedup_inv st → cap_inv st → moves st st' →
    budget st' < budget st ∨ (budget st' = budget st ∧ backlog st' < backlog st).
Proof.
    intros [Hr Hf Hd] Hc (i & w & Hnf & Hi & Hw & ->).
    unfold step. rewrite Hnf, Hi.
    destruct (worker_step w (frontier st)) as [w' f'] eqn:Hs.
    apply worker_step_wstep in Hs.
    unfold budget, backlog, cap_inv in *. simpl. rewrite length_insert.
    pose proof (sum_insert weight _ _ _ w' Hi) as Hsum.
    pose proof (sum_insert armed _ _ _ w' Hi) as Harm.
    inversion Hs; subst; simpl in *; try congruence;
      repeat match goal with
             | Hq : to_visit _ = _ :: _ |- _ => rewrite Hq; clear Hq; simpl
             | Hx : expanded _ _ _ _ |- _ =>
                 rewrite (expanded_results _ _ _ _ Hx); clear Hx; simpl
             | Hx : _ ∨ _ |- _ => destruct Hx
             | Hx : _ ∧ _ |- _ => destruct Hx
             end; subst; simpl in *;
      try (right; lia).
    - (* accept, last, exited *)
      destruct (Hf _ _ Hi) as [_ Hu].
      rewrite (size_add_fresh _ _ Hu). left. lia.
    - (* accept, last, failed *)
      destruct (Hf _ _ Hi) as [_ Hu].
      rewrite (size_add_fresh _ _ Hu). left. lia.
    - (* accept, expand *)
      destruct (Hf _ _ Hi) as [_ Hu].
      rewrite (size_add_fresh _ _ Hu). left. lia.
Qed.

Lemma moves_pstep st st' : moves st st' → pstep st st'.
Proof. intros (i & w & _ & _ & _ & ->). apply step_pstep. Qed.

Lemma moves_terminate st : dedup_inv st → cap_inv st → Acc (flip moves) st.
Proof.
    remember (budget st) as a eqn:Ha. revert st Ha.
    induction a as [a IHa] using lt_wf_ind. intros st Ha.
    remember (backlog st) as b eqn:Hb. revert st Ha Hb.
    induction b as [b IHb] using lt_wf_ind. intros st Ha Hb Hd Hc.
    constructor. intros st' Hm. unfold flip in Hm.
    pose proof (dedup_inv_step _ _ Hd (moves_pstep _ _ Hm)) as Hd'.
    pose proof (cap_inv_step _ _ Hc (moves_pstep _ _ Hm)) as Hc'.
    destruct (moves_decrease _ _ Hd Hc Hm) as [Hlt|[Heq Hlt]].
    - eapply IHa; [|reflexivity|done|done]. lia.
    - eapply IHb; [|lia|reflexivity|done|done]. lia.
Qed.

Lemma forallb_false (l : list Worker) :
    forallb finished l = false → ∃ i w, l !! i = Some w ∧ finished w = false.
Proof.
    induction l as [|a l IH]; simpl; [done|].
    destruct (finished a) eqn:Ha; simpl.
    - intros (i & w & ? & ?)%IH. by exists (S i), w.
    - intros _. by exists 0, a.
Qed.

(** Whatever has been run can be run to completion. *)
Lemma moves_complete st :
    Acc (flip moves) st →
    ∃ sched, gather (run sched st) ≠ Running.
Proof.
    induction 1 as [st _ IH].
    destruct (gather st) eqn:Hg.
    - exists []. simpl. by rewrite Hg.
    - exists []. simpl. by rewrite Hg.
    - unfold gather in Hg.
      destruct (existsb failed (workers st)) eqn:Hnf; [done|].
      destruct (forallb finished (workers st)) eqn:Hall; [done|].
      apply forallb_false in Hall as (i & w & Hi & Hw).
      destruct (IH (step i st)) as [sched Hsched].
      { by exists i, w. }
      exists (i :: sched). done.
Qed.

  (** *** The states of a crawl *)

(** Workers start at the top of their loop, nothing seen or accepted. *)
Definition start (q0 : list string) (n : nat) : State :=
    mkState (mkFrontier q0 ∅ ∅ []) (replicate n Top).

Record crawl_inv (q0 : list string) (st : State) : Prop := mkCrawlInv {
    ci_dedup : dedup_inv st;
    ci_trace : trace_inv st;
    ci_scope : scope_inv st;
    ci_cap : cap_inv st;
    ci_origin : origin_inv q0 st }.

Lemma armed_start n : sum_list (armed <$> replicate n Top) = 0.
Proof. induction n; csimpl; auto. Qed.

Lemma crawl_inv_start q0 n : crawl_inv q0 (start q0 n).
Proof.
    split.
    - split; simpl; [done| |];
        intros ? * [? _]%lookup_replicate; done.
    - split; simpl; try done; try constructor; set_solver.
    - split; simpl; [set_solver|].
      intros ? * [? _]%lookup_replicate; done.
    - unfold cap_inv, start. cbn [frontier results workers].
      rewrite armed_start, size_empty. lia.
    - intros u [?|?]; [by left|set_solver].
Qed.

Lemma crawl_inv_step q0 st st' : crawl_inv q0 st → pstep st st' → crawl_inv q0 st'.
Proof.
    intros [] ?. split;
      eauto using dedup_inv_step, trace_inv_step, scope_inv_step, cap_inv_step,
                  origin_inv_step.
Qed.

Lemma crawl_inv_run q0 n sched : crawl_inv q0 (run sched (start q0 n)).
Proof.
    apply run_invariant; [apply crawl_inv_start|apply crawl_inv_step].
Qed.

(** The number of workers does not change. *)
Lemma workers_run st sched : length (workers (run sched st)) = length (workers st).
Proof.
    apply (run_invariant (λ st', length (workers st') = length (workers st)));
      [done|].
    intros st1 st2 Hl Hp. destruct Hp as [|st1 i w w' f' Hi Hw]; [done|].
    simpl. by rewrite length_insert.
Qed.

(** The trace only grows. *)
Lemma trace_run st sched :
    ∃ newer, trace (frontier (run sched st)) = newer ++ trace (frontier st).
Proof.
    apply (run_invariant
             (λ st', ∃ newer, trace (frontier st') = newer ++ trace (frontier st)));
      [by exists []|].
    intros st1 st2 [newer Hn] Hstep.
    destruct Hstep as [|st1 i w w' f' Hi Hw]; [by exists newer|].
    inversion Hw; subst; simpl in *; try (by exists newer).
    - exists (Claim u :: newer). by rewrite Hn.
    - exists (Get u :: Claim u :: newer). by rewrite Hn.
    - exists (Accept u :: newer). by rewrite Hn.
    - destruct H3 as (_ & _ & _ & -> & _). simpl.
      exists ((Put <$> reverse added) ++ Accept u :: newer).
      by rewrite Hn, <- app_assoc.
Qed.

(** The events of [sched2] when it is run after [sched1]. *)
Definition new_events (st : State) (sched1 sched2 : list nat) : list Event :=
    let before := trace (frontier (run sched1 st)) in
    let after := trace (frontier (run (sched1 ++ sched2) st)) in
    take (length after - length before) after.

Lemma new_events_spec st sched1 sched2 :
    trace (frontier (run (sched1 ++ sched2) st))
    = new_events st sched1 sched2 ++ trace (frontier (run sched1 st)).
Proof.
    unfold new_events. rewrite run_app.
    destruct (trace_run (run sched1 st) sched2) as [newer ->].
    rewrite length_app, Nat.add_sub, take_app_length. done.
Qed.

End steps.

(** ** Facts about [crawl_bfs] and [crawl_site] *)

Section crawl_facts.
Context `{Env}.

Lemma crawl_init_start ctx max_pages concurrency seed_urls :
    crawl_init ctx max_pages concurrency seed_urls
    = start (root ctx :: take (Z.to_nat (Z.max 100 (max_pages / 2)))
                              (set_order IterSeeds seed_urls))
            (Z.to_nat concurrency).
Proof. reflexivity. Qed.

(** With [n] workers the budget can be exceeded by [n - 1] pages, and by
    no more. *)
Lemma results_bound ctx max_pages exclude_patterns q0 n sched :
    size (results (frontier (run ctx max_pages exclude_patterns sched (start q0 n))))
    ≤ pred (Z.to_nat max_pages) + n.
Proof.
    pose proof (ci_cap _ _ _ _ _ (crawl_inv_run ctx max_pages exclude_patterns q0 n sched))
      as Hc.
    unfold cap_inv in Hc. rewrite workers_run in Hc. simpl in Hc.
    rewrite length_replicate in Hc. lia.
Qed.

Lemma merge_seed_elem max_pages seed all_urls u :
    u ∈ merge_seed max_pages seed all_urls → u ∈ all_urls ∨ u ∈ seed.
Proof.
    revert all_urls. induction seed as [|v seed IH]; intros all_urls; simpl; [auto|].
    case_bool_decide; [auto|]. intros [Hu|Hu]%IH; set_solver.
Qed.

Lemma merge_seed_incl max_pages seed all_urls :
    all_urls ⊆ merge_seed max_pages seed all_urls.
Proof.
    revert all_urls. induction seed as [|v seed IH]; intros all_urls; simpl; [done|].
    case_bool_decide; [done|]. etrans; [|apply IH]. set_solver.
Qed.

Lemma elem_of_sorted (X : gset string) u : u ∈ sorted X ↔ u ∈ X.
Proof. unfold sorted. by rewrite merge_sort_Permutation, elem_of_elements. Qed.

Lemma sorted_singleton (u : string) : sorted {[ u ]} = [u].
Proof. unfold sorted. by rewrite elements_singleton. Qed.

(** [crawl_site] returns when [crawl_bfs] does. *)
Lemma crawl_site_running root_url max_pages concurrency inc exc sched :
    crawl_site root_url max_pages concurrency inc exc sched = Running ↔
    is_Some (build_ctx root_url) ∧ is_Some (discover_from_feeds root_url)
    ∧ crawl_bfs root_url max_pages concurrency inc exc sched = Running.
Proof.
    unfold crawl_site.
    destruct (build_ctx root_url) as [ctx|] eqn:Hctx;
      [|split; [done|intros ([? ?] & _); done]].
    destruct (discover_from_feeds root_url) as [fd|] eqn:Hfd;
      [|split; [done|intros (_ & [? ?] & _); done]].
    destruct (crawl_bfs _ _ _ _ _ _); split; try done; try (intros (_ & _ & ?); done).
Qed.

Lemma crawl_bfs_completes root_url max_pages concurrency inc exc sched :
    ∃ sched', crawl_bfs root_url max_pages concurrency inc exc (sched ++ sched') ≠ Running.
Proof.
    unfold crawl_bfs.
    destruct (build_ctx root_url) as [ctx|]; [|by exists []].
    destruct (discover_from_feeds (root ctx)) as [fd|]; [|by exists []].
    case_bool_decide; [by exists []|].
    rewrite crawl_init_start.
    match goal with |- context [start ?q ?n] => set (q0 := q); set (k := n) end.
    pose proof (crawl_inv_run ctx max_pages exc q0 k sched) as [Hd _ _ Hc _].
    destruct (moves_complete ctx max_pages exc _
                (moves_terminate ctx max_pages exc _ Hd Hc)) as [sched' Hs].
    exists sched'. by rewrite run_app.
Qed.

(** How often an event occurs in a trace. *)
Definition occurrences (e : Event) (tr : list Event) : nat :=
  length (filter (λ x, x = e) tr).

Lemma not_fetched_occurrences tr u :
  u ∉ fetched_urls tr → occurrences (Get u) tr = 0.
Proof.
  unfold occurrences. induction tr as [|e tr IH]; simpl; [done|].
  intros Hu. rewrite filter_cons. destruct (decide (e = Get u)) as [->|Hne].
  - simpl in Hu. set_solver.
  - apply IH. destruct e; simpl in Hu; set_solver.
Qed.

Lemma fetched_once_occurrences tr u :
  NoDup (fetched_urls tr) → occurrences (Get u) tr ≤ 1.
Proof.
  unfold occurrences. induction tr as [|e tr IH]; simpl; [lia|].
  intros Hnd. rewrite filter_cons. destruct (decide (e = Get u)) as [->|Hne].
  - simpl in Hnd. apply NoDup_cons in Hnd as [Hu _].
    apply not_fetched_occurrences in Hu. unfold occurrences in Hu.
    simpl. rewrite Hu. lia.
  - apply IH. destruct e; simpl in Hnd; auto. by apply NoDup_cons in Hnd as [_ ?].
Qed.

Lemma not_accepted_occurrences tr u :
  u ∉ accepted_urls tr → occurrences (Accept u) tr = 0.
Proof.
  unfold occurrences. induction tr as [|e tr IH]; simpl; [done|].
  intros Hu. rewrite filter_cons. destruct (decide (e = Accept u)) as [->|Hne].
  - simpl in Hu. set_solver.
  - apply IH. destruct e; simpl in Hu; set_solver.
Qed.

Lemma accepted_once_occurrences tr u :
  NoDup (accepted_urls tr) → occurrences (Accept u) tr ≤ 1.
Proof.
  unfold occurrences. induction tr as [|e tr IH]; simpl; [lia|].
  intros Hnd. rewrite filter_cons. destruct (decide (e = Accept u)) as [->|Hne].
  - simpl in Hnd. apply NoDup_cons in Hnd as [Hu _].
    apply not_accepted_occurrences in Hu. unfold occurrences in Hu.
    simpl. rewrite Hu. lia.
  - apply IH. destruct e; simpl in Hnd; auto. by apply NoDup_cons in Hnd as [_ ?].
Qed.

(** *** A crawl whose root cannot be fetched and that has no seeds *)

Section unreachable_root.
Variables (ctx : CrawlContext) (max_pages : Z) (exclude_patterns : list string).
Hypothesis root_parses : is_Some (same_site (root ctx) ctx).
Hypothesis patterns_compile : is_Some (excluded exclude_patterns (root ctx)).
Hypothesis root_unreachable : fetch (root ctx) = None.







End unreachable_root.


Lemma excluded_false exc u p :
  excluded exc u = Some false → p ∈ exc → re_search p u = Some false.
Proof.
  induction exc as [|q exc IH]; simpl; [set_solver|].
  destruct (re_search q u) as [[]|] eqn:Hq; simpl; try done.
  intros He [->|Hp]%elem_of_cons; auto.
Qed.

(** What [crawl_bfs] returns is the [results] of a state of the crawl. *)
Lemma crawl_bfs_returned root_url max_pages concurrency inc exc sched crawled :
  crawl_bfs root_url max_pages concurrency inc exc sched = Returned crawled →
  ∃ ctx from_feeds,
    build_ctx root_url = Some ctx
    ∧ discover_from_feeds (root ctx) = Some from_feeds
    ∧ crawled = results (frontier (run ctx max_pages exc sched
                  (crawl_init ctx max_pages concurrency
                     (∅ ∪ discover_from_sitemap (root ctx) ∪ from_feeds)))).
Proof.
  unfold crawl_bfs. destruct (build_ctx root_url) as [ctx|]; [|done].
  destruct (discover_from_feeds (root ctx)) as [fd|] eqn:Hfd; [|done].
  case_bool_decide; [done|]. unfold gather.
  destruct (existsb _ _); [done|]. destruct (forallb _ _); [|done].
  intros [= <-]. by exists ctx, fd.
Qed.

(** What [crawl_site] returns: the crawled URLs, seeds, or the root. *)
Lemma crawl_site_returned root_url max_pages concurrency inc exc sched out u :
  crawl_site root_url max_pages concurrency inc exc sched = Returned out → u ∈ out →
  (∃ crawled, crawl_bfs root_url max_pages concurrency inc exc sched = Returned crawled
              ∧ u ∈ crawled)
  ∨ (∃ from_feeds, discover_from_feeds root_url = Some from_feeds
                   ∧ u ∈ discover_from_sitemap root_url ∪ from_feeds)
  ∨ u = root_url.
Proof.
  unfold crawl_site. destruct (build_ctx root_url) as [ctx|]; [|done].
  destruct (discover_from_feeds root_url) as [fd|]; [|done].
  destruct (crawl_bfs _ _ _ _ _ _) as [crawled| |]; [|done|done].
  intros [= <-]. rewrite elem_of_sorted.
  case_bool_decide.
  - intros [->%elem_of_singleton|Hu%merge_seed_elem]%elem_of_union; [auto|].
    rewrite set_order_perm, elem_of_elements in Hu.
    destruct Hu as [Hu|Hu]; [left; exists crawled; set_solver|right; left; eauto].
  - intros Hu%merge_seed_elem.
    rewrite set_order_perm, elem_of_elements in Hu.
    destruct Hu as [Hu|Hu]; [left; exists crawled; set_solver|right; left; eauto].
Qed.

End crawl_facts.

(** ** Facts about strings *)

Section str_facts.
Implicit Types (s t p : string) (a c : ascii) (n i : nat).

Lemma str_app_nil_l s : "" +:+ s = s.
Proof. reflexivity. Qed.

Lemma str_app_cons a s t : String a s +:+ t = String a (s +:+ t).
Proof. reflexivity. Qed.

Lemma str_app_nil_r s : s +:+ "" = s.
Proof. induction s as [|a s IH]; [done|]. by rewrite ?str_app_cons, IH. Qed.

Lemma str_app_assoc s t p : (s +:+ t) +:+ p = s +:+ t +:+ p.
Proof. induction s as [|a s IH]; [done|]. by rewrite ?str_app_cons, IH. Qed.

Lemma str_app_nil_inv s t : s +:+ t = "" → s = "" ∧ t = "".
Proof. destruct s; [done|]. rewrite ?str_app_cons. done. Qed.

Lemma str_length_app s t : Str.length (s +:+ t) = Str.length s + Str.length t.
Proof. induction s as [|a s IH]; [done|]. rewrite ?str_app_cons. simpl. by rewrite IH. Qed.

Lemma str_length_zero s : Str.length s = 0 → s = "".
Proof. by destruct s. Qed.

Lemma str_take_0 s : Str.take 0 s = "".
Proof. by destruct s. Qed.

Lemma str_drop_0 s : Str.drop 0 s = s.
Proof. by destruct s. Qed.

Lemma str_take_drop n s : Str.take n s +:+ Str.drop n s = s.
Proof.
  revert s. induction n as [|n IH]; intros [|a s]; simpl; try done.
  by rewrite ?str_app_cons, IH.
Qed.

Lemma str_take_app_length s t : Str.take (Str.length s) (s +:+ t) = s.
Proof.
  induction s as [|a s IH]; [by destruct t|]. simpl.
  rewrite ?str_app_cons. simpl. by rewrite IH.
Qed.

Lemma str_drop_app_length s t : Str.drop (Str.length s) (s +:+ t) = t.
Proof.
  induction s as [|a s IH]; [by destruct t|]. simpl.
  rewrite ?str_app_cons. simpl. by rewrite IH.
Qed.

Lemma str_drop_app_length_S s a t : Str.drop (S (Str.length s)) (s +:+ String a t) = t.
Proof. induction s as [|b s IH]; [by destruct t|]. exact IH. Qed.

Lemma str_take_all s n : Str.length s ≤ n → Str.take n s = s.
Proof.
  revert n. induction s as [|a s IH]; intros [|n]; simpl; try done; try lia.
  intros. rewrite IH; [done|lia].
Qed.

Lemma str_drop_all s n : Str.length s ≤ n → Str.drop n s = "".
Proof.
  revert n. induction s as [|a s IH]; intros [|n]; simpl; try done; try lia.
  intros. apply IH. lia.
Qed.

Lemma str_length_take s n : Str.length (Str.take n s) = n `min` Str.length s.
Proof.
  revert s. induction n as [|n IH]; intros [|a s]; simpl; try done.
  by rewrite IH.
Qed.

Lemma str_drop_drop s n i : Str.drop n (Str.drop i s) = Str.drop (i + n) s.
Proof.
  revert s. induction i as [|i IH]; intros s.
  - by rewrite str_drop_0.
  - destruct s as [|a s]; simpl; [by destruct n|]. apply IH.
Qed.

Lemma str_drop_take s n i : Str.drop n (Str.take (n + i) s) = Str.take i (Str.drop n s).
Proof.
  revert s. induction n as [|n IH]; intros s.
  - by rewrite !str_drop_0.
  - destruct s as [|a s]; simpl; [by destruct i|]. apply IH.
Qed.

(** *** Characters that do not occur *)

Lemma str_forallb_app P s t : Str.forallb P (s +:+ t) = Str.forallb P s && Str.forallb P t.
Proof.
  induction s as [|a s IH]; [done|]. rewrite ?str_app_cons. simpl.
  by rewrite IH, andb_assoc.
Qed.

Lemma forallb_take P s n : Str.forallb P s = true → Str.forallb P (Str.take n s) = true.
Proof.
  revert s. induction n as [|n IH]; intros [|a s]; simpl; try done.
  intros [-> ?]%andb_true_iff. simpl. auto.
Qed.

Lemma forallb_drop P s n : Str.forallb P s = true → Str.forallb P (Str.drop n s) = true.
Proof.
  revert s. induction n as [|n IH]; intros [|a s]; simpl; try done.
  intros [_ ?]%andb_true_iff. auto.
Qed.

Lemma forallb_impl (P Q : ascii → bool) s :
  (∀ a, P a = true → Q a = true) → Str.forallb P s = true → Str.forallb Q s = true.
Proof.
  intros HPQ. induction s as [|a s IH]; simpl; [done|].
  intros [?%HPQ ?%IH]%andb_true_iff. by apply andb_true_iff.
Qed.

Lemma forallb_lower (P : ascii → bool) s :
  (∀ a, P a = true → P (Str.lower_char a) = true) →
  Str.forallb P s = true → Str.forallb P (Str.lower s) = true.
Proof.
  intros HP. induction s as [|a s IH]; simpl; [done|].
  intros [?%HP ?%IH]%andb_true_iff. by apply andb_true_iff.
Qed.

(** [s] does not contain [c]. *)
Definition lacks (c : ascii) (s : string) : Prop :=
  Str.forallb (λ a, bool_decide (a ≠ c)) s = true.

Lemma lacks_nil c : lacks c "".
Proof. done. Qed.

Lemma lacks_cons c a s : lacks c (String a s) ↔ a ≠ c ∧ lacks c s.
Proof.
  unfold lacks. simpl. rewrite andb_true_iff, bool_decide_eq_true. done.
Qed.

Lemma lacks_app c s t : lacks c (s +:+ t) ↔ lacks c s ∧ lacks c t.
Proof. unfold lacks. by rewrite str_forallb_app, andb_true_iff. Qed.

Lemma lacks_take c s n : lacks c s → lacks c (Str.take n s).
Proof. apply forallb_take. Qed.

Lemma lacks_drop c s n : lacks c s → lacks c (Str.drop n s).
Proof. apply forallb_drop. Qed.

Lemma find_None c s : Str.find c s = None ↔ lacks c s.
Proof.
  induction s as [|a s IH]; simpl; [done|].
  rewrite lacks_cons, <- IH. destruct (decide (a = c)); [naive_solver|].
  destruct (Str.find c s); naive_solver.
Qed.

Lemma has_false c s : Str.has c s = false ↔ lacks c s.
Proof.
  unfold Str.has. rewrite bool_decide_eq_false, <- find_None, <- eq_None_not_Some. done.
Qed.

Lemma has_true c s : Str.has c s = true ↔ ¬ lacks c s.
Proof. rewrite <- has_false. destruct (Str.has c s); naive_solver. Qed.

Lemma find_app_here c s t : lacks c s → Str.find c (s +:+ String c t) = Some (Str.length s).
Proof.
  induction s as [|a s IH]; simpl.
  - intros _. by rewrite decide_True.
  - intros [Hne Hs]%lacks_cons.
    rewrite decide_False by done. by rewrite IH.
Qed.

Lemma str_find_Some c s i :
  Str.find c s = Some i →
  s = Str.take i s +:+ String c (Str.drop (S i) s) ∧ lacks c (Str.take i s)
  ∧ Str.length (Str.take i s) = i.
Proof.
  revert i. induction s as [|a s IH]; simpl; [done|]. intros i.
  destruct (decide (a = c)) as [->|Hne].
  - intros [= <-]. simpl. done.
  - destruct (Str.find c s) as [j|] eqn:Hj; [|done]. intros [= <-].
    destruct (IH j eq_refl) as (Hs & Hl & Hlen).
    split; [|split].
    + change (String a s = String a (Str.take j s +:+ String c (Str.drop (S j) s))).
      by rewrite <- Hs.
    + change (lacks c (String a (Str.take j s))). by apply lacks_cons.
    + simpl. by rewrite Hlen.
Qed.

Lemma find_take_lacks c s i k :
  Str.find c s = Some i → k ≤ i → lacks c (Str.take k s).
Proof.
  intros (Hs & Hl & Hlen)%str_find_Some Hk.
  assert (Str.take k s = Str.take k (Str.take i s)) as ->.
  { clear Hs Hl Hlen. revert s i Hk. induction k as [|k IH]; intros [|a s] [|i] Hk;
      simpl; try done; try lia. f_equal. apply IH. lia. }
  by apply lacks_take.
Qed.

(** *** [lower] *)

Lemma lower_char_idem a : Str.lower_char (Str.lower_char a) = Str.lower_char a.
Proof. destruct a as [[][][][][][][][]]; reflexivity. Qed.

Lemma lower_idem s : Str.lower (Str.lower s) = Str.lower s.
Proof. induction s as [|a s IH]; simpl; [done|]. by rewrite lower_char_idem, IH. Qed.

Lemma lower_app s t : Str.lower (s +:+ t) = Str.lower s +:+ Str.lower t.
Proof. induction s as [|a s IH]; [done|]. simpl. by rewrite IH. Qed.

Lemma lower_nil_inv s : Str.lower s = "" → s = "".
Proof. by destruct s. Qed.

Lemma length_lower s : Str.length (Str.lower s) = Str.length s.
Proof. induction s as [|a s IH]; simpl; auto. Qed.

(** A character that is no letter, neither before nor after lowering. *)
Definition caseless (c : ascii) : Prop := ∀ a, Str.lower_char a = c ↔ a = c.

Lemma lacks_lower c s : caseless c → lacks c s → lacks c (Str.lower s).
Proof.
  intros Hc. apply forallb_lower. intros a Ha%bool_decide_eq_true.
  apply bool_decide_eq_true. intros Heq. apply Ha. by apply Hc.
Qed.

Lemma lacks_lower_inv c s : caseless c → lacks c (Str.lower s) → lacks c s.
Proof.
  intros Hc. induction s as [|a s IH]; simpl; [done|].
  rewrite !lacks_cons. pose proof (Hc a). naive_solver.
Qed.

Lemma has_lower c s : caseless c → Str.has c (Str.lower s) = Str.has c s.
Proof.
  intros Hc. destruct (Str.has c s) eqn:Hs.
  - apply has_true. apply has_true in Hs. intros ?%lacks_lower_inv; done.
  - apply has_false. apply has_false in Hs. by apply lacks_lower.
Qed.

(** *** [startswith] *)

Lemma startswith_app p s : Str.startswith p (p +:+ s) = true.
Proof.
  induction p as [|a p IH]; [done|]. rewrite ?str_app_cons. simpl.
  by rewrite bool_decide_eq_true_2, IH.
Qed.

Lemma startswith_spec p s : Str.startswith p s = true ↔ ∃ t, s = p +:+ t.
Proof.
  split.
  - revert s. induction p as [|a p IH]; intros s; simpl; [by exists s|].
    destruct s as [|b s]; [done|].
    intros [->%bool_decide_eq_true [t ->]%IH]%andb_true_iff. by exists t.
  - intros [t ->]. apply startswith_app.
Qed.

End str_facts.

(** ** Facts about [urlsplit] and [urlunsplit] *)

Ltac proj_simpl :=
  cbn [Url.scheme Url.netloc Url.path Url.params Url.query Url.fragment
       Url.s_scheme Url.s_netloc Url.s_path Url.s_query Url.s_fragment
       mbind option_bind] in *.

Section url_facts.
Context `{Url.Ipaddress}.
Implicit Types (s t p url : string) (a c : ascii) (n i : nat).

(** *** Cleaning *)

(** Neither tab, CR nor LF. *)
Definition tidy_char (a : ascii) : bool :=
  bool_decide (a ≠ "009"%char) && bool_decide (a ≠ "013"%char)
  && bool_decide (a ≠ "010"%char).

Definition tidy (s : string) : Prop := Str.forallb tidy_char s = true.

Lemma forallb_remove P c s :
  Str.forallb P s = true → Str.forallb P (Str.remove c s) = true.
Proof.
  induction s as [|a s IH]; simpl; [done|].
  intros [Ha Hs]%andb_true_iff. destruct (decide (a = c)); simpl; auto.
  by rewrite Ha, IH.
Qed.

Lemma lacks_remove c s : lacks c (Str.remove c s).
Proof.
  induction s as [|a s IH]; simpl; [done|].
  destruct (decide (a = c)); [done|]. by apply lacks_cons.
Qed.

Lemma lacks_remove_other c a s : lacks c s → lacks c (Str.remove a s).
Proof. apply forallb_remove. Qed.

Lemma remove_lacks c s : lacks c s → Str.remove c s = s.
Proof.
  induction s as [|a s IH]; simpl; [done|].
  intros [Hne Hs]%lacks_cons. rewrite decide_False by done. by rewrite IH.
Qed.

Lemma tidy_lacks s :
  tidy s ↔ lacks "009" s ∧ lacks "013" s ∧ lacks "010" s.
Proof.
  induction s as [|a s IH]; [done|].
  rewrite !lacks_cons. unfold tidy in *. simpl. rewrite andb_true_iff, IH.
  unfold tidy_char. rewrite !andb_true_iff, !bool_decide_eq_true. naive_solver.
Qed.

Lemma clean_tidy url : tidy (Url.clean url).
Proof.
  unfold Url.clean. simpl. apply tidy_lacks. split; [|split].
  - apply lacks_remove_other, lacks_remove_other, lacks_remove.
  - apply lacks_remove_other, lacks_remove.
  - apply lacks_remove.
Qed.

Lemma clean_fixed s :
  tidy s → Str.lstrip Url.c0_or_space s = s → Url.clean s = s.
Proof.
  intros (? & ? & ?)%tidy_lacks Hl. unfold Url.clean. simpl.
  rewrite Hl.
  by rewrite (remove_lacks "009" s), (remove_lacks "013" s), (remove_lacks "010" s).
Qed.

Lemma tidy_app s t : tidy (s +:+ t) ↔ tidy s ∧ tidy t.
Proof. unfold tidy. by rewrite str_forallb_app, andb_true_iff. Qed.

Lemma tidy_take s n : tidy s → tidy (Str.take n s).
Proof. apply forallb_take. Qed.

Lemma tidy_drop s n : tidy s → tidy (Str.drop n s).
Proof. apply forallb_drop. Qed.

Lemma tidy_lower s : tidy s → tidy (Str.lower s).
Proof.
  apply forallb_lower. intros a. destruct a as [[][][][][][][][]]; done.
Qed.

(** *** The scheme *)

(** A scheme as [urlsplit] returns it. *)
Definition valid_scheme (s : string) : Prop :=
  s ≠ "" ∧ Url.first_alpha s = true ∧ Str.forallb Url.scheme_char s = true
  ∧ Str.lower s = s.

Lemma scheme_char_colon s : Str.forallb Url.scheme_char s = true → lacks ":" s.
Proof.
  apply forallb_impl. intros a Ha. apply bool_decide_eq_true. intros ->. done.
Qed.

Lemma first_alpha_lower s : Url.first_alpha s = true → Url.first_alpha (Str.lower s) = true.
Proof. destruct s as [|a s]; [done|]. simpl. destruct a as [[][][][][][][][]]; done. Qed.

Lemma scheme_char_lower s :
  Str.forallb Url.scheme_char s = true → Str.forallb Url.scheme_char (Str.lower s) = true.
Proof.
  apply forallb_lower. intros a. destruct a as [[][][][][][][][]]; done.
Qed.

Lemma first_alpha_app s t : s ≠ "" → Url.first_alpha (s +:+ t) = Url.first_alpha s.
Proof. by destruct s. Qed.

Lemma first_alpha_lstrip s : Url.first_alpha s = true → Str.lstrip Url.c0_or_space s = s.
Proof.
  destruct s as [|a s]; [done|]. simpl. destruct a as [[][][][][][][][]]; done.
Qed.

Lemma first_alpha_tidy_clean s : Url.first_alpha s = true → tidy s → Url.clean s = s.
Proof. intros. apply clean_fixed; [done|]. by apply first_alpha_lstrip. Qed.

(** What the scheme stage finds: no scheme, or a valid one before a colon. *)
Lemma split_scheme_spec url sch rest :
  Url.split_scheme url = (sch, rest) →
  (sch = "" ∧ rest = url)
  ∨ (valid_scheme sch ∧ ∃ pre, url = pre +:+ ":" +:+ rest ∧ sch = Str.lower pre).
Proof.
  unfold Url.split_scheme.
  destruct (Str.find ":" url) as [i|] eqn:Hi; [|intros [= <- <-]; auto].
  destruct (bool_decide (0 < i) && Url.first_alpha url
            && Str.forallb Url.scheme_char (Str.take i url)) eqn:Hc;
    [|intros [= <- <-]; auto].
  intros [= <- <-]. right.
  apply andb_true_iff in Hc as [[Hpos%bool_decide_eq_true Hfa]%andb_true_iff Hsc].
  apply str_find_Some in Hi as (Hurl & Hl & Hlen).
  assert (Hne : Str.take i url ≠ "").
  { intros Hz. rewrite Hz in Hlen. simpl in Hlen. lia. }
  split.
  - repeat split.
    + intros Hz%lower_nil_inv. done.
    + apply first_alpha_lower. rewrite Hurl in Hfa. by rewrite first_alpha_app in Hfa.
    + by apply scheme_char_lower.
    + apply lower_idem.
  - exists (Str.take i url). done.
Qed.

(** The scheme stage on a string that starts with a valid scheme. *)
Lemma split_scheme_build s rest :
  valid_scheme s → Url.split_scheme (s +:+ ":" +:+ rest) = (s, rest).
Proof.
  intros (Hne & Hfa & Hsc & Hlow). unfold Url.split_scheme.
  change (":" +:+ rest) with (String ":" rest).
  rewrite find_app_here by (by apply scheme_char_colon).
  rewrite str_take_app_length, str_drop_app_length_S, first_alpha_app, Hfa, Hsc, Hlow by done.
  rewrite bool_decide_eq_true_2; [done|]. destruct s; [done|]. simpl. lia.
Qed.

(** *** The netloc *)

Lemma find_app_lacks c s t :
  lacks c s → Str.find c (s +:+ t) = (λ i, Str.length s + i) <$> Str.find c t.
Proof.
  induction s as [|a s IH].
  - intros _. rewrite str_app_nil_l. destruct (Str.find c t); reflexivity.
  - intros [Hne Hs]%lacks_cons. rewrite str_app_cons. simpl.
    rewrite decide_False by done.
    rewrite IH by done. destruct (Str.find c t); reflexivity.
Qed.

Lemma find_from_drop c k s :
  k ≤ Str.length s → Str.find_from c k s = (λ i, k + i) <$> Str.find c (Str.drop k s).
Proof. intros. unfold Str.find_from. by rewrite decide_True. Qed.

(** The position that [_splitnetloc] computes: the least position from
    [start] on of a delimiter, or the length. *)
Definition delim_of (url : string) (start : nat) (cs : list ascii) (acc : nat) : nat :=
  foldl (λ delim c,
           match Str.find_from c start url with
           | Some wdelim => Nat.min delim wdelim
           | None => delim
           end) acc cs.

Lemma delim_of_spec url start cs acc :
  let r := delim_of url start cs acc in
  r ≤ acc
  ∧ (∀ c w, c ∈ cs → Str.find_from c start url = Some w → r ≤ w)
  ∧ (r = acc ∨ ∃ c, c ∈ cs ∧ Str.find_from c start url = Some r).
Proof.
  revert acc. induction cs as [|c cs IH]; intros acc; simpl.
  - split; [done|]. split; [set_solver|auto].
  - destruct (Str.find_from c start url) as [w|] eqn:Hw.
    + destruct (IH (acc `min` w)) as (Hle & Hall & Hex). simpl in *.
      split; [lia|]. split.
      * intros c' w' [->|Hin]%elem_of_cons Hw'; [|eauto].
        assert (w' = w) as -> by congruence. lia.
      * destruct Hex as [Hr|(c' & Hin & Hc')].
        -- destruct (Nat.min_spec acc w) as [[_ Hm]|[_ Hm]].
           ++ left. by rewrite Hr, Hm.
           ++ right. exists c. split; [set_solver|]. by rewrite Hr, Hm.
        -- right. exists c'. set_solver.
    + destruct (IH acc) as (Hle & Hall & Hex). simpl in *.
      split; [lia|]. split.
      * intros c' w' [->|Hin]%elem_of_cons Hw'; [congruence|eauto].
      * destruct Hex as [Hr|(c' & Hin & Hc')]; [by left|].
        right. exists c'. set_solver.
Qed.

Lemma splitnetloc_unfold url :
  Url._splitnetloc url 2
  = (Str.drop 2 (Str.take (delim_of url 2 ["/"; "?"; "#"]%char (Str.length url)) url),
     Str.drop (delim_of url 2 ["/"; "?"; "#"]%char (Str.length url)) url).
Proof. reflexivity. Qed.

(** The netloc has no delimiter in it. *)
Lemma splitnetloc_spec d netloc rest :
  Url._splitnetloc ("//" +:+ d) 2 = (netloc, rest) →
  d = netloc +:+ rest ∧ lacks "/" netloc ∧ lacks "?" netloc ∧ lacks "#" netloc.
Proof.
  rewrite splitnetloc_unfold.
  set (url := "//" +:+ d).
  destruct (delim_of_spec url 2 ["/"; "?"; "#"]%char (Str.length url)) as (Hle & Hall & Hex).
  set (r := delim_of url 2 ["/"; "?"; "#"]%char (Str.length url)) in *.
  assert (Hlen : Str.length url = 2 + Str.length d) by done.
  assert (Hfind : ∀ c, Str.find_from c 2 url = (λ i, 2 + i) <$> Str.find c d).
  { intros c. rewrite find_from_drop by lia. done. }
  assert (Hr : ∃ k, r = 2 + k ∧ k ≤ Str.length d) .
  { destruct Hex as [->|(c & _ & Hc)].
    - exists (Str.length d). lia.
    - rewrite Hfind in Hc. destruct (Str.find c d) as [i|] eqn:Hi; [|done].
      injection Hc as <-. exists i. split; [done|]. lia. }
  destruct Hr as (k & -> & Hk).
  intros [= <- <-]. unfold url. simpl.
  assert (Hlacks : ∀ c, c ∈ ["/"; "?"; "#"]%char → lacks c (Str.take k d)).
  { intros c Hc. destruct (Str.find c d) as [i|] eqn:Hi.
    - eapply find_take_lacks; [done|].
      specialize (Hall c (2 + i) Hc). rewrite Hfind, Hi in Hall.
      specialize (Hall eq_refl). lia.
    - apply lacks_take. by apply find_None. }
  split; [by rewrite str_take_drop|].
  repeat split; apply Hlacks; set_solver.
Qed.

(** [rest] is empty or begins with a delimiter. *)
Definition delimited (rest : string) : Prop :=
  rest = "" ∨ ∃ c rest', c ∈ ["/"; "?"; "#"]%char ∧ rest = String c rest'.

Lemma splitnetloc_build netloc rest :
  lacks "/" netloc → lacks "?" netloc → lacks "#" netloc → delimited rest →
  Url._splitnetloc ("//" +:+ netloc +:+ rest) 2 = (netloc, rest).
Proof.
  intros H1 H2 H3 Hrest. rewrite splitnetloc_unfold.
  set (d := netloc +:+ rest). set (url := "//" +:+ d).
  destruct (delim_of_spec url 2 ["/"; "?"; "#"]%char (Str.length url)) as (Hle & Hall & Hex).
  set (r := delim_of url 2 ["/"; "?"; "#"]%char (Str.length url)) in *.
  assert (Hlen : Str.length url = 2 + (Str.length netloc + Str.length rest)).
  { unfold url, d. simpl. by rewrite str_app_nil_l, str_length_app. }
  assert (Hfind : ∀ c, c ∈ ["/"; "?"; "#"]%char →
            Str.find_from c 2 url = (λ i, 2 + (Str.length netloc + i)) <$> Str.find c rest).
  { intros c Hc. rewrite find_from_drop by lia. unfold url, d. simpl.
    rewrite str_app_nil_l, find_app_lacks.
    - destruct (Str.find c rest); reflexivity.
    - set_unfold. naive_solver. }
  assert (Hr : r = 2 + Str.length netloc).
  { apply Nat.le_antisymm.
    - assert (Str.length "" = 0) by done.
      destruct Hrest as [->|(c & rest' & Hc & ->)]; [lia|].
      apply (Hall c); [done|]. rewrite Hfind by done.
      change (Str.find c (String c rest')) with
        (if decide (c = c) then Some 0 else S <$> Str.find c rest').
      rewrite decide_True by done. simpl. f_equal. lia.
    - destruct Hex as [->|(c & Hc & Hw)]; [lia|].
      rewrite Hfind in Hw by done. destruct (Str.find c rest); [|done].
      injection Hw as Hw. lia. }
  rewrite Hr. unfold url, d. simpl.
  by rewrite str_app_nil_l, str_take_app_length, str_drop_app_length.
Qed.

(** *** [partition] *)

Lemma partition_found c s x y :
  Str.partition c s = (x, true, y) → s = x +:+ String c y ∧ lacks c x.
Proof.
  unfold Str.partition. destruct (Str.find c s) as [i|] eqn:Hi; [|done].
  intros [= <- <-]. apply str_find_Some in Hi as (? & ? & ?). done.
Qed.

Lemma partition_build c x y : lacks c x → Str.partition c (x +:+ String c y) = (x, true, y).
Proof.
  intros Hx. unfold Str.partition.
  by rewrite find_app_here, str_take_app_length, str_drop_app_length_S.
Qed.

Lemma has_app_here c x y : Str.has c (x +:+ String c y) = true.
Proof.
  apply has_true. intros [_ [? _]%lacks_cons]%lacks_app. done.
Qed.

(** The split of [url] at the first [c], as [urlsplit] does it for the
    fragment and for the query. *)
Definition cut (c : ascii) (url : string) : string * string :=
  if Str.has c url
  then let '(u, _, f) := Str.partition c url in (u, f)
  else (url, "").

Lemma cut_spec c url u f :
  cut c url = (u, f) → lacks c u ∧ ((url = u ∧ f = "") ∨ url = u +:+ String c f).
Proof.
  unfold cut. destruct (Str.has c url) eqn:Hh.
  - destruct (Str.partition c url) as [[x found] y] eqn:Hp. intros [= <- <-].
    destruct found.
    + apply partition_found in Hp as [? ?]. auto.
    + unfold Str.partition in Hp. destruct (Str.find c url) eqn:Hf; [done|].
      apply find_None, has_false in Hf. congruence.
  - intros [= <- <-]. apply has_false in Hh. auto.
Qed.

Lemma cut_build c u f : lacks c u → cut c (u +:+ String c f) = (u, f).
Proof. intros Hu. unfold cut. by rewrite has_app_here, partition_build. Qed.

Lemma cut_lacks c u : lacks c u → cut c u = (u, "").
Proof. intros Hu%has_false. unfold cut. by rewrite Hu. Qed.

(** The bracket checks of [urlsplit] on a netloc. *)
Definition netloc_ok (netloc : string) : bool :=
  if (Str.has "[" netloc && negb (Str.has "]" netloc))
     || (Str.has "]" netloc && negb (Str.has "[" netloc))
  then false
  else if Str.has "[" netloc && Str.has "]" netloc
       then Url._check_bracketed_netloc netloc
       else true.

Lemma split_netloc_spec url netloc rest :
  Url.split_netloc url = Some (netloc, rest) →
  (netloc = "" ∧ rest = url ∧ Str.startswith "//" url = false)
  ∨ (url = "//" +:+ netloc +:+ rest
     ∧ lacks "/" netloc ∧ lacks "?" netloc ∧ lacks "#" netloc).
Proof.
  unfold Url.split_netloc. destruct (Str.startswith "//" url) eqn:Hs.
  - apply startswith_spec in Hs as [d ->].
    destruct (Url._splitnetloc _ 2) as [n r] eqn:Hn.
    apply splitnetloc_spec in Hn as (-> & ? & ? & ?).
    intros Hr. right.
    assert (n = netloc ∧ r = rest) as [-> ->].
    { repeat case_match; simplify_eq; done. }
    done.
  - intros [= <- <-]. auto.
Qed.

Lemma split_netloc_build netloc rest :
  lacks "/" netloc → lacks "?" netloc → lacks "#" netloc → delimited rest →
  Url.split_netloc ("//" +:+ netloc +:+ rest)
  = if netloc_ok netloc then Some (netloc, rest) else None.
Proof.
  intros. unfold Url.split_netloc, netloc_ok.
  rewrite startswith_app, splitnetloc_build by done.
  repeat case_match; done.
Qed.

Lemma split_netloc_none url :
  Str.startswith "//" url = false → Url.split_netloc url = Some ("", url).
Proof. intros Hs. unfold Url.split_netloc. by rewrite Hs. Qed.

Lemma urlsplit_unfold url :
  Url.urlsplit url
  = (let url := Url.clean url in
     let '(scheme, url) := Url.split_scheme url in
     '(netloc, url) ← Url.split_netloc url;
     let '(url, fragment) := cut "#" url in
     let '(url, query) := cut "?" url in
     Some (Url.mkSplit scheme netloc url query fragment)).
Proof. reflexivity. Qed.

(** What [urlsplit] returns. *)
Record split_ok (r : Url.SplitResult) : Prop := mkSplitOk {
  so_scheme : Url.s_scheme r = "" ∨ valid_scheme (Url.s_scheme r);
  so_netloc : lacks "/" (Url.s_netloc r) ∧ lacks "?" (Url.s_netloc r)
              ∧ lacks "#" (Url.s_netloc r);
  so_path : lacks "?" (Url.s_path r) ∧ lacks "#" (Url.s_path r);
  so_query : lacks "#" (Url.s_query r);
  so_tidy : tidy (Url.s_scheme r) ∧ tidy (Url.s_netloc r) ∧ tidy (Url.s_path r)
            ∧ tidy (Url.s_query r) }.

Lemma tidy_cons a s : tidy (String a s) ↔ tidy_char a = true ∧ tidy s.
Proof. unfold tidy. simpl. by rewrite andb_true_iff. Qed.

Lemma urlsplit_spec url r : Url.urlsplit url = Some r → split_ok r.
Proof.
  rewrite urlsplit_unfold. cbv zeta.
  pose proof (clean_tidy url) as Ht.
  destruct (Url.split_scheme (Url.clean url)) as [sch url0] eqn:Hsch.
  destruct (Url.split_netloc url0) as [[n url1]|] eqn:Hn; [|done]. simpl.
  destruct (cut "#" url1) as [url2 frag] eqn:Hf.
  destruct (cut "?" url2) as [pa q] eqn:Hq.
  intros [= <-].
  apply split_scheme_spec in Hsch.
  apply split_netloc_spec in Hn.
  apply cut_spec in Hf as [Hf1 Hf2]. apply cut_spec in Hq as [Hq1 Hq2].
  assert (Hsch' : (sch = "" ∨ valid_scheme sch) ∧ tidy sch ∧ tidy url0).
  { destruct Hsch as [[-> ->]|[Hv (pre & Hpre & ->)]]; [split; [by left|by split]|].
    rewrite Hpre in Ht. apply tidy_app in Ht as [? [_ ?]%tidy_cons].
    split; [auto|]. split; [by apply tidy_lower|done]. }
  destruct Hsch' as (Hsv & Hst & Ht0).
  assert (Hn' : (lacks "/" n ∧ lacks "?" n ∧ lacks "#" n) ∧ tidy n ∧ tidy url1).
  { destruct Hn as [(-> & -> & _)|(-> & ? & ? & ?)]; [done|].
    apply tidy_cons in Ht0 as [_ [_ [? ?]%tidy_app]%tidy_cons]. done. }
  destruct Hn' as (Hnl & Hnt & Ht1).
  assert (Ht2 : tidy url2).
  { destruct Hf2 as [[-> _]| ->]; [done|]. by apply tidy_app in Ht1 as [? _]. }
  assert (Hq' : lacks "#" pa ∧ lacks "#" q ∧ tidy pa ∧ tidy q).
  { destruct Hq2 as [[-> ->]| ->]; [done|].
    apply lacks_app in Hf1 as [? [_ ?]%lacks_cons].
    apply tidy_app in Ht2 as [? [_ ?]%tidy_cons]. done. }
  destruct Hq' as (? & ? & ? & ?).
  split; simpl; auto.
Qed.

(** [?query], when there is one. *)
Definition query_part (q : string) : string :=
  if Str.nonempty q then "?" +:+ q else "".

Lemma tidy_query_part q : tidy q → tidy (query_part q).
Proof. unfold query_part. destruct (Str.nonempty q); [|done]. intros. by apply tidy_cons. Qed.

Lemma cut_query x q : lacks "?" x → cut "?" (x +:+ query_part q) = (x, q).
Proof.
  intros Hx. unfold query_part. destruct q as [|a q]; simpl.
  - rewrite str_app_nil_r. by apply cut_lacks.
  - by apply cut_build.
Qed.

Lemma lacks_query_part c q : c ≠ "?"%char → lacks c q → lacks c (query_part q).
Proof.
  intros. unfold query_part. destruct (Str.nonempty q); [|done]. by apply lacks_cons.
Qed.

(** [urlsplit] on a string put together from a scheme, a netloc after two
    slashes, a path and a query. *)
Lemma urlsplit_build_netloc (s nl x q : string) :
  valid_scheme s → tidy s → tidy nl → tidy x → tidy q →
  lacks "/" nl → lacks "?" nl → lacks "#" nl →
  lacks "?" x → lacks "#" x → lacks "#" q →
  delimited (x +:+ query_part q) →
  Url.urlsplit (s +:+ ":" +:+ "//" +:+ nl +:+ x +:+ query_part q)
  = if netloc_ok nl then Some (Url.mkSplit s nl x q "") else None.
Proof.
  intros Hs Hts Htn Htx Htq Hn1 Hn2 Hn3 Hx1 Hx2 Hq Hd.
  rewrite urlsplit_unfold. cbv zeta.
  rewrite first_alpha_tidy_clean.
  - rewrite split_scheme_build by done.
    rewrite split_netloc_build by done.
    destruct (netloc_ok nl); [|done]. simpl.
    rewrite cut_lacks by (apply lacks_app; split; [done|by apply lacks_query_part]).
    by rewrite cut_query.
  - destruct Hs as (? & Hfa & _). by rewrite first_alpha_app.
  - apply tidy_app. split; [done|]. apply tidy_cons. split; [done|].
    do 2 (apply tidy_cons; split; [done|]).
    rewrite !tidy_app. auto using tidy_query_part.
Qed.

(** The same without a netloc. *)
Lemma urlsplit_build_plain (s x q : string) :
  valid_scheme s → tidy s → tidy x → tidy q →
  lacks "?" x → lacks "#" x → lacks "#" q →
  Str.startswith "//" (x +:+ query_part q) = false →
  Url.urlsplit (s +:+ ":" +:+ x +:+ query_part q) = Some (Url.mkSplit s "" x q "").
Proof.
  intros Hs Hts Htx Htq Hx1 Hx2 Hq Hd.
  rewrite urlsplit_unfold. cbv zeta.
  rewrite first_alpha_tidy_clean.
  - rewrite split_scheme_build by done.
    rewrite split_netloc_none by done. simpl.
    rewrite cut_lacks by (apply lacks_app; split; [done|by apply lacks_query_part]).
    by rewrite cut_query.
  - destruct Hs as (? & Hfa & _). by rewrite first_alpha_app.
  - apply tidy_app. split; [done|]. apply tidy_cons. split; [done|].
    rewrite !tidy_app. auto using tidy_query_part.
Qed.

(** *** Parameters *)

Lemma rfind_None c s : Str.rfind c s = None ↔ lacks c s.
Proof.
  induction s as [|a s IH]; simpl; [done|].
  rewrite lacks_cons, <- IH. destruct (Str.rfind c s); [naive_solver|].
  destruct (decide (a = c)); naive_solver.
Qed.

Lemma rfind_Some c s r :
  Str.rfind c s = Some r →
  s = Str.take r s +:+ String c (Str.drop (S r) s) ∧ lacks c (Str.drop (S r) s)
  ∧ Str.length (Str.take r s) = r.
Proof.
  revert r. induction s as [|a s IH]; simpl; [done|]. intros r.
  destruct (Str.rfind c s) as [j|] eqn:Hj.
  - intros [= <-]. destruct (IH j eq_refl) as (Hs & Hl & Hlen).
    split; [|split; [done|]].
    + change (String a s = String a (Str.take j s +:+ String c (Str.drop (S j) s))).
      by rewrite <- Hs.
    + simpl. by rewrite Hlen.
  - destruct (decide (a = c)) as [->|]; [|done]. intros [= <-]. simpl.
    split; [done|]. split; [|done]. by apply rfind_None.
Qed.

Lemma rfind_app_lacks c s t : lacks c t → Str.rfind c (s +:+ t) = Str.rfind c s.
Proof.
  intros Ht. induction s as [|a s IH].
  - rewrite str_app_nil_l. by apply rfind_None.
  - rewrite str_app_cons. simpl. by rewrite IH.
Qed.

Lemma rfind_build c x y : lacks c y → Str.rfind c (x +:+ String c y) = Some (Str.length x).
Proof.
  intros Hy. induction x as [|a x IH].
  - rewrite str_app_nil_l. simpl. apply rfind_None in Hy. rewrite Hy.
    by rewrite decide_True.
  - rewrite str_app_cons. simpl. by rewrite IH.
Qed.

(** What follows the last slash. *)
Definition last_segment (s : string) : string :=
  match Str.rfind "/" s with
  | Some r => Str.drop (S r) s
  | None => s
  end.

Lemma last_segment_lacks s : lacks "/" s → last_segment s = s.
Proof. intros Hs%rfind_None. unfold last_segment. by rewrite Hs. Qed.

Lemma last_segment_build x y : lacks "/" y → last_segment (x +:+ String "/" y) = y.
Proof.
  intros Hy. unfold last_segment. rewrite rfind_build by done.
  apply str_drop_app_length_S.
Qed.

(** [s] is its front, up to and including the last slash, then its last segment. *)
Lemma last_segment_split s :
  Str.has "/" s = true →
  ∃ x, s = x +:+ String "/" (last_segment s) ∧ lacks "/" (last_segment s)
       ∧ Str.rfind "/" s = Some (Str.length x).
Proof.
  intros Hs. unfold last_segment.
  destruct (Str.rfind "/" s) as [r|] eqn:Hr.
  - apply rfind_Some in Hr as (Heq & Hl & Hlen).
    exists (Str.take r s). by rewrite Hlen.
  - apply rfind_None, has_false in Hr. congruence.
Qed.

(** A path and its parameters as [_splitparams] separates them. *)
Definition split_at_params (pa pr : string) : Prop :=
  lacks ";" (last_segment pa) ∧ lacks "/" pr.

Lemma splitparams_spec url pa pr :
  Str.has ";" url = true → Url._splitparams url = (pa, pr) →
  split_at_params pa pr ∧ ((url = pa ∧ pr = "") ∨ url = pa +:+ String ";" pr).
Proof.
  intros Hsemi. unfold Url._splitparams, split_at_params.
  destruct (Str.has "/" url) eqn:Hsl.
  - destruct (last_segment_split url Hsl) as (x & Hurl & Hl & ->).
    revert Hurl Hl. generalize (last_segment url). intros y Hurl Hl.
    cbn [default from_option id].
    rewrite find_from_drop by (rewrite Hurl, str_length_app; lia).
    assert (Str.drop (Str.length x) url = String "/" y) as ->.
    { rewrite Hurl. apply str_drop_app_length. }
    change (Str.find ";" (String "/" y)) with (S <$> Str.find ";" y).
    destruct (Str.find ";" y) as [j|] eqn:Hj; cbn [fmap option_fmap option_map].
    + intros [<- <-]%pair_equal_spec. apply str_find_Some in Hj as (Hy & Hly & Hlj).
      revert Hy Hly Hlj. generalize (Str.take j y) (Str.drop (S j) y).
      intros y1 y2 -> Hly Hlj.
      apply lacks_app in Hl as [Hl1 [_ Hl2]%lacks_cons].
      assert (Hurl' : url = (x +:+ String "/" y1) +:+ String ";" y2).
      { rewrite Hurl. by rewrite str_app_assoc. }
      assert (Hi : Str.length x + S j = Str.length (x +:+ String "/" y1)).
      { rewrite str_length_app. simpl. by rewrite Hlj. }
      rewrite Hi, Hurl', str_take_app_length, str_drop_app_length_S.
      split; [|by right]. split; [|done].
      by rewrite last_segment_build.
    + intros [<- <-]%pair_equal_spec. split; [|by left]. split; [|done].
      rewrite Hurl at 1. rewrite last_segment_build by done. by apply find_None.
  - apply has_false in Hsl.
    destruct (Str.find ";" url) as [i|] eqn:Hi.
    + intros [<- <-]%pair_equal_spec. apply str_find_Some in Hi as (Hurl & Hl & Hlen).
      split; [|by right]. split.
      * rewrite last_segment_lacks; [done|]. by apply lacks_take.
      * by apply lacks_drop.
    + apply find_None, has_false in Hi. congruence.
Qed.

Lemma splitparams_build pa pr :
  split_at_params pa pr → Url._splitparams (pa +:+ String ";" pr) = (pa, pr).
Proof.
  intros [Hpa Hpr]. unfold Url._splitparams.
  destruct (Str.has "/" pa) eqn:Hsl.
  - assert (Str.has "/" (pa +:+ String ";" pr) = true) as ->.
    { apply has_true. intros [Hx _]%lacks_app. apply has_false in Hx. congruence. }
    destruct (last_segment_split pa Hsl) as (x & Hurl & Hl & Hr).
    revert Hpa Hurl Hl. generalize (last_segment pa). intros y Hpa Hurl Hl.
    rewrite rfind_app_lacks, Hr by (by apply lacks_cons).
    cbn [default from_option id].
    rewrite find_from_drop by (rewrite Hurl, !str_length_app; lia).
    assert (Str.drop (Str.length x) (pa +:+ String ";" pr)
            = String "/" (y +:+ String ";" pr)) as ->.
    { rewrite Hurl. rewrite str_app_assoc. by rewrite str_drop_app_length. }
    change (Str.find ";" (String "/" (y +:+ String ";" pr)))
      with (S <$> Str.find ";" (y +:+ String ";" pr)).
    rewrite find_app_here by done. cbn [fmap option_fmap option_map].
    assert (Str.length x + S (Str.length y) = Str.length pa) as ->.
    { rewrite Hurl. rewrite str_length_app. done. }
    by rewrite str_take_app_length, str_drop_app_length_S.
  - apply has_false in Hsl.
    assert (Str.has "/" (pa +:+ String ";" pr) = false) as ->.
    { apply has_false, lacks_app. split; [done|]. by apply lacks_cons. }
    rewrite last_segment_lacks in Hpa by done.
    rewrite find_app_here by done.
    by rewrite str_take_app_length, str_drop_app_length_S.
Qed.

Lemma splitparams_none pa :
  lacks ";" (last_segment pa) → Str.has ";" pa = true → Url._splitparams pa = (pa, "").
Proof.
  intros Hpa Hsemi. unfold Url._splitparams.
  destruct (Str.has "/" pa) eqn:Hsl.
  - destruct (last_segment_split pa Hsl) as (x & Hurl & Hl & Hr).
    revert Hpa Hurl Hl. generalize (last_segment pa). intros y Hpa Hurl Hl.
    rewrite Hr. cbn [default from_option id].
    rewrite find_from_drop by (rewrite Hurl, !str_length_app; lia).
    assert (Str.drop (Str.length x) pa = String "/" y) as ->.
    { rewrite Hurl. by rewrite str_drop_app_length. }
    change (Str.find ";" (String "/" y)) with (S <$> Str.find ";" y).
    apply find_None in Hpa. by rewrite Hpa.
  - apply has_false in Hsl. rewrite last_segment_lacks in Hpa by done.
    apply has_false in Hpa. congruence.
Qed.

(** *** [urlparse] and [urlunparse] *)

Lemma lacks_last_segment c s : lacks c s → lacks c (last_segment s).
Proof. intros. unfold last_segment. destruct (Str.rfind "/" s); [by apply lacks_drop|done]. Qed.

(** What [urlparse] returns. *)
Record parse_ok (p : Url.ParseResult) : Prop := mkParseOk {
  po_scheme : Url.scheme p = "" ∨ valid_scheme (Url.scheme p);
  po_netloc : lacks "/" (Url.netloc p) ∧ lacks "?" (Url.netloc p) ∧ lacks "#" (Url.netloc p);
  po_path : lacks "?" (Url.path p) ∧ lacks "#" (Url.path p);
  po_params : lacks "?" (Url.params p) ∧ lacks "#" (Url.params p);
  po_query : lacks "#" (Url.query p);
  po_tidy : tidy (Url.scheme p) ∧ tidy (Url.netloc p) ∧ tidy (Url.path p)
            ∧ tidy (Url.params p) ∧ tidy (Url.query p);
  po_split : if bool_decide (Url.scheme p ∈ Url.uses_params)
             then split_at_params (Url.path p) (Url.params p)
             else Url.params p = "" }.

Lemma urlparse_spec url (p : Url.ParseResult) : Url.urlparse url = Some p → parse_ok p.
Proof.
  unfold Url.urlparse. destruct (Url.urlsplit url) as [r|] eqn:Hr; [|done]. proj_simpl.
  apply urlsplit_spec in Hr as [Hs Hn [Hp1 Hp2] Hq (Ht1 & Ht2 & Ht3 & Ht4)].
  destruct (decide (Url.s_scheme r ∈ Url.uses_params)) as [Hu|Hu].
  - rewrite bool_decide_eq_true_2 by done. cbn [andb].
    destruct (Str.has ";" (Url.s_path r)) eqn:Hsemi.
    + destruct (Url._splitparams (Url.s_path r)) as [pa pr] eqn:Hsp.
      intros [= <-].
      apply splitparams_spec in Hsp as [Hsplit Hdec]; [|done].
      assert (Hl : (lacks "?" pa ∧ lacks "#" pa) ∧ (lacks "?" pr ∧ lacks "#" pr)
                   ∧ tidy pa ∧ tidy pr).
      { destruct Hdec as [[Heq ->]|Heq]; rewrite Heq in *.
        - done.
        - apply lacks_app in Hp1 as [? [_ ?]%lacks_cons].
          apply lacks_app in Hp2 as [? [_ ?]%lacks_cons].
          apply tidy_app in Ht3 as [? [_ ?]%tidy_cons]. done. }
      destruct Hl as (? & ? & ? & ?).
      split; proj_simpl; auto. by rewrite bool_decide_eq_true_2.
    + intros [= <-]. split; proj_simpl; auto; try done.
      rewrite bool_decide_eq_true_2 by done. split; [|done].
      apply lacks_last_segment. by apply has_false.
  - rewrite bool_decide_eq_false_2 by done. cbn [andb].
    intros [= <-]. split; proj_simpl; auto; try done.
    by rewrite bool_decide_eq_false_2.
Qed.

(** The path with its parameters, as [urlunparse] joins them. *)
Definition join_params (pa pr : string) : string :=
  if Str.nonempty pr then pa +:+ ";" +:+ pr else pa.

(** The part of [urlunsplit]'s result between the scheme and the query. *)
Definition url_body (s nl x : string) : string :=
  if Str.nonempty nl
     || (Str.nonempty s && bool_decide (s ∈ Url.uses_netloc)
         && negb (Str.startswith "//" x))
  then "//" +:+ nl +:+ (if Str.nonempty x && negb (Str.startswith "/" x)
                         then "/" +:+ x else x)
  else x.

Lemma urlunparse_unfold (p : Url.ParseResult) :
  Url.scheme p ≠ "" → Url.fragment p = "" →
  Url.urlunparse p
  = Url.scheme p +:+ ":"
    +:+ url_body (Url.scheme p) (Url.netloc p) (join_params (Url.path p) (Url.params p))
    +:+ query_part (Url.query p).
Proof.
  intros Hs Hf. unfold Url.urlunparse, Url.urlunsplit, url_body, join_params, query_part.
  simpl. rewrite Hf. simpl.
  destruct (Url.scheme p) as [|a s] eqn:Hsch; [done|]. simpl.
  destruct (Str.nonempty (Url.query p)); [|by rewrite str_app_nil_r].
  by rewrite str_app_assoc.
Qed.

Lemma params_stage (s x pa pr : string) :
  (if bool_decide (s ∈ Url.uses_params) then split_at_params pa pr else pr = "") →
  x = join_params pa pr →
  (if bool_decide (s ∈ Url.uses_params) && Str.has ";" x
   then Url._splitparams x else (x, "")) = (pa, pr).
Proof.
  intros Hsplit ->. unfold join_params.
  destruct (decide (s ∈ Url.uses_params)) as [Hu|Hu].
  - rewrite !bool_decide_eq_true_2 in * by done. cbn [andb].
    destruct pr as [|a pr]; cbn [Str.nonempty].
    + destruct Hsplit as [Hpa _].
      destruct (Str.has ";" pa) eqn:Hsemi; [|done]. by apply splitparams_none.
    + change (";" +:+ String a pr) with (String ";" (String a pr)).
      rewrite has_app_here. by apply splitparams_build.
  - rewrite !bool_decide_eq_false_2 in * by done. cbn [andb]. by subst pr.
Qed.

Lemma urlparse_of_split url (r : Url.SplitResult) (pa pr : string) :
  Url.urlsplit url = Some r →
  (if bool_decide (Url.s_scheme r ∈ Url.uses_params)
   then split_at_params pa pr else pr = "") →
  Url.s_path r = join_params pa pr →
  Url.urlparse url
  = Some (Url.mkParse (Url.s_scheme r) (Url.s_netloc r) pa pr
                      (Url.s_query r) (Url.s_fragment r)).
Proof.
  intros Hr Hsplit Hx. unfold Url.urlparse. rewrite Hr. proj_simpl.
  by rewrite (params_stage _ _ pa pr).
Qed.

Lemma last_segment_slash s : last_segment (String "/" s) = last_segment s.
Proof.
  unfold last_segment. simpl. by destruct (Str.rfind "/" s) as [r|].
Qed.

Lemma join_params_nonempty pa pr : pa ≠ "" → join_params pa pr ≠ "".
Proof.
  intros Hpa. unfold join_params. destruct (Str.nonempty pr); [|done].
  by destruct pa.
Qed.

Lemma join_params_slash pa pr :
  pa ≠ "" → Str.startswith "/" (join_params pa pr) = Str.startswith "/" pa.
Proof.
  intros Hpa. unfold join_params. destruct (Str.nonempty pr); [|done].
  by destruct pa.
Qed.

Lemma join_params_slashes pa pr :
  pa ≠ "" → Str.startswith "//" pa = false → Str.startswith "//" (join_params pa pr) = false.
Proof.
  intros Hpa Hs. unfold join_params. destruct (Str.nonempty pr); [|done].
  destruct pa as [|c1 [|c2 pa]]; [done| |exact Hs].
  simpl. by rewrite andb_false_r.
Qed.

Lemma join_params_slashes_inv pa pr :
  pa ≠ "" → Str.startswith "//" (join_params pa pr) = false → Str.startswith "//" pa = false.
Proof.
  intros Hpa. unfold join_params. destruct (Str.nonempty pr); [|done].
  destruct pa as [|c1 [|c2 pa]]; [done| |done].
  intros _. simpl. by rewrite andb_false_r.
Qed.

Lemma join_params_cons a pa pr : join_params (String a pa) pr = String a (join_params pa pr).
Proof. unfold join_params. by destruct (Str.nonempty pr). Qed.

Lemma slashes_query x q :
  x ≠ "" → Str.startswith "//" x = false → Str.startswith "//" (x +:+ query_part q) = false.
Proof.
  intros Hx Hs. destruct x as [|c1 [|c2 x]]; [done| |exact Hs].
  unfold query_part. destruct (Str.nonempty q); simpl; by rewrite andb_false_r.
Qed.

Lemma tidy_join_params pa pr : tidy pa → tidy pr → tidy (join_params pa pr).
Proof.
  intros. unfold join_params. destruct (Str.nonempty pr); [|done].
  apply tidy_app. split; [done|]. by apply tidy_cons.
Qed.

Lemma lacks_join_params c pa pr :
  c ≠ ";"%char → lacks c pa → lacks c pr → lacks c (join_params pa pr).
Proof.
  intros. unfold join_params. destruct (Str.nonempty pr); [|done].
  apply lacks_app. split; [done|]. by apply lacks_cons.
Qed.

(** Parsing what [urlunparse] has put together gives the same components
    back, up to a slash in front of a relative path; it fails only on the
    brackets of the netloc.  The components are those of a parse, with a
    scheme, a path that is not empty, and not both: no netloc and a path
    that begins with two slashes. *)
Lemma reparse (p : Url.ParseResult) :
  parse_ok p → valid_scheme (Url.scheme p) → Url.path p ≠ "" → Url.fragment p = "" →
  (Url.netloc p = "" → Str.startswith "//" (Url.path p) = false) →
  Url.urlparse (Url.urlunparse p) = None
  ∨ ∃ pa', Url.urlparse (Url.urlunparse p)
           = Some (Url.mkParse (Url.scheme p) (Url.netloc p) pa' (Url.params p)
                               (Url.query p) "")
           ∧ pa' ≠ ""
           ∧ Url.urlunparse (Url.mkParse (Url.scheme p) (Url.netloc p) pa' (Url.params p)
                                         (Url.query p) "")
             = Url.urlunparse p.
Proof.
  destruct p as [s nl pa pr q f]. proj_simpl.
  intros [_ (Hn1 & Hn2 & Hn3) [Hp1 Hp2] [Hr1 Hr2] Hq (Hts & Htn & Htp & Htr & Htq) Hsplit]
         Hs Hpa -> Hclass.
  proj_simpl.
  assert (Hsne : s ≠ "") by (by destruct Hs).
  rewrite (urlunparse_unfold (Url.mkParse s nl pa pr q "")) by done. proj_simpl.
  set (x := join_params pa pr).
  assert (Hx : x ≠ "") by (by apply join_params_nonempty).
  assert (Htx : tidy x) by (by apply tidy_join_params).
  assert (Hx1 : lacks "?" x) by (by apply lacks_join_params).
  assert (Hx2 : lacks "#" x) by (by apply lacks_join_params).
  unfold url_body.
  destruct (Str.nonempty nl
            || (Str.nonempty s && bool_decide (s ∈ Url.uses_netloc)
                && negb (Str.startswith "//" x))) eqn:Hwith.
  - (* with the two slashes *)
    set (pa' := if Str.startswith "/" pa then pa else String "/" pa).
    assert (Hx' : (if Str.nonempty x && negb (Str.startswith "/" x)
                   then "/" +:+ x else x) = join_params pa' pr).
    { unfold x, pa'. rewrite join_params_slash by done.
      assert (Str.nonempty (join_params pa pr) = true) as ->.
      { fold x. by destruct x. }
      destruct (Str.startswith "/" pa); [done|]. by rewrite join_params_cons. }
    rewrite Hx'.
    assert (Hpa' : pa' ≠ "") by (unfold pa'; by destruct (Str.startswith "/" pa)).
    assert (Hsl : Str.startswith "/" pa' = true).
    { unfold pa'. by destruct (Str.startswith "/" pa) eqn:E. }
    assert (Htp' : tidy pa').
    { unfold pa'. destruct (Str.startswith "/" pa); [done|]. by apply tidy_cons. }
    assert (Hp1' : lacks "?" pa' ∧ lacks "#" pa').
    { unfold pa'. destruct (Str.startswith "/" pa); [done|]. by rewrite !lacks_cons. }
    destruct Hp1' as [Hp1' Hp2'].
    assert (Hsplit' : if bool_decide (s ∈ Url.uses_params)
                      then split_at_params pa' pr else pr = "").
    { destruct (bool_decide (s ∈ Url.uses_params)); [|done].
      unfold pa'. destruct (Str.startswith "/" pa); [done|].
      destruct Hsplit. split; [|done]. by rewrite last_segment_slash. }
    set (x' := join_params pa' pr).
    assert (Hsl' : Str.startswith "/" x' = true).
    { unfold x'. by rewrite join_params_slash. }
    assert (Hsplit_ok :
      Url.urlsplit (s +:+ ":" +:+ "//" +:+ nl +:+ x' +:+ query_part q)
      = if netloc_ok nl then Some (Url.mkSplit s nl x' q "") else None).
    { apply urlsplit_build_netloc; auto.
      - by apply tidy_join_params.
      - by apply lacks_join_params.
      - by apply lacks_join_params.
      - right. apply startswith_spec in Hsl' as [t Ht]. rewrite Ht.
        exists "/"%char, (t +:+ query_part q). split; [set_solver|done]. }
    assert (Heq : ("//" +:+ nl +:+ x') +:+ query_part q
                  = "//" +:+ nl +:+ x' +:+ query_part q).
    { by rewrite !str_app_assoc. }
    rewrite Heq.
    destruct (netloc_ok nl).
    + right. exists pa'. split; [|split; [done|]].
      * by apply (urlparse_of_split _ (Url.mkSplit s nl x' q "")).
      * rewrite (urlunparse_unfold (Url.mkParse s nl pa' pr q "")) by done. proj_simpl.
        fold x'. unfold url_body.
        assert (Str.nonempty nl
                || (Str.nonempty s && bool_decide (s ∈ Url.uses_netloc)
                    && negb (Str.startswith "//" x')) = true) as ->.
        { destruct (Str.nonempty nl); [done|]. cbn [orb] in Hwith |- *.
          apply andb_true_iff in Hwith as [Hw1 Hno]. rewrite Hw1. cbn [andb].
          apply negb_true_iff in Hno. apply negb_true_iff.
          unfold x'. apply join_params_slashes; [done|].
          unfold pa'. destruct (Str.startswith "/" pa) eqn:E.
          - by apply (join_params_slashes_inv pa pr).
          - change (Str.startswith "//" (String "/" pa))
              with (bool_decide ("/"%char = "/"%char) && Str.startswith "/" pa).
            by rewrite E, andb_false_r. }
        rewrite Hsl'. cbn [negb]. rewrite andb_false_r. by rewrite Heq.
    + left. unfold Url.urlparse. by rewrite Hsplit_ok.
  - (* without *)
    apply orb_false_iff in Hwith as [Hnl Hwith].
    assert (nl = "") as -> by (by destruct nl).
    assert (Hxs : Str.startswith "//" x = false).
    { unfold x. apply join_params_slashes; auto. }
    right. exists pa. split; [|split; [done|]].
    + apply (urlparse_of_split _ (Url.mkSplit s "" x q "")); [|done|done].
      apply urlsplit_build_plain; auto. by apply slashes_query.
    + rewrite (urlunparse_unfold (Url.mkParse s "" pa pr q "")) by done. proj_simpl.
      fold x. unfold url_body. cbn [Str.nonempty orb]. by rewrite Hwith.
Qed.

End url_facts.

(** ** Facts about [normalize_url] and [same_site] *)

Section normalize_facts.
Context `{Env}.

(** The components that [normalize_url] hands to [urlunparse]. *)
Definition normal_form (parsed : Url.ParseResult) : Url.ParseResult :=
  Url.mkParse (Str.lower (Url.scheme parsed)) (Str.lower (Url.netloc parsed))
              (if Str.nonempty (Url.path parsed) then Url.path parsed else "/")
              (Url.params parsed) (Url.query parsed) "".

(** [url] has a scheme: [urlparse] returns one that is not empty. *)
Definition has_scheme (url : string) : bool :=
  match Url.urlparse url with
  | Some parsed => Str.nonempty (Url.scheme parsed)
  | None => false
  end.

Lemma normalize_url_unfold url :
  normalize_url url
  = match Url.urlparse url with
    | Some parsed =>
        if Str.nonempty (Url.scheme parsed) then Url.urlunparse (normal_form parsed)
        else url
    | None => url
    end.
Proof.
  unfold normalize_url. destruct (Url.urlparse url) as [parsed|]; [|done].
  by destruct (Str.nonempty (Url.scheme parsed)).
Qed.

Lemma normalize_url_no_scheme url : has_scheme url = false → normalize_url url = url.
Proof.
  unfold has_scheme. rewrite normalize_url_unfold.
  destruct (Url.urlparse url) as [parsed|]; [|done]. by intros ->.
Qed.

Lemma caseless_slash : caseless "/".
Proof. intros a. destruct a as [[][][][][][][][]]; vm_compute; split; congruence. Qed.

Lemma caseless_question : caseless "?".
Proof. intros a. destruct a as [[][][][][][][][]]; vm_compute; split; congruence. Qed.

Lemma caseless_hash : caseless "#".
Proof. intros a. destruct a as [[][][][][][][][]]; vm_compute; split; congruence. Qed.

Lemma nonempty_true s : Str.nonempty s = true ↔ s ≠ "".
Proof. by destruct s. Qed.

Lemma normal_form_ok (parsed : Url.ParseResult) :
  parse_ok parsed → Url.scheme parsed ≠ "" →
  parse_ok (normal_form parsed)
  ∧ valid_scheme (Url.scheme (normal_form parsed))
  ∧ Url.scheme (normal_form parsed) = Url.scheme parsed
  ∧ Url.path (normal_form parsed) ≠ "".
Proof.
  destruct parsed as [s nl pa pr q f]. unfold normal_form. proj_simpl.
  intros [Hs (Hn1 & Hn2 & Hn3) [Hp1 Hp2] [Hr1 Hr2] Hq (Hts & Htn & Htp & Htr & Htq) Hsplit]
         Hne.
  proj_simpl. destruct Hs as [?|Hs]; [done|].
  assert (Hlow : Str.lower s = s) by (by destruct Hs as (_ & _ & _ & ?)).
  rewrite Hlow.
  assert (Hpa : (if Str.nonempty pa then pa else "/") ≠ "").
  { destruct pa; done. }
  split; [|done].
  split; proj_simpl; auto.
  - auto using lacks_lower, caseless_slash, caseless_question, caseless_hash.
  - destruct pa; done.
  - repeat split; auto using tidy_lower. destruct pa; done.
  - destruct (bool_decide (s ∈ Url.uses_params)); [|done].
    destruct pa; [|done]. destruct Hsplit. split; [done|done].
Qed.

Lemma lower_empty s : Str.lower s = "" ↔ s = "".
Proof. by destruct s. Qed.

Lemma urlunparse_normal_fixed (parsed : Url.ParseResult) :
  parse_ok parsed → Url.scheme parsed ≠ "" →
  (Url.netloc parsed = "" → Str.startswith "//" (Url.path parsed) = false) →
  normalize_url (Url.urlunparse (normal_form parsed)) = Url.urlunparse (normal_form parsed).
Proof.
  intros Hok Hne Hclass.
  destruct (normal_form_ok parsed Hok Hne) as (Hok' & Hs' & Hsch & Hpa').
  destruct (reparse (normal_form parsed) Hok' Hs' Hpa' eq_refl) as [Hr|(pa' & Hr & Hpa & Heq)].
  - unfold normal_form. proj_simpl. intros Hn. apply (proj1 (lower_empty _)) in Hn.
    specialize (Hclass Hn). by destruct (Url.path parsed).
  - rewrite normalize_url_unfold. by rewrite Hr.
  - rewrite normalize_url_unfold, Hr. proj_simpl.
    destruct Hs' as (Hs1 & _ & _ & Hlow).
    assert (Str.nonempty (Url.scheme (normal_form parsed)) = true) as ->
      by (by apply nonempty_true).
    rewrite <- Heq. unfold normal_form at 1. proj_simpl.
    rewrite Hlow. f_equal. f_equal.
    + unfold normal_form. proj_simpl. apply lower_idem.
    + by destruct pa'.
Qed.

End normalize_facts.

(** ** Facts about the scope test and the assembled URL *)

Section scope_facts.
Context `{Env}.


(** What [normalize_url] returns up to the query. *)
Definition base_of (parsed : Url.ParseResult) : string :=
  Url.scheme parsed +:+ ":"
  +:+ url_body (Url.scheme parsed) (Str.lower (Url.netloc parsed))
        (join_params (Url.path (normal_form parsed)) (Url.params parsed)).

Lemma endswith_spec (p s : string) : Str.endswith p s = true ↔ ∃ t, s = t +:+ p.
Proof.
  unfold Str.endswith. rewrite andb_true_iff, !bool_decide_eq_true. split.
  - intros [Hle Hd]. exists (Str.take (Str.length s - Str.length p) s).
    rewrite <- Hd at 2. by rewrite str_take_drop.
  - intros [t ->]. rewrite str_length_app. split; [lia|].
    replace (Str.length t + Str.length p - Str.length p) with (Str.length t) by lia.
    apply str_drop_app_length.
Qed.

Lemma str_app_inv_head (s t t' : string) : s +:+ t = s +:+ t' → t = t'.
Proof. induction s as [|a s IH]; rewrite ?str_app_nil_l, ?str_app_cons; [done|]. intros [=]. auto. Qed.

Lemma query_part_inj (q q' : string) : query_part q = query_part q' → q = q'.
Proof.
  unfold query_part.
  destruct q, q'; cbn [Str.nonempty]; rewrite ?str_app_cons, ?str_app_nil_l; congruence.
Qed.


Lemma same_site_true (url : string) (ctx : CrawlContext) (parsed : Url.ParseResult) :
  Url.urlparse url = Some parsed →
  same_site url ctx = Some true
  ↔ Str.lower (Url.netloc parsed) ∈ allowed_hosts ctx
    ∨ ∃ sub, Str.lower (Url.netloc parsed) = sub +:+ "." +:+ root_host ctx.
Proof.
  intros Hp. unfold same_site. rewrite Hp. cbn [mbind option_bind].
  split.
  - intros [= Hb]. apply orb_true_iff in Hb as [Hb|Hb].
    + left. by apply bool_decide_eq_true in Hb.
    + right. by apply endswith_spec.
  - intros Hb. f_equal. apply orb_true_iff. destruct Hb as [Hb|Hb].
    + left. by apply bool_decide_eq_true.
    + right. by apply endswith_spec.
Qed.


Lemma scheme_char_lacks (c : ascii) (s : string) :
  Url.scheme_char c = false → Str.forallb Url.scheme_char s = true → lacks c s.
Proof.
  intros Hc. apply forallb_impl. intros a Ha. apply bool_decide_eq_true. intros ->.
  congruence.
Qed.

Lemma lacks_url_body (c : ascii) (s nl x : string) :
  c ≠ "/"%char → lacks c nl → lacks c x → lacks c (url_body s nl x).
Proof.
  intros Hc Hnl Hx. unfold url_body.
  destruct (_ || _); [|done].
  rewrite !lacks_app. split_and!; [by rewrite !lacks_cons| done |].
  destruct (_ && _); [|done]. by rewrite lacks_app, lacks_cons.
Qed.

Lemma lacks_base_of (c : ascii) (parsed : Url.ParseResult) :
  parse_ok parsed → Url.scheme parsed ≠ "" →
  Url.scheme_char c = false → c ≠ ":"%char → c ≠ "/"%char → c ≠ ";"%char →
  caseless c →
  lacks c (Url.netloc parsed) → lacks c (Url.path parsed) → lacks c (Url.params parsed) →
  lacks c (base_of parsed).
Proof.
  intros Hok Hs Hsc Hcolon Hslash Hsemi Hcl Hnl Hpa Hpr. unfold base_of.
  destruct (po_scheme _ Hok) as [?|(_ & _ & Hchars & _)]; [done|].
  rewrite !lacks_app. split_and!.
  - by apply scheme_char_lacks.
  - by apply lacks_cons.
  - apply lacks_url_body; [done|by apply lacks_lower|].
    apply lacks_join_params; [done| |done].
    unfold normal_form. proj_simpl. destruct (Url.path parsed); [|done].
    by apply lacks_cons.
Qed.

Lemma normalize_url_scheme (url : string) (parsed : Url.ParseResult) :
  Url.urlparse url = Some parsed → Url.scheme parsed ≠ "" →
  normalize_url url = Url.urlunparse (normal_form parsed)
  ∧ Str.lower (Url.scheme parsed) = Url.scheme parsed
  ∧ normalize_url url = base_of parsed +:+ query_part (Url.query parsed).
Proof.
  intros Hp Hs. pose proof (urlparse_spec _ _ Hp) as Hok.
  destruct (po_scheme _ Hok) as [?|(_ & _ & _ & Hlow)]; [done|].
  assert (Hn : normalize_url url = Url.urlunparse (normal_form parsed)).
  { rewrite normalize_url_unfold, Hp. by apply nonempty_true in Hs as ->. }
  split_and!; [done..|].
  rewrite Hn, urlunparse_unfold; [|unfold normal_form; proj_simpl; by rewrite Hlow|done].
  unfold base_of, normal_form. proj_simpl. by rewrite Hlow, !str_app_assoc.
Qed.

End scope_facts.

Section assembled.
Context `{Env}.

Lemma url_body_netloc (s nl x : string) :
  nl ≠ "" → x ≠ "" →
  ∃ rest, url_body s nl x = "//" +:+ nl +:+ "/" +:+ rest
          ∧ (x = "/" +:+ rest ∨ x = rest ∧ Str.startswith "/" x = false).
Proof.
  intros Hnl Hx. unfold url_body.
  apply nonempty_true in Hnl as ->. cbn [orb].
  destruct x as [|a x]; [done|]. cbn [Str.nonempty andb Str.startswith].
  destruct (decide ("/"%char = a)) as [<-|Hne].
  - rewrite bool_decide_eq_true_2 by done. cbn [andb negb]. exists x. split; [done|by left].
  - rewrite bool_decide_eq_false_2 by done. cbn [andb negb]. exists (String a x).
    split; [done|right]. split; [done|]. cbn [Str.startswith].
    by rewrite ?bool_decide_eq_false_2.
Qed.

Lemma base_of_netloc (parsed : Url.ParseResult) :
  Url.netloc parsed ≠ "" →
  ∃ rest,
    base_of parsed
    = (Url.scheme parsed +:+ "://" +:+ Str.lower (Url.netloc parsed) +:+ "/") +:+ rest
    ∧ (Url.path parsed = "" → Url.params parsed = "" → rest = "").
Proof.
  intros Hnl. unfold base_of.
  destruct (url_body_netloc (Url.scheme parsed) (Str.lower (Url.netloc parsed))
              (join_params (Url.path (normal_form parsed)) (Url.params parsed)))
    as (rest & -> & Hrest).
  - by rewrite lower_empty.
  - unfold join_params, normal_form. proj_simpl.
    destruct (Url.params parsed), (Url.path parsed); done.
  - exists rest. split.
    + by rewrite !str_app_assoc.
    + intros Hpa Hpr. unfold join_params, normal_form in Hrest. proj_simpl.
      rewrite Hpa, Hpr in Hrest. cbn [Str.nonempty] in Hrest.
      destruct Hrest as [Hr|Hr].
      * rewrite str_app_cons, str_app_nil_l in Hr. congruence.
      * by destruct Hr.
Qed.

Lemma base_of_ext (parsed parsed' : Url.ParseResult) :
  Url.scheme parsed' = Url.scheme parsed → Url.netloc parsed' = Url.netloc parsed →
  Url.path parsed' = Url.path parsed → Url.params parsed' = Url.params parsed →
  base_of parsed' = base_of parsed.
Proof.
  intros Hs Hn Hpa Hpr. unfold base_of, normal_form. proj_simpl.
  by rewrite Hs, Hn, Hpa, Hpr.
Qed.

End assembled.

(** ** Concrete sites

    A site on the host [a.com]: [pages] lists the URLs that answer with an
    HTML page and the [href]s of each, [locs] what [/sitemap.xml] lists (no
    sitemap when empty); there are no feeds.  The text of a page is its URL.
    [urljoin] is given on what these sites join: an absolute [https] URL, or
    a relative name against a base that ends in a slash. *)

Fixpoint assoc (pages : list (string * list string)) (u : string) : option (list string) :=
  match pages with
  | [] => None
  | (v, hrefs) :: pages => if decide (v = u) then Some hrefs else assoc pages u
  end.

Definition site_env (pages : list (string * list string)) (locs : list string) : Env := {|
  env_ipaddress := {| Url._check_bracketed_host := λ _, false |};
  tldextract := λ _, ("a", "com");
  urljoin := λ base url,
    Some (if Str.startswith "https://" url then url else base +:+ url);
  re_search := λ p s, Some (Str.contains p s);
  httpx_get := λ u,
    if bool_decide (u = "https://a.com/sitemap.xml") && bool_decide (locs ≠ [])
    then Some (mkResponse 200 (Some "application/xml") "sitemap")
    else Some (mkResponse 404 None "");
  client_get := λ u,
    match assoc pages u with
    | Some _ => Some (mkResponse 200 (Some "text/html; charset=utf-8") u)
    | None => None
    end;
  soup_locs := λ _, Some locs;
  soup_hrefs := λ html, Some (default [] (assoc pages html));
  feedparser_parse := λ _, Some (mkFeed true []);
  set_order := λ _ X, merge_sort String.le (elements X);
  set_order_perm := λ _ X, merge_sort_Permutation String.le (elements X)
|}.

(** The root links to two pages; the budget is two pages, with two workers. *)
Module Overshoot.

Definition env : Env :=
  site_env [("https://a.com/", ["https://a.com/b"; "https://a.com/c"]);
            ("https://a.com/b", []); ("https://a.com/c", [])] [].

(** Worker 0 fetches the root while worker 1, past its loop test, waits for
    the queue; then each of them fetches one of the two links. *)
Definition sched : list nat := [0; 0; 1; 0; 0; 0; 1; 0; 1].

End Overshoot.

(** The sitemap lists a page that the exclusion pattern matches. *)
Module Privacy.

Definition env : Env :=
  site_env [("https://a.com/", []); ("https://a.com/privacy", [])]
           ["https://a.com/privacy"].

Definition sched : list nat := replicate 8 0.

End Privacy.

(** The sitemap lists 101 pages, [s000] to [s100]; the seeds are iterated in
    lexicographic order, so [s100] is the one that is not enqueued.  Of the
    seeds only [s100] can be fetched, and the root links to it. *)
Module ManySeeds.

Definition digits3 (n : nat) : string :=
  String (Ascii.ascii_of_nat (48 + n / 100))
    (String (Ascii.ascii_of_nat (48 + (n / 10) mod 10))
       (String (Ascii.ascii_of_nat (48 + n mod 10)) "")).

Definition seed (n : nat) : string := "https://a.com/s" +:+ digits3 n.

Definition env : Env :=
  site_env [("https://a.com/", [seed 100]); (seed 100, [])] (seed <$> seq 0 101).

Definition ctx : CrawlContext :=
  mkCtx "https://a.com/" "a.com" {[ "a.com"; "a.com"; "www.a.com" ]}.

(** One worker, resumed until it leaves its loop. *)
Definition sched : list nat := replicate 320 0.

End ManySeeds.

(** ** The claims about the crawl *)

(** C3. Every crawl terminates, whatever the site and its link cycles: from
    every state that a crawl reaches, every sequence of worker moves is finite
    ([Acc]), and every partial run extends to one in which [crawl_bfs] and
    [crawl_site] have returned or raised.  Along the way no URL is fetched
    twice and none is accepted into [results] twice. *)
Theorem crawl_terminates `{Env} (root_url : string) (max_pages concurrency : Z)
    (inc exc : list string) (sched : list nat) :
  (∃ sched', crawl_bfs root_url max_pages concurrency inc exc (sched ++ sched') ≠ Running)
  ∧ (∃ sched', crawl_site root_url max_pages concurrency inc exc (sched ++ sched') ≠ Running)
  ∧ ∀ ctx seed_urls,
      let st := run ctx max_pages exc sched
                    (crawl_init ctx max_pages concurrency seed_urls) in
      Acc (flip (moves ctx max_pages exc)) st
      ∧ NoDup (fetched_urls (trace (frontier st)))
      ∧ NoDup (accepted_urls (trace (frontier st))).
Proof.
  split; [apply crawl_bfs_completes|]. split.
  - destruct (crawl_bfs_completes root_url max_pages concurrency inc exc sched)
      as [sched' Hs].
    exists sched'. intros Hr. apply crawl_site_running in Hr as (_ & _ & Hr). done.
  - intros ctx seed_urls st. subst st. rewrite crawl_init_start.
    match goal with |- context [start ?q ?n] =>
      pose proof (crawl_inv_run ctx max_pages exc q n sched) as [Hd Ht _ Hc _] end.
    split; [by apply moves_terminate|].
    destruct Ht. done.
Qed.

(** C4. Once a URL is in [seen], no worker puts it on the queue again:
    whatever is run after a state in which [u] is seen, no [Put u] is among
    the new events.  And in every interleaving each URL is fetched at most
    once and accepted into [results] at most once, however many pages link
    to it. *)
Theorem seen_never_requeued `{Env} (ctx : CrawlContext) (max_pages concurrency : Z)
    (exc : list string) (seed_urls : gset string) (sched1 sched2 : list nat) (u : string) :
  let st0 := crawl_init ctx max_pages concurrency seed_urls in
  u ∈ seen (frontier (run ctx max_pages exc sched1 st0)) →
  Put u ∉ new_events ctx max_pages exc st0 sched1 sched2
  ∧ ∀ v, occurrences (Get v) (trace (frontier (run ctx max_pages exc (sched1 ++ sched2) st0))) ≤ 1
         ∧ occurrences (Accept v) (trace (frontier (run ctx max_pages exc (sched1 ++ sched2) st0))) ≤ 1.
Proof.
  intros st0 Hu. subst st0. rewrite crawl_init_start in *.
  match goal with |- context [start ?q ?n] => set (q0 := q) in *; set (k := n) in * end.
  pose proof (crawl_inv_run ctx max_pages exc q0 k (sched1 ++ sched2)) as [_ Ht2 _ _ _].
  pose proof (crawl_inv_run ctx max_pages exc q0 k sched1) as [_ Ht1 _ _ _].
  destruct Ht2 as [_ _ Hg _ Ha Hp]. destruct Ht1 as [Hc1 _ _ _ _ _].
  split.
  - intros Hin. apply list_elem_of_split in Hin as (n1 & n2 & Hn).
    pose proof (new_events_spec ctx max_pages exc (start q0 k) sched1 sched2) as Hs.
    rewrite Hn, <- app_assoc in Hs. simpl in Hs.
    eapply put_ok_split in Hs; [|exact Hp].
    apply Hs. rewrite elem_of_app. right. by apply Hc1.
  - intros v. split; [by apply fetched_once_occurrences|by apply accepted_once_occurrences].
Qed.

(** C6. [include_patterns] has no effect: two crawls that differ only in it
    produce the same outcome, under every schedule. *)
Theorem include_patterns_ignored `{Env} (root_url : string) (max_pages concurrency : Z)
    (inc1 inc2 exc : list string) (sched : list nat) :
  crawl_site root_url max_pages concurrency inc1 exc sched
  = crawl_site root_url max_pages concurrency inc2 exc sched
  ∧ crawl_bfs root_url max_pages concurrency inc1 exc sched
    = crawl_bfs root_url max_pages concurrency inc2 exc sched.
Proof. split; reflexivity. Qed.

(** C1, at a failing input.  With a budget of two pages and two workers the
    crawl of a site of three pages returns all three: both workers pass the
    loop test while [results] holds one page, and each adds the page it
    fetched. *)
Theorem crawl_site_exceeds_max_pages :
  @crawl_site Overshoot.env "https://a.com" 2 2 [] [] Overshoot.sched
  = Returned ["https://a.com/"; "https://a.com/b"; "https://a.com/c"].
Proof. vm_compute. reflexivity. Qed.

Lemma seen_never_requeued_witness :
  "https://a.com/" ∈
    seen (frontier (@run Overshoot.env
                      (mkCtx "https://a.com/" "a.com" {[ "a.com"; "www.a.com" ]}) 2 []
                      [0; 0]
                      (@crawl_init Overshoot.env
                         (mkCtx "https://a.com/" "a.com" {[ "a.com"; "www.a.com" ]}) 2 2 ∅)))
  ∧ Put "https://a.com/" ∉
      @new_events Overshoot.env
        (mkCtx "https://a.com/" "a.com" {[ "a.com"; "www.a.com" ]}) 2 []
        (@crawl_init Overshoot.env
           (mkCtx "https://a.com/" "a.com" {[ "a.com"; "www.a.com" ]}) 2 2 ∅)
        [0; 0] [1; 0; 0; 0; 1; 0; 1].
Proof.
  assert (Hseen : "https://a.com/" ∈
    seen (frontier (@run Overshoot.env
                      (mkCtx "https://a.com/" "a.com" {[ "a.com"; "www.a.com" ]}) 2 []
                      [0; 0]
                      (@crawl_init Overshoot.env
                         (mkCtx "https://a.com/" "a.com" {[ "a.com"; "www.a.com" ]}) 2 2 ∅)))).
  { apply (bool_decide_unpack _). vm_compute. exact I. }
  split; [exact Hseen|].
  exact (proj1 (@seen_never_requeued Overshoot.env _ 2 2 [] ∅ [0; 0] [1; 0; 0; 0; 1; 0; 1] _ Hseen)).
Defined.

(** The site [a.com] with no page, where the pattern [+] does not compile. *)
Module Unreachable.

Definition env : Env := {|
  env_ipaddress := {| Url._check_bracketed_host := λ _, false |};
  tldextract := λ _, ("a", "com");
  urljoin := λ base url,
    Some (if Str.startswith "https://" url then url else base +:+ url);
  re_search := λ p s, if bool_decide (p = "+") then None else Some (Str.contains p s);
  httpx_get := λ _, Some (mkResponse 404 None "");
  client_get := λ _, None;
  soup_locs := λ _, Some [];
  soup_hrefs := λ _, Some [];
  feedparser_parse := λ _, Some (mkFeed true []);
  set_order := λ _ X, merge_sort String.le (elements X);
  set_order_perm := λ _ X, merge_sort_Permutation String.le (elements X)
|}.

End Unreachable.




(** C2, as stated, fails: the sitemap lists [https://a.com/privacy], the
    workers discard it because it matches the exclusion pattern, and the
    final merge of the seeds puts it in the list that [crawl_site] returns. *)
Lemma seed_merge_skips_filters :
  @crawl_site Privacy.env "https://a.com" 5 1 [] ["/privacy"] Privacy.sched
  = Returned ["https://a.com/"; "https://a.com/privacy"]
  ∧ @excluded Privacy.env ["/privacy"] "https://a.com/privacy" = Some true
  ∧ Str.contains "/privacy" "https://a.com/privacy" = true.
Proof. vm_compute. auto. Qed.

(** C2, amended.  Every URL in the [results] of [crawl_bfs] is in scope
    ([same_site] holds) and matches no exclusion pattern; so with the pattern
    [/privacy], matched as a substring, none of them contains [/privacy].
    Each element of the list that [crawl_site] returns is such a result, or a
    seed from the sitemaps and feeds of the root (merged without either
    filter), or [root_url] itself. *)
Theorem results_pass_filters `{Env} (root_url : string) (max_pages concurrency : Z)
    (inc exc : list string) (sched : list nat) (ctx : CrawlContext) :
  build_ctx root_url = Some ctx →
  (∀ crawled u,
     crawl_bfs root_url max_pages concurrency inc exc sched = Returned crawled →
     u ∈ crawled →
     passes_filters ctx exc u
     ∧ ("/privacy" ∈ exc → re_search "/privacy" u = Some (Str.contains "/privacy" u) →
        Str.contains "/privacy" u = false))
  ∧ (∀ out u,
       crawl_site root_url max_pages concurrency inc exc sched = Returned out →
       u ∈ out →
       passes_filters ctx exc u
       ∨ (∃ from_feeds, discover_from_feeds root_url = Some from_feeds
                        ∧ u ∈ discover_from_sitemap root_url ∪ from_feeds)
       ∨ u = root_url).
Proof.
  intros Hctx.
  assert (Hbfs : ∀ crawled u,
            crawl_bfs root_url max_pages concurrency inc exc sched = Returned crawled →
            u ∈ crawled → passes_filters ctx exc u).
  { intros crawled u (ctx' & fd & Hctx' & _ & ->)%crawl_bfs_returned Hu.
    assert (ctx' = ctx) as -> by congruence.
    rewrite crawl_init_start in Hu.
    match type of Hu with context [start ?q ?n] =>
      pose proof (crawl_inv_run ctx max_pages exc q n sched) as [_ _ [Hs _] _ _] end.
    by apply Hs. }
  split.
  - intros crawled u Hr Hu. split; [eauto|].
    intros Hp Hre. destruct (Hbfs _ _ Hr Hu) as [_ Hex].
    pose proof (excluded_false _ _ _ Hex Hp) as Hf. congruence.
  - intros out u Hr Hu.
    destruct (crawl_site_returned _ _ _ _ _ _ _ _ Hr Hu) as [(crawled & Hc & Hin)|[?|?]];
      eauto.
Qed.

Lemma results_pass_filters_witness :
  @passes_filters Privacy.env (mkCtx "https://a.com/" "a.com" {[ "a.com"; "a.com"; "www.a.com" ]})
                 ["/privacy"] "https://a.com/"
  ∧ Str.contains "/privacy" "https://a.com/" = false.
Proof.
  assert (Hctx : @build_ctx Privacy.env "https://a.com"
                 = Some (mkCtx "https://a.com/" "a.com" {[ "a.com"; "a.com"; "www.a.com" ]}))
    by (vm_compute; reflexivity).
  destruct (@results_pass_filters Privacy.env "https://a.com" 5 1 [] ["/privacy"]
              Privacy.sched _ Hctx) as [Hbfs _].
  destruct (Hbfs {[ "https://a.com/" ]} "https://a.com/") as [Hp Hc].
  - vm_compute. reflexivity.
  - apply (bool_decide_unpack _). vm_compute. exact I.
  - split; [exact Hp|]. apply Hc; [|reflexivity].
    apply (bool_decide_unpack _). vm_compute. exact I.
Defined.

(** C10, as stated, fails.  With 101 seeds and a budget of ten pages the
    seed [s100] is beyond the bound of 100 and is not enqueued with the
    others; but the root page links to it, so a worker fetches it during the
    traversal and it is among the results of [crawl_bfs]. *)
Lemma seed_beyond_bound_is_fetched :
  @build_ctx ManySeeds.env "https://a.com" = Some ManySeeds.ctx
  ∧ ManySeeds.seed 100 ∈ @discover_from_sitemap ManySeeds.env "https://a.com/"
  ∧ ManySeeds.seed 100 ∉
      take (Z.to_nat (Z.max 100 (10 / 2)))
           (@set_order ManySeeds.env IterSeeds
              (@discover_from_sitemap ManySeeds.env "https://a.com/"))
  ∧ Get (ManySeeds.seed 100) ∈
      trace (frontier (@run ManySeeds.env ManySeeds.ctx 10 [] ManySeeds.sched
                         (@crawl_init ManySeeds.env ManySeeds.ctx 10 1
                            (@discover_from_sitemap ManySeeds.env "https://a.com/"))))
  ∧ @crawl_bfs ManySeeds.env "https://a.com" 10 1 [] [] ManySeeds.sched
    = Returned {[ "https://a.com/"; ManySeeds.seed 100 ]}.
Proof.
  split; [vm_compute; reflexivity|].
  split; [apply (bool_decide_unpack _); vm_compute; exact I|].
  split; [apply (bool_decide_unpack _); vm_compute; exact I|].
  split; [apply (bool_decide_unpack _); vm_compute; exact I|].
  vm_compute. reflexivity.
Qed.

(** Whatever is in [results], and whatever a worker is fetching, was
    requested: a page is accepted by the worker that fetched it. *)
Lemma results_were_fetched `{Env} (ctx : CrawlContext) (max_pages : Z)
    (exc : list string) (q0 : list string) (n : nat) (sched : list nat) (u : string) :
  u ∈ results (frontier (run ctx max_pages exc sched (start q0 n))) →
  Get u ∈ trace (frontier (run ctx max_pages exc sched (start q0 n))).
Proof.
  cut ((∀ v, v ∈ results (frontier (run ctx max_pages exc sched (start q0 n))) →
             Get v ∈ trace (frontier (run ctx max_pages exc sched (start q0 n))))
       ∧ (∀ i v, workers (run ctx max_pages exc sched (start q0 n)) !! i
                 = Some (Fetching v) →
                 Get v ∈ trace (frontier (run ctx max_pages exc sched (start q0 n))))).
  { intros [Hr _]. apply Hr. }
  apply (run_invariant ctx max_pages exc
           (λ st, (∀ v, v ∈ results (frontier st) → Get v ∈ trace (frontier st))
                  ∧ (∀ i v, workers st !! i = Some (Fetching v) →
                            Get v ∈ trace (frontier st)))).
  - split; simpl.
    + intros v Hv. by apply elem_of_empty in Hv.
    + intros i v [Hv _]%lookup_replicate. done.
  - intros st st' [Hr Hf] Hstep.
    destruct Hstep as [st|st i w w' f' Hi Hw]; [done|].
    assert (Hgrow : ∀ v, Get v ∈ trace (frontier st) → Get v ∈ trace f').
    { intros v Hv. inversion Hw; subst; simpl; rewrite ?elem_of_cons; auto.
      match goal with Hx : expanded _ _ _ _ _ |- _ =>
        destruct Hx as (_ & _ & _ & -> & _) end. simpl.
      rewrite elem_of_app, elem_of_cons. auto. }
    assert (Hothers : ∀ j v, j ≠ i → <[i:=w']> (workers st) !! j = Some (Fetching v) →
                             Get v ∈ trace f').
    { intros j v Hne Hj. rewrite list_lookup_insert_ne in Hj by done. eauto. }
    assert (Hmine : ∀ v, w = Fetching v → Get v ∈ trace f') by (intros v ->; eauto).
    split; cbn [frontier workers].
    + inversion Hw; subst; simpl in *; auto.
      * intros v [->%elem_of_singleton|Hv]%elem_of_union; [by apply Hmine|auto].
      * match goal with Hx : expanded _ _ _ _ _ |- _ =>
          rewrite (expanded_results _ _ _ _ _ Hx) end. simpl.
        intros v [->%elem_of_singleton|Hv]%elem_of_union; [by apply Hmine|auto].
    + intros j v Hj. destruct (decide (j = i)) as [->|Hne]; [|by eapply Hothers].
      apply list_lookup_insert_Some in Hj as [(_ & Heq & _)|[? _]]; [|done].
      inversion Hw; subst; try done.
      * match goal with Hx : _ = Top ∨ _ = Failed |- _ => destruct Hx; congruence end.
      * simplify_eq. simpl. rewrite elem_of_cons. auto.
      * match goal with Hx : _ ∧ _ ∨ _ |- _ => destruct Hx as [[? _]|?]; congruence end.
Qed.

(** C10, amended.  Before the workers start, [crawl_bfs] puts on the queue
    the root and at most [max(100, max_pages // 2)] of the seed URLs.  A URL
    that is fetched during the traversal is the normalized root, one of those
    seeds, or a link of a page that was accepted: a seed beyond the bound
    that is not the root is fetched only if some accepted page links to it.
    Everything in [results], so everything that [crawl_bfs] returns, was
    fetched during the traversal.  And every element of the list that
    [crawl_site] returns is a result of the traversal, a seed of the final
    merge, or [root_url] itself. *)
Theorem seeds_beyond_bound `{Env} (ctx : CrawlContext) (max_pages concurrency : Z)
    (exc : list string) (seed_urls : gset string) (sched : list nat) :
  let bound := Z.to_nat (Z.max 100 (max_pages / 2)) in
  let enqueued := take bound (set_order IterSeeds seed_urls) in
  let st0 := crawl_init ctx max_pages concurrency seed_urls in
  let st := run ctx max_pages exc sched st0 in
  to_visit (frontier st0) = root ctx :: enqueued
  ∧ length enqueued ≤ bound
  ∧ (∀ u, Get u ∈ trace (frontier st) → u ≠ root ctx → u ∉ enqueued →
          linked_from_result (frontier st) u)
  ∧ (∀ u, u ∈ results (frontier st) → Get u ∈ trace (frontier st))
  ∧ (∀ root_url inc crawled u,
       crawl_bfs root_url max_pages concurrency inc exc sched = Returned crawled →
       u ∈ crawled →
       ∃ ctx0 from_feeds,
         build_ctx root_url = Some ctx0
         ∧ discover_from_feeds (root ctx0) = Some from_feeds
         ∧ let seeds := ∅ ∪ discover_from_sitemap (root ctx0) ∪ from_feeds in
           let st' := run ctx0 max_pages exc sched
                          (crawl_init ctx0 max_pages concurrency seeds) in
           crawled = results (frontier st')
           ∧ Get u ∈ trace (frontier st')
           ∧ (u = root ctx0 ∨ u ∈ take bound (set_order IterSeeds seeds)
              ∨ linked_from_result (frontier st') u))
  ∧ (∀ root_url inc out u,
       crawl_site root_url max_pages concurrency inc exc sched = Returned out →
       u ∈ out →
       (∃ crawled, crawl_bfs root_url max_pages concurrency inc exc sched = Returned crawled
                   ∧ u ∈ crawled)
       ∨ (∃ from_feeds, discover_from_feeds root_url = Some from_feeds
                        ∧ u ∈ discover_from_sitemap root_url ∪ from_feeds)
       ∨ u = root_url).
Proof.
  intros bound enqueued st0 st.
  assert (Horigin : ∀ c seeds u,
            Get u ∈ trace (frontier (run c max_pages exc sched
                                       (crawl_init c max_pages concurrency seeds))) →
            u = root c ∨ u ∈ take bound (set_order IterSeeds seeds)
            ∨ linked_from_result
                (frontier (run c max_pages exc sched
                             (crawl_init c max_pages concurrency seeds))) u).
  { intros c seeds u Hu. rewrite crawl_init_start in *. fold bound in Hu |- *.
    pose proof (crawl_inv_run c max_pages exc
                  (root c :: take bound (set_order IterSeeds seeds))
                  (Z.to_nat concurrency) sched) as [_ [_ Hg _ _ _ _] _ _ Ho].
    destruct (Ho u) as [Hq|Hl]; [|set_solver|auto].
    right. apply Hg. apply list_elem_of_omap. by exists (Get u). }
  assert (Hfetched : ∀ c seeds u,
            u ∈ results (frontier (run c max_pages exc sched
                                     (crawl_init c max_pages concurrency seeds))) →
            Get u ∈ trace (frontier (run c max_pages exc sched
                                       (crawl_init c max_pages concurrency seeds)))).
  { intros c seeds u. rewrite crawl_init_start. apply results_were_fetched. }
  split; [reflexivity|]. split; [unfold enqueued; rewrite length_take; lia|].
  split_and!.
  - intros u Hu Hroot Hq. destruct (Horigin ctx seed_urls u Hu) as [?|[?|?]]; done.
  - apply Hfetched.
  - intros root_url inc crawled u Hr Hu.
    apply crawl_bfs_returned in Hr as (ctx0 & fd & Hctx & Hfd & ->).
    exists ctx0, fd. split; [done|]. split; [done|]. cbn zeta.
    split; [done|]. split; [by apply Hfetched|]. by apply Horigin, Hfetched.
  - intros root_url inc out u. apply crawl_site_returned.
Qed.

(** ** The claims about URLs *)

(** The site [a.com] with no page: the crawl context of the root
    [https://a.com]. *)
Module Scope.

Definition env : Env := site_env [] [].

Definition ctx : CrawlContext :=
  mkCtx "https://a.com/" "a.com" {[ "a.com"; "a.com"; "www.a.com" ]}.

End Scope.

(** [normalize_url] on a URL with a scheme, on a [mailto:] link, on a
    relative reference, and on a string that [urlparse] rejects (an open
    bracket without its closing one): the last two come back as they are. *)
Example normalize_url_examples :
  @normalize_url Scope.env "HTTP://A.com?x=1#frag" = "http://a.com/?x=1"
  ∧ @normalize_url Scope.env "mailto:Bob@A.com" = "mailto:Bob@A.com"
  ∧ @normalize_url Scope.env "/docs/page#top" = "/docs/page#top"
  ∧ @Url.urlparse (@env_ipaddress Scope.env) "HTTP://[::1" = None
  ∧ @normalize_url Scope.env "HTTP://[::1" = "HTTP://[::1".
Proof. split_and!; vm_compute; reflexivity. Qed.




(** C8. [normalize_url] is total (an exception of [urlparse] or [urlunparse]
    is caught).  A string without a scheme is returned unchanged.  For a
    string with a scheme the result is assembled from the lowercased scheme,
    the lowercased netloc (hence host), the path, or [/] when the path is
    empty, the parameters and the query, without the fragment: it is
    [urlunparse] of [normal_form], the scheme found by [urlparse] is already
    lowercase, the result ends with the query as it was, behind the only [?],
    contains no [#], and when there is a netloc it starts with
    [scheme://netloc/].  Two URLs that differ only in the query are sent to
    different strings. *)
Theorem normalize_url_spec `{Env} (u : string) :
  (has_scheme u = false → normalize_url u = u)
  ∧ (∀ parsed, Url.urlparse u = Some parsed → Url.scheme parsed ≠ "" →
       let out := normalize_url u in
       out = Url.urlunparse (normal_form parsed)
       ∧ Str.lower (Url.scheme parsed) = Url.scheme parsed
       ∧ out = base_of parsed +:+ query_part (Url.query parsed)
       ∧ Str.has "?" (base_of parsed) = false
       ∧ Str.has "#" out = false
       ∧ (Url.netloc parsed ≠ "" →
          Str.startswith
            (Url.scheme parsed +:+ "://" +:+ Str.lower (Url.netloc parsed) +:+ "/") out
          = true
          ∧ (Url.path parsed = "" → Url.params parsed = "" →
             out = Url.scheme parsed +:+ "://" +:+ Str.lower (Url.netloc parsed) +:+ "/"
                   +:+ query_part (Url.query parsed)))
       ∧ (∀ u' parsed',
            Url.urlparse u' = Some parsed' →
            Url.scheme parsed' = Url.scheme parsed →
            Url.netloc parsed' = Url.netloc parsed →
            Url.path parsed' = Url.path parsed →
            Url.params parsed' = Url.params parsed →
            Url.query parsed' ≠ Url.query parsed →
            normalize_url u' ≠ out)).
Proof.
  split; [apply normalize_url_no_scheme|].
  intros parsed Hp Hs out. subst out.
  pose proof (urlparse_spec _ _ Hp) as Hok.
  destruct (normalize_url_scheme _ _ Hp Hs) as (Hun & Hlow & Hout).
  pose proof (po_netloc _ Hok) as (Hn1 & Hn2 & Hn3).
  pose proof (po_path _ Hok) as [Hp1 Hp2].
  pose proof (po_params _ Hok) as [Hr1 Hr2].
  pose proof (po_query _ Hok) as Hq.
  split_and!; [done..| | | |].
  - apply has_false.
    apply lacks_base_of; auto using caseless_question; done.
  - apply has_false. rewrite Hout. apply lacks_app. split.
    + apply lacks_base_of; auto using caseless_hash; done.
    + by apply lacks_query_part.
  - intros Hnl. destruct (base_of_netloc parsed Hnl) as (rest & Hbase & Hrest).
    rewrite Hout, Hbase. split.
    + rewrite str_app_assoc. apply startswith_app.
    + intros Hpa Hpr. rewrite (Hrest Hpa Hpr), str_app_nil_r.
      by rewrite !str_app_assoc.
  - intros u' parsed' Hp' Hs' Hn' Hpa' Hpr' Hq' Heq.
    destruct (normalize_url_scheme _ _ Hp') as (_ & _ & Hout'); [congruence|].
    rewrite Hout, Hout', (base_of_ext parsed parsed') in Heq by done.
    by apply str_app_inv_head, query_part_inj in Heq.
Qed.

(** C9 fails as stated on the interpreter that the package declares: a URL
    with a scheme, no netloc and a path that starts with two slashes loses
    the empty netloc when it is put together again, and the second pass then
    reads the first path segment as the netloc. *)
Lemma normalize_url_not_idempotent :
  @normalize_url Scope.env "http:////b" = "http://b"
  ∧ @normalize_url Scope.env "http://b" = "http://b/"
  ∧ @normalize_url Scope.env (@normalize_url Scope.env "http:////b")
    ≠ @normalize_url Scope.env "http:////b".
Proof. split_and!; [vm_compute; reflexivity..|]. vm_compute. discriminate. Qed.

(** C9, amended.  [normalize_url (normalize_url u) = normalize_url u] for
    every string [u] except those that [urlparse] reads as a scheme, an empty
    netloc and a path that starts with two slashes. *)
Theorem normalize_url_idempotent `{Env} (u : string) :
  (∀ parsed, Url.urlparse u = Some parsed → Url.scheme parsed ≠ "" →
             Url.netloc parsed = "" → Str.startswith "//" (Url.path parsed) = false) →
  normalize_url (normalize_url u) = normalize_url u.
Proof.
  intros Hclass.
  destruct (Url.urlparse u) as [parsed|] eqn:Hp.
  - destruct (decide (Url.scheme parsed = "")) as [Hs|Hs].
    + assert (Hu : normalize_url u = u).
      { apply normalize_url_no_scheme. unfold has_scheme. rewrite Hp. by rewrite Hs. }
      by rewrite !Hu.
    + destruct (normalize_url_scheme _ _ Hp Hs) as (-> & _ & _).
      apply urlunparse_normal_fixed; [by apply (urlparse_spec u)|done|auto].
  - assert (Hu : normalize_url u = u).
    { apply normalize_url_no_scheme. unfold has_scheme. by rewrite Hp. }
    by rewrite !Hu.
Qed.

Lemma normalize_url_idempotent_witness :
  @normalize_url Scope.env (@normalize_url Scope.env "HTTP://A.com/x;p?y=1#z")
  = "http://a.com/x;p?y=1".
Proof.
  rewrite (@normalize_url_idempotent Scope.env "HTTP://A.com/x;p?y=1#z").
  - vm_compute. reflexivity.
  - intros parsed Hp _ Hn. vm_compute in Hp.
    injection Hp as <-. discriminate Hn.
Defined.

(** ** Further properties of the worker pool *)

Section pool_facts.
Context `{Env}.
Variables (ctx : CrawlContext) (max_pages : Z) (exclude_patterns : list string).

(** [u] answers the crawl with a page: a status below 400 and a
    [content-type] that mentions [text/html]. *)
Definition html_page (u : string) : Prop :=
  ∃ resp, client_get u = Some resp ∧ (status_code resp < 400)%Z
          ∧ Str.contains "text/html" (default "" (content_type resp)) = true.

Lemma enqueue_children_results links f f' :
  enqueue_children ctx links f = Some f' → results f' = results f.
Proof.
  intros (added & Hx)%enqueue_children_expanded. by eapply expanded_results.
Qed.

Lemma fetch_Some u resp :
  fetch u = Some resp ↔ client_get u = Some resp ∧ (status_code resp < 400)%Z.
Proof.
  unfold fetch. destruct (client_get u) as [r|]; [|naive_solver].
  case_bool_decide; split; naive_solver lia.
Qed.

(** What one stretch of a worker adds to [results]. *)
Lemma worker_step_results w f w' f' u :
  worker_step ctx max_pages exclude_patterns w f = (w', f') →
  u ∈ results f' → u ∈ results f ∨ (w = Fetching u ∧ html_page u).
Proof.
  destruct w as [| |current| |]; simpl; intros Hs Hu.
  - case_bool_decide; simplify_eq; auto.
  - destruct (to_visit f) as [|v q]; simplify_eq; [auto|].
    unfold claim in Hs. simpl in Hs.
    repeat (case_bool_decide || case_match); simplify_eq; auto.
  - unfold fetched in Hs.
    destruct (fetch current) as [resp|] eqn:Hf; simplify_eq; [|auto].
    destruct (Str.contains _ _) eqn:Hc; simpl in Hs; simplify_eq; [|auto].
    apply fetch_Some in Hf as [Hg Hst].
    assert (Hpage : html_page current) by (by exists resp).
    assert (Hin : u ∈ {[ current ]} ∪ results f → u ∈ results f
                                  ∨ Fetching current = Fetching u ∧ html_page u).
    { intros [->%elem_of_singleton|?]%elem_of_union; auto. }
    case_bool_decide; simplify_eq; [auto|].
    destruct (inpage_discover _ _) as [links|]; simplify_eq; [|auto].
    destruct (enqueue_children _ _ _) as [f2|] eqn:He; simplify_eq; [|auto].
    apply enqueue_children_results in He. rewrite He in Hu. auto.
  - simplify_eq. auto.
  - simplify_eq. auto.
Qed.

(** Induction over the states of a run, on the step function itself. *)
Lemma run_ind (P : State → Prop) st0 :
  P st0 → (∀ st i, P st → P (step ctx max_pages exclude_patterns i st)) →
  ∀ sched, P (run ctx max_pages exclude_patterns sched st0).
Proof.
  intros H0 Hstep sched. induction sched as [|i sched IH] using rev_ind; [done|].
  rewrite run_snoc. by apply Hstep.
Qed.

Lemma results_html st0 sched :
  (∀ u, u ∈ results (frontier st0) → html_page u) →
  ∀ u, u ∈ results (frontier (run ctx max_pages exclude_patterns sched st0)) →
       html_page u.
Proof.
  intros H0. apply run_ind; [done|]. clear sched.
  intros st i IH u. unfold step.
  destruct (existsb failed (workers st)); [auto|].
  destruct (workers st !! i) as [w|]; [|auto].
  destruct (worker_step _ _ _ w (frontier st)) as [w' f'] eqn:Hw. simpl.
  intros [?|[_ ?]]%(worker_step_results _ _ _ _ _ Hw); auto.
Qed.

(** Every request was for a URL that passed both filters. *)
Lemma requests_pass_filters q0 n sched u :
  Get u ∈ trace (frontier (run ctx max_pages exclude_patterns sched (start q0 n))) →
  passes_filters ctx exclude_patterns u.
Proof.
  revert u.
  apply (run_invariant ctx max_pages exclude_patterns
           (λ st, ∀ u, Get u ∈ trace (frontier st) →
                       passes_filters ctx exclude_patterns u)).
  - simpl. intros u Hu. by apply elem_of_nil in Hu.
  - intros st st' IH Hstep. destruct Hstep as [st|st i w w' f' Hi Hw]; [done|].
    inversion Hw; subst; simpl in *; auto.
    + intros v [?|?]%elem_of_cons; [done|auto].
    + intros v [[= ->]|[?|?]%elem_of_cons]%elem_of_cons; [by split|done|auto].
    + intros v [?|?]%elem_of_cons; [done|auto].
    + match goal with Hx : expanded _ _ _ _ _ |- _ =>
        destruct Hx as (_ & _ & _ & -> & _) end. simpl.
      intros v [Hv|[?|?]%elem_of_cons]%elem_of_app; [|done|auto].
      apply list_elem_of_fmap in Hv as (? & ? & _). done.
Qed.

End pool_facts.

(** ** Degenerate budgets, final outcomes and the size of the result *)

Section pool_bounds.
Context `{Env}.
Variables (ctx : CrawlContext) (max_pages : Z) (exclude_patterns : list string).

(** Without a budget no worker gets past its loop test. *)
Lemma run_no_budget q0 n sched :
  (max_pages ≤ 0)%Z →
  frontier (run ctx max_pages exclude_patterns sched (start q0 n))
  = frontier (start q0 n).
Proof.
  intros Hmp.
  cut (frontier (run ctx max_pages exclude_patterns sched (start q0 n))
       = frontier (start q0 n)
       ∧ Forall (λ w, w = Top ∨ w = Exited)
                (workers (run ctx max_pages exclude_patterns sched (start q0 n)))).
  { by intros [? _]. }
  apply (run_ind ctx max_pages exclude_patterns
           (λ st, frontier st = frontier (start q0 n)
                  ∧ Forall (λ w, w = Top ∨ w = Exited) (workers st))).
  - split; [done|]. simpl. apply Forall_replicate. by left.
  - intros st i [Hf Hw]. unfold step.
    destruct (existsb failed (workers st)); [done|].
    destruct (workers st !! i) as [w|] eqn:Hi; [|done].
    assert (Hcase : w = Top ∨ w = Exited).
    { rewrite Forall_lookup in Hw. eauto. }
    destruct Hcase as [-> | ->]; cbn [worker_step].
    + rewrite Hf. cbn [start frontier results]. rewrite size_empty.
      rewrite bool_decide_eq_false_2 by lia. cbn [frontier workers].
      split; [done|]. apply Forall_insert; auto.
    + cbn [frontier workers]. split; [done|]. apply Forall_insert; auto.
Qed.

(** Without workers nothing happens. *)
Lemma run_no_workers q0 sched :
  run ctx max_pages exclude_patterns sched (start q0 0) = start q0 0.
Proof.
  apply (run_ind ctx max_pages exclude_patterns (λ st, st = start q0 0)); [done|].
  by intros st i ->.
Qed.


End pool_bounds.

Section site_bounds.
Context `{Env}.

Lemma merge_seed_size max_pages seed (all_urls : gset string) :
  size (merge_seed max_pages seed all_urls) ≤ size all_urls `max` Z.to_nat max_pages.
Proof.
  revert all_urls. induction seed as [|u seed IH]; intros all_urls; simpl; [lia|].
  case_bool_decide; [lia|].
  etrans; [apply IH|]. pose proof (size_add_le u all_urls). lia.
Qed.

(** The merge adds the seeds in their order and stops at the first seed that
    finds [max_pages] URLs in the set: it adds the first [k] seeds, where
    [k] is the least number of seeds with which the set reaches [max_pages],
    or all of them when it never does. *)
Lemma merge_seed_prefix max_pages seed (all_urls : gset string) :
  ∃ k, k ≤ length seed
       ∧ merge_seed max_pages seed all_urls = all_urls ∪ list_to_set (take k seed)
       ∧ (k < length seed →
          (max_pages ≤ Z.of_nat (size (all_urls ∪ list_to_set (take k seed))))%Z)
       ∧ (∀ j, j < k →
               (Z.of_nat (size (all_urls ∪ list_to_set (take j seed))) < max_pages)%Z).
Proof.
  revert all_urls. induction seed as [|u seed IH]; intros all_urls; simpl.
  - exists 0. split_and!; [done|set_solver|simpl; lia|lia].
  - case_bool_decide as Hcap.
    + exists 0. split_and!; [lia|set_solver| |lia].
      intros _. by rewrite take_0, list_to_set_nil, (right_id_L ∅ (∪)).
    + destruct (IH ({[ u ]} ∪ all_urls)) as (k & Hle & -> & Hk & Hbelow).
      assert (Hshift : ∀ j, all_urls ∪ list_to_set (take (S j) (u :: seed))
                            = ({[ u ]} ∪ all_urls) ∪ list_to_set (take j seed)).
      { intros j. simpl. set_solver. }
      exists (S k). split_and!.
      * simpl. lia.
      * by rewrite Hshift.
      * intros Hlt. rewrite Hshift. apply Hk. simpl in Hlt. lia.
      * intros [|j] Hj.
        -- rewrite take_0, list_to_set_nil, (right_id_L ∅ (∪)). lia.
        -- rewrite Hshift. apply Hbelow. lia.
Qed.

Lemma merge_seed_full max_pages seed (all_urls : gset string) :
  (max_pages ≤ Z.of_nat (size all_urls))%Z →
  merge_seed max_pages seed all_urls = all_urls.
Proof. intros Hcap. destruct seed; simpl; [done|]. by rewrite bool_decide_eq_true_2. Qed.

Lemma sorted_Sorted (X : gset string) : StronglySorted String.le (sorted X).
Proof. apply StronglySorted_merge_sort; apply _. Qed.

Lemma sorted_NoDup (X : gset string) : NoDup (sorted X).
Proof. unfold sorted. rewrite merge_sort_Permutation. apply NoDup_elements. Qed.

Lemma sorted_length (X : gset string) : length (sorted X) = size X.
Proof. unfold sorted. by rewrite merge_sort_Permutation. Qed.

End site_bounds.

(** ** Further properties of the crawl *)

(** X1. Every URL in [results], at every moment of a crawl, answered the
    crawl's request with a status below 400 and a [content-type] header
    that contains [text/html]. *)
Theorem results_are_html_pages `{Env} (ctx : CrawlContext) (max_pages concurrency : Z)
    (exc : list string) (seed_urls : gset string) (sched : list nat) (u : string) :
  u ∈ results (frontier (run ctx max_pages exc sched
                           (crawl_init ctx max_pages concurrency seed_urls))) →
  html_page u.
Proof.
  apply results_html. simpl. intros v Hv. by apply elem_of_empty in Hv.
Qed.

Lemma results_are_html_pages_witness :
  @html_page Overshoot.env "https://a.com/b".
Proof.
  apply (@results_are_html_pages Overshoot.env
           (mkCtx "https://a.com/" "a.com" {[ "a.com"; "www.a.com" ]}) 2 2 [] ∅
           Overshoot.sched).
  apply (bool_decide_unpack _). vm_compute. exact I.
Defined.

(** X2. A worker calls [fetch] on a URL only after both filters: every
    [Get u] of a crawl is for a URL that [same_site] accepts and that no
    exclusion pattern matches.  The statement is about the URL that is passed
    to [fetch]; the redirects that the HTTP client follows from it are not
    filtered. *)
Theorem requests_stay_in_scope `{Env} (ctx : CrawlContext) (max_pages concurrency : Z)
    (exc : list string) (seed_urls : gset string) (sched : list nat) (u : string) :
  Get u ∈ trace (frontier (run ctx max_pages exc sched
                             (crawl_init ctx max_pages concurrency seed_urls))) →
  same_site u ctx = Some true ∧ excluded exc u = Some false.
Proof. rewrite crawl_init_start. apply requests_pass_filters. Qed.

Lemma requests_stay_in_scope_witness :
  @same_site Privacy.env "https://a.com/"
     (mkCtx "https://a.com/" "a.com" {[ "a.com"; "www.a.com" ]}) = Some true
  ∧ @excluded Privacy.env ["/privacy"] "https://a.com/" = Some false.
Proof.
  apply (@requests_stay_in_scope Privacy.env
           (mkCtx "https://a.com/" "a.com" {[ "a.com"; "www.a.com" ]}) 5 1 ["/privacy"]
           {[ "https://a.com/privacy" ]} Privacy.sched).
  apply (bool_decide_unpack _). vm_compute. exact I.
Defined.

Lemma crawl_bfs_size `{Env} (root_url : string) (max_pages concurrency : Z)
    (inc exc : list string) (sched : list nat) (crawled : gset string) :
  crawl_bfs root_url max_pages concurrency inc exc sched = Returned crawled →
  (0 ≤ concurrency)%Z
  ∧ (1 ≤ max_pages → Z.of_nat (size crawled) ≤ max_pages + concurrency - 1)%Z
  ∧ (1 ≤ max_pages → concurrency = 1%Z → Z.of_nat (size crawled) ≤ max_pages)%Z
  ∧ ((max_pages ≤ 0)%Z ∨ concurrency = 0%Z → crawled = ∅).
Proof.
  intros Hr.
  assert (Hc : (0 ≤ concurrency)%Z).
  { unfold crawl_bfs in Hr. repeat case_match; try done. by case_bool_decide; [|lia]. }
  apply crawl_bfs_returned in Hr as (ctx & fd & _ & _ & ->).
  rewrite crawl_init_start.
  match goal with |- context [start ?q ?n] => set (q0 := q); set (k := n) end.
  pose proof (results_bound ctx max_pages exc q0 k sched) as Hb. subst k.
  split_and!; [done|lia|lia|].
  intros [Hmp | ->].
  - by rewrite run_no_budget.
  - by rewrite run_no_workers.
Qed.


(** X3. What [crawl_bfs] returns has at most [max_pages + concurrency - 1]
    elements when [max_pages] is positive, so a single worker keeps to the
    budget; it is empty when [max_pages] is not positive or when there is no
    worker. *)
Theorem crawl_bfs_size_bound `{Env} (root_url : string) (max_pages concurrency : Z)
    (inc exc : list string) (sched : list nat) (crawled : gset string) :
  crawl_bfs root_url max_pages concurrency inc exc sched = Returned crawled →
  (0 ≤ concurrency)%Z
  ∧ (1 ≤ max_pages → Z.of_nat (size crawled) ≤ max_pages + concurrency - 1)%Z
  ∧ (1 ≤ max_pages → concurrency = 1%Z → Z.of_nat (size crawled) ≤ max_pages)%Z
  ∧ ((max_pages ≤ 0)%Z ∨ concurrency = 0%Z → crawled = ∅).
Proof. apply crawl_bfs_size. Qed.

Lemma crawl_bfs_size_bound_witness :
  (Z.of_nat (size ({[ "https://a.com/"; "https://a.com/b"; "https://a.com/c" ]}
                   : gset string)) ≤ 2 + 2 - 1)%Z.
Proof.
  refine (proj1 (proj2 (@crawl_bfs_size_bound Overshoot.env "https://a.com" 2 2 [] []
                          Overshoot.sched _ _)) _); [|lia].
  vm_compute. reflexivity.
Defined.

Lemma crawl_site_shape `{Env} (root_url : string) (max_pages concurrency : Z)
    (inc exc : list string) (sched : list nat) (out : list string) :
  crawl_site root_url max_pages concurrency inc exc sched = Returned out →
  StronglySorted String.le out ∧ NoDup out ∧ out ≠ []
  ∧ (Z.of_nat (length out) ≤ Z.max 1 (max_pages + Z.max 0 (concurrency - 1)))%Z
  ∧ ((max_pages ≤ 0)%Z → out = [root_url]).
Proof.
  unfold crawl_site. destruct (build_ctx root_url) as [ctx|]; [|done].
  destruct (discover_from_feeds root_url) as [fd|]; [|done].
  destruct (crawl_bfs _ _ _ _ _ _) as [crawled| |] eqn:Hbfs; [|done|done].
  intros [= <-].
  destruct (crawl_bfs_size _ _ _ _ _ _ _ Hbfs) as (Hc & Hsize & _ & Hempty).
  set (seed := set_order IterMerge _).
  pose proof (merge_seed_size max_pages seed (∅ ∪ crawled)) as Hm.
  rewrite (left_id_L ∅ (∪)) in Hm |- *.
  split_and!; [apply sorted_Sorted|apply sorted_NoDup| | |].
  - intros Hnil. apply (f_equal length) in Hnil. rewrite sorted_length in Hnil.
    simpl in Hnil. apply size_empty_inv in Hnil.
    case_bool_decide as Hm0; [|apply Hm0; by apply leibniz_equiv].
    set_solver.
  - rewrite sorted_length. case_bool_decide as Hm0.
    + rewrite Hm0, (right_id_L ∅ (∪)), size_singleton. lia.
    + destruct (decide (1 ≤ max_pages)%Z) as [Hpos|]; [specialize (Hsize Hpos); lia|].
      rewrite Hempty in Hm |- * by lia. rewrite size_empty in Hm. lia.
  - intros Hmp. rewrite Hempty by auto.
    rewrite merge_seed_full by (rewrite size_empty; lia).
    rewrite bool_decide_eq_true_2 by done.
    by rewrite (right_id_L ∅ (∪)), sorted_singleton.
Qed.


(** X4. The list that [crawl_site] returns is sorted, has no duplicates and
    is never empty.  It has at most [max(1, max_pages + max(0, concurrency - 1))]
    elements, and it is [[root_url]] when [max_pages] is not positive. *)
Theorem crawl_site_output `{Env} (root_url : string) (max_pages concurrency : Z)
    (inc exc : list string) (sched : list nat) (out : list string) :
  crawl_site root_url max_pages concurrency inc exc sched = Returned out →
  StronglySorted String.le out ∧ NoDup out ∧ out ≠ []
  ∧ (Z.of_nat (length out) ≤ Z.max 1 (max_pages + Z.max 0 (concurrency - 1)))%Z
  ∧ ((max_pages ≤ 0)%Z → out = [root_url]).
Proof. apply crawl_site_shape. Qed.

Lemma crawl_site_output_witness :
  StronglySorted String.le ["https://a.com/"; "https://a.com/b"; "https://a.com/c"]
  ∧ (Z.of_nat (length ["https://a.com/"; "https://a.com/b"; "https://a.com/c"])
     ≤ Z.max 1 (2 + Z.max 0 (2 - 1)))%Z.
Proof.
  destruct (@crawl_site_output Overshoot.env "https://a.com" 2 2 [] [] Overshoot.sched
              ["https://a.com/"; "https://a.com/b"; "https://a.com/c"])
    as (Hs & _ & _ & Hl & _); [vm_compute; reflexivity|].
  split; [exact Hs|exact Hl].
Defined.

(** X6. The final merge of [crawl_site] adds to the crawled URLs the first
    [k] seeds, in the order of iteration, where [k] is the number of seeds
    at which the set first holds [max_pages] URLs, or the number of all the
    seeds when it never does: before each of the seeds that are added the
    set is below [max_pages], and the merge stops at the first seed that
    finds it full; nothing is added when the crawl alone reached
    [max_pages].  The root URL is added only to an empty set. *)
Theorem seed_merge_is_a_prefix `{Env} (root_url : string) (max_pages concurrency : Z)
    (inc exc : list string) (sched : list nat) (out : list string) :
  crawl_site root_url max_pages concurrency inc exc sched = Returned out →
  ∃ crawled from_feeds k,
    crawl_bfs root_url max_pages concurrency inc exc sched = Returned crawled
    ∧ discover_from_feeds root_url = Some from_feeds
    ∧ let seed := set_order IterMerge (discover_from_sitemap root_url ∪ from_feeds) in
      let merged (j : nat) : gset string := crawled ∪ list_to_set (take j seed) in
      k ≤ length seed
      ∧ out = sorted (if bool_decide (merged k = ∅) then {[ root_url ]} else merged k)
      ∧ (k < length seed → (max_pages ≤ Z.of_nat (size (merged k)))%Z)
      ∧ (∀ j, j < k → (Z.of_nat (size (merged j)) < max_pages)%Z)
      ∧ ((max_pages ≤ Z.of_nat (size crawled))%Z → k = 0).
Proof.
  unfold crawl_site. destruct (build_ctx root_url) as [ctx|]; [|done].
  destruct (discover_from_feeds root_url) as [fd|]; [|done].
  destruct (crawl_bfs _ _ _ _ _ _) as [crawled| |] eqn:Hbfs; [|done|done].
  intros [= <-]. rewrite (left_id_L ∅ (∪)).
  set (seed := set_order IterMerge _).
  destruct (merge_seed_prefix max_pages seed crawled) as (k & Hle & Hk & Hstop & Hbelow).
  exists crawled, fd, k. split; [done|]. split; [done|]. cbn zeta. fold seed.
  rewrite <- Hk. split; [done|]. split; [|split; [|split]].
  - case_bool_decide as He; [|done]. by rewrite He, (right_id_L ∅ (∪)).
  - by rewrite Hk.
  - done.
  - intros Hfull. destruct k as [|k]; [done|].
    specialize (Hbelow 0 ltac:(lia)).
    rewrite take_0, list_to_set_nil, (right_id_L ∅ (∪)) in Hbelow. lia.
Qed.

Lemma seed_merge_is_a_prefix_witness :
  ∃ (crawled from_feeds : gset string) (k : nat),
    @crawl_bfs Privacy.env "https://a.com" 5 1 [] ["/privacy"] Privacy.sched
    = Returned crawled
    ∧ @discover_from_feeds Privacy.env "https://a.com" = Some from_feeds
    ∧ let seed := @set_order Privacy.env IterMerge
                    (@discover_from_sitemap Privacy.env "https://a.com" ∪ from_feeds) in
      let merged (j : nat) : gset string := crawled ∪ list_to_set (take j seed) in
      k ≤ length seed
      ∧ ["https://a.com/"; "https://a.com/privacy"]
        = sorted (if bool_decide (merged k = ∅) then {[ "https://a.com" ]} else merged k)
      ∧ (k < length seed → (5 ≤ Z.of_nat (size (merged k)))%Z)
      ∧ (∀ j, j < k → (Z.of_nat (size (merged j)) < 5)%Z)
      ∧ ((5 ≤ Z.of_nat (size crawled))%Z → k = 0).
Proof.
  apply (@seed_merge_is_a_prefix Privacy.env "https://a.com" 5 1 [] ["/privacy"]
           Privacy.sched).
  vm_compute. reflexivity.
Defined.

(** ** Facts about the discoverers *)

Section discover_facts.
Context `{Env}.

Lemma add_locs_elem (locs : list string) (discovered : gset string) (u : string) :
  u ∈ foldl (λ (discovered : gset string) loc,
               if Str.nonempty loc then discovered ∪ {[ normalize_url loc ]}
               else discovered) discovered locs
  ↔ u ∈ discovered ∨ ∃ loc, loc ∈ locs ∧ loc ≠ "" ∧ u = normalize_url loc.
Proof.
  revert discovered. induction locs as [|l locs IH]; intros discovered; simpl.
  - split; [auto|]. intros [?|(loc & Hin & _)]; [done|]. by apply elem_of_nil in Hin.
  - rewrite IH. destruct (Str.nonempty l) eqn:Hl.
    + apply nonempty_true in Hl. rewrite elem_of_union, elem_of_singleton. split.
      * intros [[?| ->]|(loc & ? & ? & ?)]; [auto|right; exists l|right; exists loc];
          rewrite elem_of_cons; auto.
      * intros [?|(loc & [->|?]%elem_of_cons & ? & ?)]; [auto|auto|right; by exists loc].
    + assert (l = "") as -> by (by destruct l). split.
      * intros [?|(loc & ? & ? & ?)]; [auto|right; exists loc]. rewrite elem_of_cons. auto.
      * intros [?|(loc & [->|?]%elem_of_cons & ? & ?)]; [auto|done|right; by exists loc].
Qed.

(** A sitemap that answers 200 and parses contributes its non-empty [loc]s. *)
Definition listed_in (sm_url u : string) : Prop :=
  ∃ resp locs loc,
    httpx_get sm_url = Some resp ∧ status_code resp = 200%Z
    ∧ soup_locs (text resp) = Some locs
    ∧ loc ∈ locs ∧ loc ≠ "" ∧ u = normalize_url loc.

Lemma add_sitemaps_elem (sm_urls : list string) (discovered : gset string) (u : string) :
  u ∈ foldl (λ (discovered : gset string) sm_url,
               match httpx_get sm_url with
               | None => discovered
               | Some resp =>
                   if bool_decide (status_code resp ≠ 200%Z) then discovered
                   else
                     match soup_locs (text resp) with
                     | None => discovered
                     | Some locs =>
                         foldl (λ (discovered : gset string) loc,
                                  if Str.nonempty loc
                                  then discovered ∪ {[ normalize_url loc ]}
                                  else discovered)
                               discovered locs
                     end
               end) discovered sm_urls
  ↔ u ∈ discovered ∨ ∃ sm_url, sm_url ∈ sm_urls ∧ listed_in sm_url u.
Proof.
  revert discovered. induction sm_urls as [|sm sms IH]; intros discovered.
  - simpl. split; [auto|]. intros [?|(? & Hin & _)]; [done|]. by apply elem_of_nil in Hin.
  - cbn [foldl]. rewrite IH. clear IH.
    assert (Hsplit : ∀ P : Prop,
              (P ∨ ∃ sm_url, sm_url ∈ sms ∧ listed_in sm_url u)
              → (P ↔ u ∈ discovered ∨ listed_in sm u)
              → u ∈ discovered ∨ ∃ sm_url, sm_url ∈ sm :: sms ∧ listed_in sm_url u).
    { intros P [HP|(s & ? & ?)] Hiff.
      - apply Hiff in HP as [?|?]; [auto|]. right. exists sm. rewrite elem_of_cons. auto.
      - right. exists s. rewrite elem_of_cons. auto. }
    assert (Hjoin : ∀ P : Prop,
              (P ↔ u ∈ discovered ∨ listed_in sm u)
              → (u ∈ discovered ∨ ∃ sm_url, sm_url ∈ sm :: sms ∧ listed_in sm_url u)
              → P ∨ ∃ sm_url, sm_url ∈ sms ∧ listed_in sm_url u).
    { intros P Hiff [?|(s & [->|?]%elem_of_cons & ?)].
      - left. apply Hiff. auto.
      - left. apply Hiff. auto.
      - right. by exists s. }
    assert (Hhere : (u ∈ match httpx_get sm with
                         | None => discovered
                         | Some resp =>
                             if bool_decide (status_code resp ≠ 200%Z) then discovered
                             else
                               match soup_locs (text resp) with
                               | None => discovered
                               | Some locs =>
                                   foldl (λ (discovered : gset string) loc,
                                            if Str.nonempty loc
                                            then discovered ∪ {[ normalize_url loc ]}
                                            else discovered)
                                         discovered locs
                               end
                         end) ↔ u ∈ discovered ∨ listed_in sm u).
    { unfold listed_in. destruct (httpx_get sm) as [resp|].
      - case_bool_decide as Hst.
        + split; [auto|]. intros [?|(r & ? & ? & [= <-] & ? & _)]; done.
        + assert (Hok : status_code resp = 200%Z)
            by (by destruct (decide (status_code resp = 200%Z))).
          destruct (soup_locs (text resp)) as [locs|] eqn:Hlocs.
          * rewrite add_locs_elem. split.
            -- intros [?|(loc & ? & ? & ?)]; [auto|]. right. by exists resp, locs, loc.
            -- intros [?|(r & ls & loc & [= <-] & _ & Hls & ? & ? & ?)]; [auto|].
               right. exists loc. split_and!; [|done..]. congruence.
          * split; [auto|].
            intros [?|(r & ls & loc & [= <-] & _ & ? & _)]; [done|congruence].
      - split; [auto|]. intros [?|(r & ? & ? & ? & _)]; done. }
    split; [intros Hu; eapply Hsplit; eauto|intros Hu; eapply Hjoin; eauto].
Qed.

Definition skipped (href : string) : bool :=
  Str.startswith "mailto:" href || Str.startswith "tel:" href.

Lemma add_hrefs_None (base_url : string) (hrefs : list string) :
  foldl (λ (found : option (gset string)) href,
           found ← found;
           if Str.startswith "mailto:" href || Str.startswith "tel:" href
           then Some found
           else joined ← urljoin base_url href;
                Some (found ∪ {[ normalize_url joined ]}))
        None hrefs = None.
Proof. induction hrefs as [|h hrefs IH]; [done|]. exact IH. Qed.

Lemma add_hrefs_spec (base_url : string) (hrefs : list string) (found0 : gset string) :
  match foldl (λ (found : option (gset string)) href,
                 found ← found;
                 if Str.startswith "mailto:" href || Str.startswith "tel:" href
                 then Some found
                 else joined ← urljoin base_url href;
                      Some (found ∪ {[ normalize_url joined ]}))
              (Some found0) hrefs with
  | Some found =>
      Forall (λ href, skipped href = false → is_Some (urljoin base_url href)) hrefs
      ∧ ∀ u, u ∈ found ↔ u ∈ found0
                          ∨ ∃ href joined, href ∈ hrefs ∧ skipped href = false
                                           ∧ urljoin base_url href = Some joined
                                           ∧ u = normalize_url joined
  | None => ∃ href, href ∈ hrefs ∧ skipped href = false ∧ urljoin base_url href = None
  end.
Proof.
  revert found0. induction hrefs as [|h hrefs IH]; intros found0.
  - simpl. split; [constructor|]. intros u. split; [auto|].
    intros [?|(? & ? & Hin & _)]; [done|]. by apply elem_of_nil in Hin.
  - cbn [foldl mbind option_bind]. fold (skipped h).
    destruct (skipped h) eqn:Hskip.
    + specialize (IH found0). destruct (foldl _ _ hrefs) as [found|].
      * destruct IH as [Hall Hiff]. split; [constructor; [congruence|done]|].
        intros u. rewrite Hiff. split.
        -- intros [?|(href & j & ? & ?)]; [auto|right; exists href, j].
           rewrite elem_of_cons. auto.
        -- intros [?|(href & j & [->|?]%elem_of_cons & ? & ?)]; [auto|congruence|].
           right. by exists href, j.
      * destruct IH as (href & ? & ?). exists href. rewrite elem_of_cons. auto.
    + destruct (urljoin base_url h) as [j|] eqn:Hj; cbn [mbind option_bind].
      * specialize (IH (found0 ∪ {[ normalize_url j ]})).
        destruct (foldl _ _ hrefs) as [found|].
        -- destruct IH as [Hall Hiff]. split; [constructor; [eauto|done]|].
           intros u. rewrite Hiff, elem_of_union, elem_of_singleton. split.
           ++ intros [[?| ->]|(href & j' & ? & ?)]; [auto| |].
              ** right. exists h, j. rewrite elem_of_cons. auto.
              ** right. exists href, j'. rewrite elem_of_cons. auto.
           ++ intros [?|(href & j' & [->|?]%elem_of_cons & ? & Hj' & ->)]; [auto| |].
              ** left. right. congruence.
              ** right. by exists href, j'.
        -- destruct IH as (href & ? & ?). exists href. rewrite elem_of_cons. auto.
      * rewrite add_hrefs_None. exists h. rewrite elem_of_cons. auto.
Qed.

End discover_facts.

Section feed_facts.
Context `{Env}.

(** The link of [entry] can be joined with the URL of its feed. *)
Definition joinable (feed_url : string) (entry : FeedEntry) : Prop :=
  ∀ link, entry_target entry = Some link → link ≠ "" → is_Some (urljoin feed_url link).

(** [u] comes from an entry of the list [es] that the loop reaches: all the
    entries before it could be joined. *)
Definition from_entry (feed_url : string) (es : list FeedEntry) (u : string) : Prop :=
  ∃ pre entry post link joined,
    es = pre ++ entry :: post ∧ Forall (joinable feed_url) pre
    ∧ entry_target entry = Some link ∧ link ≠ ""
    ∧ urljoin feed_url link = Some joined ∧ u = normalize_url joined.

Lemma from_entry_nil feed_url u : ¬ from_entry feed_url [] u.
Proof. intros (pre & ? & ? & ? & ? & Hes & _). by destruct pre. Qed.

Lemma from_entry_skip feed_url e es u :
  joinable feed_url e →
  (∀ link joined, entry_target e = Some link → link ≠ "" →
                  urljoin feed_url link = Some joined → u ≠ normalize_url joined) →
  from_entry feed_url (e :: es) u ↔ from_entry feed_url es u.
Proof.
  intros Hj Hne. split.
  - intros (pre & entry & post & link & joined & Hes & Hpre & Ht & Hl & Hu & ->).
    destruct pre as [|e' pre]; simplify_eq/=.
    + by destruct (Hne _ _ Ht Hl Hu).
    + apply Forall_cons in Hpre as [_ Hpre]. by exists pre, entry, post, link, joined.
  - intros (pre & entry & post & link & joined & -> & Hpre & Ht & Hl & Hu & ->).
    exists (e :: pre), entry, post, link, joined. split_and!; try done. by constructor.
Qed.

Lemma add_entries_elem (feed_url : string) (es : list FeedEntry) (urls : gset string)
    (u : string) :
  u ∈ add_entries feed_url es urls ↔ u ∈ urls ∨ from_entry feed_url es u.
Proof.
  revert urls. induction es as [|e es IH]; intros urls; simpl.
  - pose proof (from_entry_nil feed_url u). naive_solver.
  - destruct (entry_target e) as [link|] eqn:Ht.
    + destruct (Str.nonempty link) eqn:Hl.
      * apply nonempty_true in Hl.
        destruct (urljoin feed_url link) as [joined|] eqn:Hu.
        -- rewrite IH, elem_of_union, elem_of_singleton.
           assert (Hj : joinable feed_url e).
           { intros l' Hl' _. simplify_eq. by eexists. }
           split.
           ++ intros [[?| ->]|(pre & entry & post & l' & j' & -> & Hpre & ?)]; [auto| |].
              ** right. by exists [], e, es, link, joined.
              ** right. exists (e :: pre), entry, post, l', j'.
                 split_and!; try done; try tauto. by constructor.
           ++ intros [?|(pre & entry & post & l' & j' & Hes & Hpre & Ht' & ? & Hu' & ->)];
                [auto|].
              destruct pre as [|e' pre]; simplify_eq/=; [auto|].
              apply Forall_cons in Hpre as [_ Hpre].
              right. by exists pre, entry, post, l', j'.
        -- split; [auto|].
           intros [?|(pre & entry & post & l' & j' & Hes & Hpre & Ht' & Hl' & Hu' & ->)];
             [done|].
           destruct pre as [|e' pre]; simplify_eq/=.
           apply Forall_cons in Hpre as [Hj _].
           destruct (Hj link Ht Hl) as [? ?]. congruence.
      * assert (link = "") as -> by (by destruct link).
        rewrite IH, from_entry_skip; [done| |].
        -- intros l' Hl' ?. simplify_eq.
        -- intros l' ? Hl' ?. simplify_eq.
    + rewrite IH, from_entry_skip; [done| |].
      * intros l' Hl' ?. simplify_eq.
      * intros l' ? Hl' ?. simplify_eq.
Qed.

(** What a feed contributes. *)
Definition from_feed (feed_url u : string) : Prop :=
  ∃ parsed, feedparser_parse feed_url = Some parsed ∧ bozo parsed = false
            ∧ from_entry feed_url (entries parsed) u.

Lemma add_feeds_elem (feed_urls : list string) (urls : gset string) (u : string) :
  u ∈ foldl (λ (urls : gset string) feed_url,
               match feedparser_parse feed_url with
               | None => urls
               | Some parsed =>
                   if bozo parsed then urls
                   else add_entries feed_url (entries parsed) urls
               end) urls feed_urls
  ↔ u ∈ urls ∨ ∃ feed_url, feed_url ∈ feed_urls ∧ from_feed feed_url u.
Proof.
  revert urls. induction feed_urls as [|fu fus IH]; intros urls.
  - simpl. split; [auto|]. intros [?|(? & Hin & _)]; [done|]. by apply elem_of_nil in Hin.
  - cbn [foldl]. rewrite IH. clear IH.
    assert (Hhere : u ∈ match feedparser_parse fu with
                        | None => urls
                        | Some parsed =>
                            if bozo parsed then urls
                            else add_entries fu (entries parsed) urls
                        end ↔ u ∈ urls ∨ from_feed fu u).
    { unfold from_feed. destruct (feedparser_parse fu) as [parsed|].
      - destruct (bozo parsed) eqn:Hb.
        + split; [auto|]. intros [?|(p & [= <-] & ? & _)]; [done|congruence].
        + rewrite add_entries_elem. split.
          * intros [?|?]; [auto|]. right. by exists parsed.
          * intros [?|(p & [= <-] & _ & ?)]; auto.
      - split; [auto|]. intros [?|(p & ? & _)]; done. }
    rewrite Hhere. split.
    + intros [[?|?]|(f & ? & ?)]; [auto| |].
      * right. exists fu. rewrite elem_of_cons. auto.
      * right. exists f. rewrite elem_of_cons. auto.
    + intros [?|(f & [->|?]%elem_of_cons & ?)]; [auto|auto|].
      right. by exists f.
Qed.

Lemma rstrip_slash (s : string) : Str.rstrip "/" (s +:+ "/") = Str.rstrip "/" s.
Proof.
  induction s as [|a s IH]; [done|].
  rewrite str_app_cons. simpl. by rewrite IH.
Qed.

Lemma rstrip_idem (c : ascii) (s : string) : Str.rstrip c (Str.rstrip c s) = Str.rstrip c s.
Proof.
  induction s as [|a s IH]; [done|]. simpl.
  destruct (Str.rstrip c s) as [|b r] eqn:Hr.
  - destruct (decide (a = c)) as [->|Hne]; [done|]. simpl.
    by rewrite decide_False.
  - simpl. simpl in IH. by rewrite IH.
Qed.

End feed_facts.

(** ** Scope and normalization *)

Section scope_normalize.
Context `{Env}.

(** [same_site] reads a URL through the lowercased netloc only. *)
Lemma same_site_netloc (u v : string) (ctx : CrawlContext) (pu pv : Url.ParseResult) :
  Url.urlparse u = Some pu → Url.urlparse v = Some pv →
  Str.lower (Url.netloc pu) = Str.lower (Url.netloc pv) →
  same_site u ctx = same_site v ctx.
Proof.
  intros Hu Hv Hn. unfold same_site. rewrite Hu, Hv. cbn [mbind option_bind].
  by rewrite Hn.
Qed.

(** Normalization keeps the netloc, up to case, unless the URL has a scheme,
    no netloc and a path that starts with two slashes. *)
Lemma normalize_url_netloc (u : string) (parsed parsed' : Url.ParseResult) :
  Url.urlparse u = Some parsed →
  (Url.scheme parsed ≠ "" → Url.netloc parsed = "" →
   Str.startswith "//" (Url.path parsed) = false) →
  Url.urlparse (normalize_url u) = Some parsed' →
  Url.netloc parsed' = Str.lower (Url.netloc parsed)
  ∨ Url.scheme parsed = "" ∧ parsed' = parsed.
Proof.
  intros Hp Hclass Hp'.
  destruct (decide (Url.scheme parsed = "")) as [Hs|Hs].
  - right. split; [done|].
    rewrite normalize_url_no_scheme in Hp' by (unfold has_scheme; by rewrite Hp, Hs).
    congruence.
  - left. pose proof (urlparse_spec _ _ Hp) as Hok.
    destruct (normalize_url_scheme _ _ Hp Hs) as (Hn & _ & _). rewrite Hn in Hp'.
    destruct (normal_form_ok parsed Hok Hs) as (Hok' & Hs' & Hsch & Hpa').
    destruct (reparse (normal_form parsed) Hok' Hs' Hpa' eq_refl)
      as [Hr|(pa' & Hr & _)].
    + unfold normal_form. proj_simpl. intros Hnl. apply (proj1 (lower_empty _)) in Hnl.
      specialize (Hclass Hs Hnl). by destruct (Url.path parsed).
    + congruence.
    + rewrite Hr in Hp'. injection Hp' as <-. done.
Qed.

Lemma same_site_normalize_url (u : string) (ctx : CrawlContext)
    (parsed parsed' : Url.ParseResult) :
  Url.urlparse u = Some parsed →
  (Url.scheme parsed ≠ "" → Url.netloc parsed = "" →
   Str.startswith "//" (Url.path parsed) = false) →
  Url.urlparse (normalize_url u) = Some parsed' →
  same_site (normalize_url u) ctx = same_site u ctx.
Proof.
  intros Hp Hclass Hp'. apply (same_site_netloc _ _ _ _ _ Hp' Hp).
  destruct (normalize_url_netloc _ _ _ Hp Hclass Hp') as [-> | [_ ->]]; [|done].
  apply lower_idem.
Qed.

Lemma build_ctx_Some (root_url : string) (ctx : CrawlContext) :
  build_ctx root_url = Some ctx ↔
  ∃ parsed, Url.urlparse root_url = Some parsed
            ∧ ctx = mkCtx (normalize_url root_url) (extract_domain root_url)
                          {[ Str.lower (Url.netloc parsed); extract_domain root_url;
                             "www." +:+ extract_domain root_url ]}.
Proof.
  unfold build_ctx. destruct (Url.urlparse root_url) as [parsed|]; cbn [mbind option_bind].
  - split; [intros [= <-]; by exists parsed|]. by intros (p & [= <-] & ->).
  - split; [done|]. by intros (? & ? & _).
Qed.

(** The short-circuit of [any] over the exclusion patterns. *)
Lemma excluded_cases (patterns : list string) (current : string) :
  match excluded patterns current with
  | Some true =>
      ∃ pre p post, patterns = pre ++ p :: post
                    ∧ Forall (λ q, re_search q current = Some false) pre
                    ∧ re_search p current = Some true
  | Some false => Forall (λ q, re_search q current = Some false) patterns
  | None =>
      ∃ pre p post, patterns = pre ++ p :: post
                    ∧ Forall (λ q, re_search q current = Some false) pre
                    ∧ re_search p current = None
  end.
Proof.
  induction patterns as [|p ps IH]; simpl; [constructor|].
  destruct (re_search p current) as [[]|] eqn:Hp; cbn [mbind option_bind].
  - by exists [], p, ps.
  - destruct (excluded ps current) as [[]|].
    + destruct IH as (pre & q & post & -> & Hpre & Hq).
      exists (p :: pre), q, post. split_and!; [done| |done]. by constructor.
    + by constructor.
    + destruct IH as (pre & q & post & -> & Hpre & Hq).
      exists (p :: pre), q, post. split_and!; [done| |done]. by constructor.
  - by exists [], p, ps.
Qed.

End scope_normalize.

(** A site with one page, a feed and a sitemap.  The page has a [mailto:]
    and a [tel:] link beside an absolute and a relative one; the feed has an
    entry with a link, one with only an id, one with neither, one whose link
    cannot be joined, and one after it. *)
Module Blog.

Definition env : Env := {|
  env_ipaddress := {| Url._check_bracketed_host := λ _, false |};
  tldextract := λ _, ("a", "com");
  urljoin := λ base url,
    if Str.startswith "http://[" url then None
    else Some (if Str.startswith "https://" url then url else base +:+ url);
  re_search := λ p s, Some (Str.contains p s);
  httpx_get := λ u,
    if bool_decide (u = "https://a.com/sitemap.xml")
    then Some (mkResponse 200 (Some "application/xml") "sitemap")
    else Some (mkResponse 404 None "");
  client_get := λ u,
    if bool_decide (u = "https://a.com/")
    then Some (mkResponse 200 (Some "text/html") "home") else None;
  soup_locs := λ _, Some ["https://A.com/Docs#top"; ""];
  soup_hrefs := λ _,
    Some ["https://a.com/p1"; "mailto:me@a.com"; "tel:+1"; "about"];
  feedparser_parse := λ u,
    if bool_decide (u = "https://a.com/feed")
    then Some (mkFeed false
                 [mkEntry (Some "https://a.com/e1") (Some "ignored");
                  mkEntry None (Some "https://a.com/e2");
                  mkEntry (Some "") None;
                  mkEntry (Some "http://[bad") None;
                  mkEntry (Some "https://a.com/e5") None])
    else Some (mkFeed true [mkEntry (Some "https://a.com/bozo") None]);
  set_order := λ _ X, merge_sort String.le (elements X);
  set_order_perm := λ _ X, merge_sort_Permutation String.le (elements X)
|}.

End Blog.

(** ** Further properties of the discoverers *)

(** X7. [discover_from_sitemap] never raises; it returns exactly the
    normalized non-empty [loc] texts of those of the four candidate sitemaps
    that answer with status 200 and parse, and nothing when [urljoin] fails
    on a candidate. *)
Theorem discover_from_sitemap_spec `{Env} (base_url u : string) :
  u ∈ discover_from_sitemap base_url
  ↔ ∃ sm_urls sm_url, guess_sitemaps base_url = Some sm_urls
                       ∧ sm_url ∈ sm_urls ∧ listed_in sm_url u.
Proof.
  unfold discover_from_sitemap. destruct (guess_sitemaps base_url) as [sm_urls|].
  - rewrite add_sitemaps_elem. split.
    + intros [Hu|(sm & ? & ?)]; [by apply elem_of_empty in Hu|]. by exists sm_urls, sm.
    + intros (? & sm & [= <-] & ? & ?). right. by exists sm.
  - split; [intros Hu; by apply elem_of_empty in Hu|]. by intros (? & ? & ? & _).
Qed.

(** X8. [discover_from_feeds] raises exactly when [guess_feeds] does.
    Otherwise it returns the normalized joined targets of the entries of the
    candidate feeds that parse without [bozo]; the target of an entry is its
    [link], or its [id] when the link is missing or empty; an entry without a
    target is passed over, and an entry whose target cannot be joined ends
    its feed: the entries before it count, those after it do not. *)
Theorem discover_from_feeds_spec `{Env} (base_url : string) :
  match guess_feeds base_url with
  | None => discover_from_feeds base_url = None
  | Some feed_urls =>
      ∃ urls, discover_from_feeds base_url = Some urls
              ∧ ∀ u, u ∈ urls ↔ ∃ feed_url, feed_url ∈ feed_urls ∧ from_feed feed_url u
  end.
Proof.
  unfold discover_from_feeds. destruct (guess_feeds base_url) as [feed_urls|]; [|done].
  cbn [mbind option_bind]. eexists. split; [done|]. intros u.
  rewrite add_feeds_elem. split; [|auto].
  intros [Hu|?]; [by apply elem_of_empty in Hu|done].
Qed.

Example discover_blog :
  @discover_from_sitemap Blog.env "https://a.com" = {[ "https://a.com/Docs" ]}
  ∧ @discover_from_feeds Blog.env "https://a.com"
    = Some {[ "https://a.com/e1"; "https://a.com/e2" ]}
  ∧ @inpage_discover Blog.env "home" "https://a.com/"
    = Some {[ "https://a.com/p1"; "https://a.com/about" ]}.
Proof. split_and!; vm_compute; reflexivity. Qed.

(** X9. [inpage_discover] passes over the links that start with [mailto:] or
    [tel:] and returns the normalized joins of all the others; it raises
    exactly when the parser does or one of the other links cannot be
    joined. *)
Theorem inpage_discover_spec `{Env} (html base_url : string) (hrefs : list string) :
  soup_hrefs html = Some hrefs →
  match inpage_discover html base_url with
  | Some found =>
      Forall (λ href, skipped href = false → is_Some (urljoin base_url href)) hrefs
      ∧ ∀ u, u ∈ found ↔ ∃ href joined, href ∈ hrefs ∧ skipped href = false
                                         ∧ urljoin base_url href = Some joined
                                         ∧ u = normalize_url joined
  | None => ∃ href, href ∈ hrefs ∧ skipped href = false ∧ urljoin base_url href = None
  end.
Proof.
  intros Hh. unfold inpage_discover. rewrite Hh. cbn [mbind option_bind].
  pose proof (add_hrefs_spec base_url hrefs ∅) as Hspec.
  destruct (foldl _ _ hrefs) as [found|]; [|done].
  destruct Hspec as [Hall Hiff]. split; [done|]. intros u. rewrite Hiff.
  split; [|auto]. intros [Hu|?]; [by apply elem_of_empty in Hu|done].
Qed.

Lemma inpage_discover_spec_witness :
  "https://a.com/about" ∈ ({[ "https://a.com/p1"; "https://a.com/about" ]} : gset string)
  ↔ ∃ href joined,
      href ∈ ["https://a.com/p1"; "mailto:me@a.com"; "tel:+1"; "about"]
      ∧ skipped href = false
      ∧ @urljoin Blog.env "https://a.com/" href = Some joined
      ∧ "https://a.com/about" = @normalize_url Blog.env joined.
Proof.
  pose proof (@inpage_discover_spec Blog.env "home" "https://a.com/"
                ["https://a.com/p1"; "mailto:me@a.com"; "tel:+1"; "about"] eq_refl)
    as Hspec.
  assert (Hv : @inpage_discover Blog.env "home" "https://a.com/"
               = Some {[ "https://a.com/p1"; "https://a.com/about" ]})
    by (vm_compute; reflexivity).
  rewrite Hv in Hspec. destruct Hspec as [_ Hiff]. apply Hiff.
Defined.

(** X10. Trailing slashes of the base URL do not matter to the discovery:
    [guess_sitemaps], [guess_feeds], [discover_from_sitemap] and
    [discover_from_feeds] give the same for [base_url + "/"] as for
    [base_url], and the same for [base_url] without its trailing slashes.
    When they do not raise, there are four sitemap candidates and seven feed
    candidates. *)
Theorem trailing_slash_is_irrelevant `{Env} (base_url : string) :
  (guess_sitemaps (base_url +:+ "/") = guess_sitemaps base_url
   ∧ guess_feeds (base_url +:+ "/") = guess_feeds base_url
   ∧ discover_from_sitemap (base_url +:+ "/") = discover_from_sitemap base_url
   ∧ discover_from_feeds (base_url +:+ "/") = discover_from_feeds base_url)
  ∧ (guess_sitemaps (Str.rstrip "/" base_url) = guess_sitemaps base_url
     ∧ guess_feeds (Str.rstrip "/" base_url) = guess_feeds base_url
     ∧ discover_from_sitemap (Str.rstrip "/" base_url) = discover_from_sitemap base_url
     ∧ discover_from_feeds (Str.rstrip "/" base_url) = discover_from_feeds base_url)
  ∧ (∀ l, guess_sitemaps base_url = Some l → length l = 4)
  ∧ (∀ l, guess_feeds base_url = Some l → length l = 7).
Proof.
  assert (Hs1 : guess_sitemaps (base_url +:+ "/") = guess_sitemaps base_url)
    by (unfold guess_sitemaps; by rewrite rstrip_slash).
  assert (Hf1 : guess_feeds (base_url +:+ "/") = guess_feeds base_url)
    by (unfold guess_feeds; by rewrite rstrip_slash).
  assert (Hs2 : guess_sitemaps (Str.rstrip "/" base_url) = guess_sitemaps base_url)
    by (unfold guess_sitemaps; by rewrite rstrip_idem).
  assert (Hf2 : guess_feeds (Str.rstrip "/" base_url) = guess_feeds base_url)
    by (unfold guess_feeds; by rewrite rstrip_idem).
  split_and!; try done.
  - unfold discover_from_sitemap. by rewrite Hs1.
  - unfold discover_from_feeds. by rewrite Hf1.
  - unfold discover_from_sitemap. by rewrite Hs2.
  - unfold discover_from_feeds. by rewrite Hf2.
  - unfold guess_sitemaps. intros l Hl. apply length_mapM in Hl. by rewrite <- Hl.
  - unfold guess_feeds. intros l Hl. apply length_mapM in Hl. by rewrite <- Hl.
Qed.

(** X11. In the context that [build_ctx] makes for a root URL, the root URL
    is in scope, and so is every URL whose lowercased netloc is the
    registered domain of the root or [www.] followed by it.  The normalized
    root, which is where the crawl starts, is in scope as well, provided it
    parses and the root is not a scheme followed by an empty netloc and a
    path that starts with two slashes. *)
Theorem root_is_in_scope `{Env} (root_url : string) (ctx : CrawlContext) :
  build_ctx root_url = Some ctx →
  same_site root_url ctx = Some true
  ∧ (∀ u parsed, Url.urlparse u = Some parsed →
       Str.lower (Url.netloc parsed) = extract_domain root_url
       ∨ Str.lower (Url.netloc parsed) = "www." +:+ extract_domain root_url →
       same_site u ctx = Some true)
  ∧ (∀ parsed, Url.urlparse root_url = Some parsed →
       (Url.scheme parsed ≠ "" → Url.netloc parsed = "" →
        Str.startswith "//" (Url.path parsed) = false) →
       is_Some (Url.urlparse (root ctx)) →
       same_site (root ctx) ctx = Some true).
Proof.
  intros (parsed & Hp & ->)%build_ctx_Some.
  assert (Hroot : same_site root_url
                    (mkCtx (normalize_url root_url) (extract_domain root_url)
                       {[ Str.lower (Url.netloc parsed); extract_domain root_url;
                          "www." +:+ extract_domain root_url ]}) = Some true).
  { apply (same_site_true _ _ _ Hp). left. cbn [allowed_hosts]. set_solver. }
  split_and!; [done| |].
  - intros u pu Hu Hhost. apply (same_site_true _ _ _ Hu). left. cbn [allowed_hosts].
    destruct Hhost as [-> | ->]; set_solver.
  - intros p Hp' Hclass [p' Hn]. cbn [root] in Hn |- *. simplify_eq.
    by rewrite (same_site_normalize_url _ _ _ _ Hp Hclass Hn).
Qed.

Lemma root_is_in_scope_witness :
  @same_site Scope.env "https://a.com" Scope.ctx = Some true
  ∧ @same_site Scope.env "https://a.com/" Scope.ctx = Some true.
Proof.
  assert (Hctx : @build_ctx Scope.env "https://a.com" = Some Scope.ctx)
    by (vm_compute; reflexivity).
  destruct (@root_is_in_scope Scope.env "https://a.com" Scope.ctx Hctx)
    as (Hroot & _ & Hnorm).
  split; [exact Hroot|].
  apply (Hnorm (Url.mkParse "https" "a.com" "" "" "" "")).
  - vm_compute. reflexivity.
  - intros _ Hn. vm_compute in Hn. discriminate Hn.
  - eexists. vm_compute. reflexivity.
Defined.

(** X12. Normalizing a URL does not change whether it is in scope: when the
    URL and its normal form both parse, [same_site] gives the same for both,
    except for a URL that is a scheme followed by an empty netloc and a path
    that starts with two slashes. *)
Theorem same_site_after_normalize `{Env} (u : string) (ctx : CrawlContext)
    (parsed : Url.ParseResult) :
  Url.urlparse u = Some parsed →
  (Url.scheme parsed ≠ "" → Url.netloc parsed = "" →
   Str.startswith "//" (Url.path parsed) = false) →
  is_Some (Url.urlparse (normalize_url u)) →
  same_site (normalize_url u) ctx = same_site u ctx.
Proof. intros Hp Hclass [p' Hn]. by eapply same_site_normalize_url. Qed.

Lemma same_site_after_normalize_witness :
  @same_site Scope.env (@normalize_url Scope.env "HTTPS://Sub.A.com/x#y") Scope.ctx
  = @same_site Scope.env "HTTPS://Sub.A.com/x#y" Scope.ctx.
Proof.
  apply (@same_site_after_normalize Scope.env "HTTPS://Sub.A.com/x#y" Scope.ctx
           (Url.mkParse "https" "Sub.A.com" "/x" "" "" "y")).
  - vm_compute. reflexivity.
  - intros _ Hn. vm_compute in Hn. discriminate Hn.
  - eexists. vm_compute. reflexivity.
Defined.

(** X13. The exclusion test stops at the first pattern that matches: a URL
    is excluded when some pattern matches it and all the patterns before that
    one compile and do not match; it passes when every pattern compiles and
    none matches; the test raises when a pattern does not compile and none
    before it matches, so a pattern that does not compile goes unnoticed
    behind one that matches. *)
Theorem excluded_short_circuit `{Env} (patterns : list string) (current : string) :
  (excluded patterns current = Some true
   ↔ ∃ pre p post, patterns = pre ++ p :: post
                   ∧ Forall (λ q, re_search q current = Some false) pre
                   ∧ re_search p current = Some true)
  ∧ (excluded patterns current = Some false
     ↔ Forall (λ q, re_search q current = Some false) patterns)
  ∧ (excluded patterns current = None
     ↔ ∃ pre p post, patterns = pre ++ p :: post
                     ∧ Forall (λ q, re_search q current = Some false) pre
                     ∧ re_search p current = None).
Proof.
  assert (Hfirst : ∀ pre p post pre' p' post' (r r' : option bool),
            pre ++ p :: post = pre' ++ p' :: post' →
            Forall (λ q, re_search q current = Some false) pre →
            Forall (λ q, re_search q current = Some false) pre' →
            re_search p current = r → re_search p' current = r' →
            r ≠ Some false → r' ≠ Some false → r = r').
  { intros pre. induction pre as [|a pre IH]; intros p post pre' p' post' r r'
      Heq Hpre Hpre' Hr Hr' Hne Hne'.
    - destruct pre' as [|a' pre']; simplify_eq/=; [done|].
      apply Forall_cons in Hpre' as [Ha _]. congruence.
    - destruct pre' as [|a' pre']; simplify_eq/=.
      + apply Forall_cons in Hpre as [Ha _]. congruence.
      + apply Forall_cons in Hpre as [_ Hpre]. apply Forall_cons in Hpre' as [_ Hpre'].
        by eapply (IH p post pre' p' post'). }
  assert (Hnone : ∀ pre p post (r : option bool),
            Forall (λ q, re_search q current = Some false) (pre ++ p :: post) →
            re_search p current = r → r = Some false).
  { intros pre p post r Hall Hr. apply Forall_app in Hall as [_ Hall].
    apply Forall_cons in Hall as [Hp _]. congruence. }
  pose proof (excluded_cases patterns current) as Hc.
  destruct (excluded patterns current) as [[]|].
  - destruct Hc as (pre & p & post & -> & Hpre & Hp). split_and!.
    + split; [intros _; by exists pre, p, post|done].
    + split; [done|]. intros Hall. pose proof (Hnone _ _ _ _ Hall Hp). done.
    + split; [done|]. intros (pre' & p' & post' & Heq & Hpre' & Hp').
      by pose proof (Hfirst _ _ _ _ _ _ _ _ Heq Hpre Hpre' Hp Hp'
                       ltac:(done) ltac:(done)).
  - split_and!.
    + split; [done|]. intros (pre & p & post & -> & _ & Hp).
      pose proof (Hnone _ _ _ _ Hc Hp). done.
    + done.
    + split; [done|]. intros (pre & p & post & -> & _ & Hp).
      pose proof (Hnone _ _ _ _ Hc Hp). done.
  - destruct Hc as (pre & p & post & -> & Hpre & Hp). split_and!.
    + split; [done|]. intros (pre' & p' & post' & Heq & Hpre' & Hp').
      by pose proof (Hfirst _ _ _ _ _ _ _ _ Heq Hpre Hpre' Hp Hp'
                       ltac:(done) ltac:(done)).
    + split; [done|]. intros Hall. pose proof (Hnone _ _ _ _ Hall Hp). done.
    + split; [intros _; by exists pre, p, post|done].
Qed.

(** ** Completeness of the traversal *)

Section exhaustive.
Context `{Env}.
Variables (ctx : CrawlContext) (max_pages : Z) (exclude_patterns : list string).

(** [results] has reached the budget. *)
Definition capped (f : Frontier) : Prop :=
  (max_pages ≤ Z.of_nat (size (results f)))%Z.

(** A stretch of a worker, with what it decides on: the filters, the answer
    of the site, and the links that it leaves out. *)
Inductive xstep : Worker → Frontier → Worker → Frontier → Prop :=
  | xs_enter f :
      ¬ capped f → xstep Top f Waiting f
  | xs_cap f :
      capped f → xstep Top f Exited f
  | xs_timeout f :
      to_visit f = [] → xstep Waiting f Exited f
  | xs_dup f f' u :
      to_visit f = u :: to_visit f' → u ∈ seen f →
      seen f' = seen f → results f' = results f →
      xstep Waiting f Top f'
  | xs_reject f f' u w' :
      to_visit f = u :: to_visit f' →
      seen f' = {[ u ]} ∪ seen f → results f' = results f →
      ¬ passes_filters ctx exclude_patterns u → w' = Top ∨ w' = Failed →
      xstep Waiting f w' f'
  | xs_get f f' u :
      to_visit f = u :: to_visit f' →
      seen f' = {[ u ]} ∪ seen f → results f' = results f →
      xstep Waiting f (Fetching u) f'
  | xs_discard f u :
      ¬ html_page u → xstep (Fetching u) f Top f
  | xs_accept_last f f' u w' :
      to_visit f' = to_visit f → seen f' = seen f → results f' = {[ u ]} ∪ results f →
      w' = Exited ∧ capped f' ∨ w' = Failed →
      xstep (Fetching u) f w' f'
  | xs_accept_expand f f' u resp links :
      fetch u = Some resp → inpage_discover (text resp) u = Some links →
      (∀ x, x ∈ to_visit f → x ∈ to_visit f') →
      seen f' = seen f → results f' = {[ u ]} ∪ results f →
      (∀ l, l ∈ links → same_site l ctx = Some true → l ∈ seen f ∨ l ∈ to_visit f') →
      xstep (Fetching u) f Top f'
  | xs_idle w f :
      finished w = true → xstep w f w f.

(** Every link in scope is on the queue afterwards, unless it was seen. *)
Lemma enqueue_children_complete links f f' :
  enqueue_children ctx links f = Some f' →
  (∀ x, x ∈ to_visit f → x ∈ to_visit f')
  ∧ seen f' = seen f ∧ results f' = results f
  ∧ ∀ l, l ∈ links → same_site l ctx = Some true → l ∈ seen f ∨ l ∈ to_visit f'.
Proof.
  revert f. induction links as [|a links IH]; intros f Hq; simpl in Hq.
  - injection Hq as <-. split_and!; try done. intros l Hl. by apply elem_of_nil in Hl.
  - destruct (same_site a ctx) as [inside|] eqn:Hs; simpl in Hq; [|done].
    destruct (inside && bool_decide (a ∉ seen f)) eqn:Hb.
    + apply andb_true_iff in Hb as [-> Ha%bool_decide_eq_true].
      apply IH in Hq as (Hv & Hsn & Hr & Hall). simpl in *.
      split_and!; try done.
      * intros x Hx. apply Hv. rewrite elem_of_app. auto.
      * intros l [->|Hl]%elem_of_cons Hin; [|by apply Hall].
        right. apply Hv. rewrite elem_of_app, list_elem_of_singleton. auto.
    + apply IH in Hq as (Hv & Hsn & Hr & Hall).
      split_and!; try done.
      intros l [->|Hl]%elem_of_cons Hin; [|by apply Hall].
      left. rewrite Hs in Hin. injection Hin as ->. simpl in Hb.
      apply bool_decide_eq_false in Hb. by apply dec_stable.
Qed.

Lemma not_html_page u :
  (∀ resp, fetch u = Some resp
           → Str.contains "text/html" (default "" (content_type resp)) = false) →
  ¬ html_page u.
Proof.
  intros Hf (resp & Hg & Hst & Hc). rewrite (Hf resp) in Hc; [done|].
  by apply fetch_Some.
Qed.

Lemma worker_step_xstep w f w' f' :
  worker_step ctx max_pages exclude_patterns w f = (w', f') → xstep w f w' f'.
Proof.
  destruct w as [| |current| |]; simpl; intros Hs.
  - case_bool_decide; simplify_eq; constructor; unfold capped; lia.
  - destruct (to_visit f) as [|u q] eqn:Hq; simplify_eq; [by constructor|].
    unfold claim in Hs; simpl in Hs.
    case_bool_decide; simplify_eq; [by eapply xs_dup|].
    destruct (same_site u ctx) as [[]|] eqn:Hsite; simplify_eq;
      try (eapply (xs_reject _ _ u); simpl; eauto; intros [? ?]; congruence).
    destruct (excluded exclude_patterns u) as [[]|] eqn:Hex; simplify_eq;
      try (eapply (xs_reject _ _ u); simpl; eauto; intros [? ?]; congruence).
    by eapply xs_get.
  - unfold fetched in Hs.
    destruct (fetch current) as [resp|] eqn:Hf; simplify_eq.
    + destruct (Str.contains _ _) eqn:Hc; simpl in Hs; simplify_eq.
      * case_bool_decide as Hcap; simplify_eq;
          [eapply xs_accept_last; simpl; eauto|].
        destruct (inpage_discover _ _) as [links|] eqn:Hl; simplify_eq;
          [|eapply xs_accept_last; simpl; eauto].
        destruct (enqueue_children _ _ _) as [f2|] eqn:He; simplify_eq;
          [|eapply xs_accept_last; simpl; eauto].
        apply enqueue_children_complete in He as (Hv & Hsn & Hr & Hall). simpl in *.
        eapply xs_accept_expand; eauto.
        intros l Hl' Hin. apply Hall; [|done].
        by rewrite set_order_perm, elem_of_elements.
      * apply xs_discard, not_html_page. intros r Hr. congruence.
    + apply xs_discard, not_html_page. intros r Hr. congruence.
  - simplify_eq. by constructor.
  - simplify_eq. by constructor.
Qed.

Lemma xstep_results w f w' f' : xstep w f w' f' → results f ⊆ results f'.
Proof. destruct 1; set_solver. Qed.

Lemma xstep_capped w f w' f' : xstep w f w' f' → capped f → capped f'.
Proof.
  intros Hx%xstep_results. unfold capped. apply subseteq_size in Hx. lia.
Qed.

Lemma xstep_tracked w f w' f' l :
  xstep w f w' f' →
  l ∈ seen f ∨ l ∈ to_visit f → l ∈ seen f' ∨ l ∈ to_visit f'.
Proof.
  destruct 1; try done.
  - intros [?|Hl]; [set_solver|]. rewrite H0 in Hl. set_solver.
  - intros [?|Hl]; [set_solver|]. rewrite H0 in Hl. set_solver.
  - intros [?|Hl]; [set_solver|]. rewrite H0 in Hl. set_solver.
  - rewrite H0, H1. done.
  - rewrite H3. naive_solver.
Qed.

End exhaustive.

Section exhaustive_inv.
Context `{Env}.
Variables (ctx : CrawlContext) (max_pages : Z) (exclude_patterns : list string).

Definition broken (st : State) : Prop := Failed ∈ workers st.

(** [l] is on the queue or was taken from it. *)
Definition tracked (st : State) (l : string) : Prop :=
  l ∈ seen (frontier st) ∨ l ∈ to_visit (frontier st).

(** The links of the accepted page [v] are tracked, as far as they are in
    scope. *)
Definition links_tracked (st : State) (v : string) : Prop :=
  ∃ resp links, fetch v = Some resp ∧ inpage_discover (text resp) v = Some links
                ∧ ∀ l, l ∈ links → same_site l ctx = Some true → tracked st l.

Record exhaust_inv (q0 : list string) (st : State) : Prop := mkExhaust {
  ei_queue : ∀ u, u ∈ q0 → tracked st u;
  ei_links : ∀ v, v ∈ results (frontier st) →
                  capped max_pages (frontier st) ∨ broken st ∨ links_tracked st v;
  ei_seen : ∀ u, u ∈ seen (frontier st) →
                 passes_filters ctx exclude_patterns u → html_page u →
                 u ∈ results (frontier st) ∨ Fetching u ∈ workers st ∨ broken st;
  ei_idle : (∃ w, w ∈ workers st ∧ finished w = false)
            ∨ to_visit (frontier st) = [] ∨ capped max_pages (frontier st)
            ∨ broken st ∨ workers st = [] }.

Lemma insert_elem_new (l : list Worker) i w w' :
  l !! i = Some w → w' ∈ <[i:=w']> l.
Proof.
  intros Hi. apply list_elem_of_lookup. exists i.
  apply list_lookup_insert_eq. by eapply lookup_lt_Some.
Qed.

Lemma insert_elem_keep (l : list Worker) i w w' x :
  l !! i = Some w → x ∈ l → x ≠ w → x ∈ <[i:=w']> l.
Proof.
  intros Hi [j Hj]%list_elem_of_lookup Hne. apply list_elem_of_lookup. exists j.
  rewrite list_lookup_insert_ne; [done|]. intros ->. congruence.
Qed.

Lemma not_broken (l : list Worker) : existsb failed l = false → Failed ∉ l.
Proof.
  intros Hex Hin. apply list_elem_of_In in Hin.
  assert (existsb failed l = true); [|congruence].
  apply existsb_exists. by exists Failed.
Qed.

Lemma exhaust_inv_start q0 n : exhaust_inv q0 (start q0 n).
Proof.
  split; simpl.
  - intros u Hu. by right.
  - intros v Hv. by apply elem_of_empty in Hv.
  - intros u Hu. by apply elem_of_empty in Hu.
  - destruct n as [|n]; [by repeat right|].
    left. exists Top. split; [|done]. simpl. apply elem_of_cons. auto.
Qed.

Lemma exhaust_inv_step q0 st i :
  exhaust_inv q0 st → exhaust_inv q0 (step ctx max_pages exclude_patterns i st).
Proof.
  intros [Hq Hl Hs Hi]. unfold step.
  destruct (existsb failed (workers st)) eqn:Hfail; [by split|].
  apply not_broken in Hfail.
  destruct (workers st !! i) as [w|] eqn:Hw; [|by split].
  destruct (worker_step _ _ _ w (frontier st)) as [w' f'] eqn:Hstep.
  apply worker_step_xstep in Hstep.
  pose proof (insert_elem_new _ _ _ w' Hw) as Hnew.
  pose proof (λ x, insert_elem_keep _ _ _ w' x Hw) as Hkeep.
  pose proof (λ l, xstep_tracked _ _ _ _ _ _ _ l Hstep) as Htr.
  pose proof (xstep_capped _ _ _ _ _ _ _ Hstep) as Hcap.
  pose proof (xstep_results _ _ _ _ _ _ _ Hstep) as Hres.
  assert (Hold : ∀ v, v ∈ results (frontier st) →
            capped max_pages f' ∨ broken (mkState f' (<[i:=w']> (workers st)))
            ∨ links_tracked (mkState f' (<[i:=w']> (workers st))) v).
  { intros v Hv. destruct (Hl v Hv) as [?|[?|(resp & links & ? & ? & Hall)]];
      [auto|done|].
    right. right. exists resp, links. split_and!; [done..|].
    intros l Hin Hsite. apply Htr. by apply Hall. }
  assert (Hother : ∀ u, Fetching u ≠ w →
            u ∈ seen (frontier st) →
            passes_filters ctx exclude_patterns u → html_page u →
            u ∈ results f' ∨ Fetching u ∈ <[i:=w']> (workers st)
            ∨ broken (mkState f' (<[i:=w']> (workers st)))).
  { intros u Hne Hu Hp Hh. destruct (Hs u Hu Hp Hh) as [?|[?|?]]; [|auto|done].
    left. by apply Hres. }
  remember (frontier st) as f eqn:Hf.
  split; cbn [frontier workers].
  - intros u Hu. apply Htr. rewrite Hf. by apply Hq.
  - destruct Hstep as [f Hncap | f Hc | f Hempty | f f' u Hv Hu Hsn Hr
                      | f f' u w' Hv Hsn Hr Hnp Hw' | f f' u Hv Hsn Hr | f u Hnh
                      | f f' u w' Hv Hsn Hr Hw'
                      | f f' u resp links Hfe Hd Hv Hsn Hr Hall | w f Hfin];
      try exact Hold.
    + intros v Hv'. apply Hold. by rewrite <- Hr.
    + intros v Hv'. apply Hold. by rewrite <- Hr.
    + intros v Hv'. apply Hold. by rewrite <- Hr.
    + intros v Hv'. rewrite Hr in Hv'.
      apply elem_of_union in Hv' as [->%elem_of_singleton|Hv']; [|by apply Hold].
      destruct Hw' as [[-> ?]| ->]; [by left|]. right. left. exact Hnew.
    + intros v Hv'. rewrite Hr in Hv'.
      apply elem_of_union in Hv' as [->%elem_of_singleton|Hv']; [|by apply Hold].
      right. right. exists resp, links. split_and!; [done..|].
      intros l Hin Hsite. unfold tracked. cbn [frontier]. rewrite Hsn. by apply Hall.
  - destruct Hstep as [f Hncap | f Hc | f Hempty | f f' u Hv Hu Hsn Hr
                      | f f' u w' Hv Hsn Hr Hnp Hw' | f f' u Hv Hsn Hr | f u Hnh
                      | f f' u w' Hv Hsn Hr Hw'
                      | f f' u resp links Hfe Hd Hv Hsn Hr Hall | w f Hfin].
    + intros u. by apply Hother.
    + intros u. by apply Hother.
    + intros u. by apply Hother.
    + intros v. rewrite Hsn. by apply Hother.
    + intros v. rewrite Hsn.
      intros [->%elem_of_singleton|?]%elem_of_union; [done|by apply Hother].
    + intros v. rewrite Hsn.
      intros [->%elem_of_singleton|?]%elem_of_union; [auto|by apply Hother].
    + intros v Hv Hp Hh. destruct (decide (v = u)) as [->|Hne]; [done|].
      apply Hother; [congruence|done..].
    + intros v Hv' Hp Hh. rewrite Hsn in Hv'.
      destruct (decide (v = u)) as [->|Hne].
      * left. rewrite Hr. apply elem_of_union. left. by apply elem_of_singleton.
      * apply Hother; [congruence|done..].
    + intros v Hv' Hp Hh. rewrite Hsn in Hv'.
      destruct (decide (v = u)) as [->|Hne].
      * left. rewrite Hr. apply elem_of_union. left. by apply elem_of_singleton.
      * apply Hother; [congruence|done..].
    + intros u Hu Hp Hh. rewrite list_insert_id by done.
      destruct (Hs u Hu Hp Hh) as [?|[?|?]]; auto.
  - destruct Hstep as [f Hncap | f Hc | f Hempty | f f' u Hv Hu Hsn Hr
                      | f f' u w' Hv Hsn Hr Hnp Hw' | f f' u Hv Hsn Hr | f u Hnh
                      | f f' u w' Hv Hsn Hr Hw'
                      | f f' u resp links Hfe Hd Hv Hsn Hr Hall | w f Hfin].
    + left. eexists. split; [exact Hnew|done].
    + right. right. by left.
    + right. by left.
    + left. eexists. split; [exact Hnew|done].
    + destruct Hw' as [-> | ->]; [left; eexists; split; [exact Hnew|done]|].
      right. right. right. left. exact Hnew.
    + left. eexists. split; [exact Hnew|done].
    + left. eexists. split; [exact Hnew|done].
    + destruct Hw' as [[-> ?]| ->]; [right; right; by left|].
      right. right. right. left. exact Hnew.
    + left. eexists. split; [exact Hnew|done].
    + rewrite list_insert_id by done.
      destruct Hi as [?|[?|[?|[?|?]]]]; auto.
Qed.

Lemma exhaust_inv_run q0 n sched :
  exhaust_inv q0 (run ctx max_pages exclude_patterns sched (start q0 n)).
Proof.
  apply run_ind; [apply exhaust_inv_start|]. intros st i. apply exhaust_inv_step.
Qed.

(** When the workers are gathered below the budget, the queue is empty and
    whatever passes the filters and answers with a page is in [results]. *)
Lemma exhausted q0 n sched st :
  st = run ctx max_pages exclude_patterns sched (start q0 n) →
  0 < n → existsb failed (workers st) = false → forallb finished (workers st) = true →
  ¬ capped max_pages (frontier st) →
  (∀ u, tracked st u → passes_filters ctx exclude_patterns u → html_page u →
        u ∈ results (frontier st))
  ∧ (∀ u, u ∈ q0 → tracked st u)
  ∧ (∀ v, v ∈ results (frontier st) → links_tracked st v).
Proof.
  intros -> Hn Hfail Hfin Hcap.
  pose proof (exhaust_inv_run q0 n sched) as [Hq Hl Hs Hi].
  set (st := run ctx max_pages exclude_patterns sched (start q0 n)) in *.
  apply not_broken in Hfail. rewrite forallb_forall in Hfin.
  assert (Hempty : to_visit (frontier st) = []).
  { destruct Hi as [(w & Hw & Hu)|[?|[?|[?|Hnil]]]]; try done.
    - apply list_elem_of_In, Hfin in Hw. congruence.
    - apply (f_equal length) in Hnil. unfold st in Hnil.
      rewrite workers_run in Hnil. simpl in Hnil. rewrite length_replicate in Hnil.
      simpl in Hnil. lia. }
  split_and!; [|done|].
  - intros u [Hu|Hu] Hp Hh; [|rewrite Hempty in Hu; by apply elem_of_nil in Hu].
    destruct (Hs u Hu Hp Hh) as [?|[Hw|?]]; [done| |done].
    apply list_elem_of_In, Hfin in Hw. done.
  - intros v Hv. destruct (Hl v Hv) as [?|[?|?]]; done.
Qed.

End exhaustive_inv.

(** X14. A crawl that ends below its budget is exhaustive.  When [crawl_bfs]
    returns fewer than [max_pages] URLs and there is at least one worker, it
    returns every URL that passes both filters and answers with an HTML page
    among the root, the seeds that were put on the queue, and the links of
    every page that it returns: the result is closed under the links that
    the crawler follows. *)
Theorem crawl_is_exhaustive `{Env} (root_url : string) (max_pages concurrency : Z)
    (inc exc : list string) (sched : list nat) (crawled : gset string) :
  crawl_bfs root_url max_pages concurrency inc exc sched = Returned crawled →
  (1 ≤ concurrency)%Z →
  (Z.of_nat (size crawled) < max_pages)%Z →
  ∃ ctx from_feeds,
    build_ctx root_url = Some ctx
    ∧ discover_from_feeds (root ctx) = Some from_feeds
    ∧ (∀ u, u = root ctx
            ∨ u ∈ take (Z.to_nat (Z.max 100 (max_pages / 2)))
                       (set_order IterSeeds (discover_from_sitemap (root ctx) ∪ from_feeds)) →
            passes_filters ctx exc u → html_page u → u ∈ crawled)
    ∧ (∀ v resp links l,
         v ∈ crawled → fetch v = Some resp →
         inpage_discover (text resp) v = Some links → l ∈ links →
         passes_filters ctx exc l → html_page l → l ∈ crawled).
Proof.
  intros Hr Hconc Hsize.
  unfold crawl_bfs in Hr. destruct (build_ctx root_url) as [ctx|]; [|done].
  destruct (discover_from_feeds (root ctx)) as [fd|] eqn:Hfd; [|done].
  case_bool_decide; [done|]. unfold gather in Hr.
  destruct (existsb _ _) eqn:Hfail; [done|].
  destruct (forallb _ _) eqn:Hfin; [|done].
  injection Hr as <-. exists ctx, fd. split; [done|]. split; [done|].
  rewrite crawl_init_start, (left_id_L ∅ (∪)) in *.
  match type of Hfail with context [start ?q ?n] => set (q0 := q) in *; set (k := n) in * end.
  destruct (exhausted ctx max_pages exc q0 k sched _ eq_refl) as (Hall & Hq & Hl);
    [subst k; lia|done|done|unfold capped; lia|].
  split.
  - intros u Hu. apply Hall, Hq. subst q0. rewrite elem_of_cons. done.
  - intros v resp links l Hv Hf Hd Hin Hp Hh.
    destruct (Hl v Hv) as (resp' & links' & Hf' & Hd' & Htr). simplify_eq.
    apply Hall; [|done..]. apply Htr; [done|]. by destruct Hp.
Qed.

Lemma crawl_is_exhaustive_witness :
  "https://a.com/c" ∈
    ({[ "https://a.com/"; "https://a.com/b"; "https://a.com/c" ]} : gset string).
Proof.
  destruct (@crawl_is_exhaustive Overshoot.env "https://a.com" 10 2 [] []
              (replicate 12 0 ++ replicate 3 1)
              {[ "https://a.com/"; "https://a.com/b"; "https://a.com/c" ]})
    as (ctx & fd & Hctx & _ & _ & Hlinks).
  - vm_compute. reflexivity.
  - lia.
  - vm_compute. reflexivity.
  - assert (Hb : @build_ctx Overshoot.env "https://a.com"
                 = Some (mkCtx "https://a.com/" "a.com" {[ "a.com"; "a.com"; "www.a.com" ]}))
      by (vm_compute; reflexivity).
    assert (ctx = mkCtx "https://a.com/" "a.com" {[ "a.com"; "a.com"; "www.a.com" ]})
      as -> by congruence.
    apply (Hlinks "https://a.com/"
             (mkResponse 200 (Some "text/html; charset=utf-8") "https://a.com/")
             {[ "https://a.com/b"; "https://a.com/c" ]} "https://a.com/c").
    + apply (bool_decide_unpack _). vm_compute. exact I.
    + vm_compute. reflexivity.
    + vm_compute. reflexivity.
    + apply (bool_decide_unpack _). vm_compute. exact I.
    + split; vm_compute; reflexivity.
    + eexists. split_and!; [vm_compute; reflexivity|vm_compute; reflexivity|].
      vm_compute. reflexivity.
Defined.

(** ** [looks_like_article_url]

    The patterns of this function are made of literal ASCII characters and
    of [?] behind a character, and they are searched with [re.IGNORECASE] in
    the URL, a [str] of any code points.  [Re] is [re.search] for such
    patterns, over the code points of the searched string. *)

Module Re.

(** The code points of a string of the model. *)
Fixpoint codes (s : string) : list N :=
    match s with
    | "" => []
    | String a s' => N_of_ascii a :: codes s'
    end.

(** What [re.IGNORECASE] identifies with an ASCII character: [A] to [Z]
    with [a] to [z], and the three code points beyond ASCII whose case
    folding is an ASCII letter: U+0130 and U+0131 (dotted capital and
    dotless small i) with [i], U+017F (long s) with [s], and U+212A (the
    Kelvin sign) with [k]. *)
Definition fold (c : N) : N :=
    if (65 <=? c)%N && (c <=? 90)%N then (c + 32)%N
    else if (c =? 304)%N || (c =? 305)%N then 105%N
    else if (c =? 383)%N then 115%N
    else if (c =? 8490)%N then 107%N
    else c.

(** The character [a] of a pattern matches the code point [b]. *)
Definition same_char (a b : N) : bool := (fold a =? fold b)%N.

(** The compiled pattern: its characters, each with whether a [?] follows. *)
Fixpoint parse (p : string) : list (N * bool) :=
    match p with
    | "" => []
    | String a p' =>
        match p' with
        | String "?" p'' => (N_of_ascii a, true) :: parse p''
        | _ => (N_of_ascii a, false) :: parse p'
        end
    end.

(** The pattern matches a prefix of [s]. *)
Fixpoint match_here (items : list (N * bool)) (s : list N) : bool :=
    match items with
    | [] => true
    | (a, optional) :: items' =>
        match s with
        | b :: s' => same_char a b && match_here items' s'
        | [] => false
        end
        || (optional && match_here items' s)
    end.

(** [bool(re.search(p, s, flags=re.IGNORECASE))] *)
Fixpoint search (items : list (N * bool)) (s : list N) : bool :=
    match_here items s
    || match s with
       | [] => false
       | _ :: s' => search items s'
       end.

(** The literal strings that the pattern stands for. *)
Fixpoint expand (items : list (N * bool)) : list (list N) :=
    match items with
    | [] => [[]]
    | (a, optional) :: items' =>
        (cons a <$> expand items') ++ (if optional then expand items' else [])
    end.

(** [s] starts with [p], and [p] occurs in [s], code point for code point. *)
Fixpoint startswith (p s : list N) : bool :=
    match p, s with
    | [], _ => true
    | a :: p', b :: s' => (a =? b)%N && startswith p' s'
    | _ :: _, [] => false
    end.

Fixpoint contains (p s : list N) : bool :=
    startswith p s
    || match s with
       | [] => false
       | _ :: s' => contains p s'
       end.

End Re.

Definition looks_like_article_url (url : list N) : bool :=
  let patterns :=
    ["/blog/"; "/posts?/"; "/articles?/"; "/guides?/"; "/learn/"; "/topics";
     "/news/"; "/insights/"; "/stories/"; "/resources?/"; "/case-studies?/"] in
  existsb (λ p, Re.search (Re.parse p) url) patterns.

Section article_facts.

Lemma existsb_false {A} (l : list A) : existsb (λ _, false) l = false.
Proof. by induction l. Qed.

Lemma existsb_eq {A} (g h : A → bool) (l : list A) :
  (∀ x, g x = h x) → existsb g l = existsb h l.
Proof. intros Hgh. induction l as [|x l IH]; simpl; [done|]. by rewrite Hgh, IH. Qed.

Lemma existsb_and {A} (c : bool) (g : A → bool) (l : list A) :
  existsb (λ x, c && g x) l = c && existsb g l.
Proof. induction l as [|x l IH]; simpl; [by destruct c|]. rewrite IH. by destruct c, (g x). Qed.

Lemma existsb_or {A} (g h : A → bool) (l : list A) :
  existsb (λ x, g x || h x) l = existsb g l || existsb h l.
Proof.
  induction l as [|x l IH]; simpl; [done|]. rewrite IH.
  by destruct (g x), (h x), (existsb g l).
Qed.

Lemma existsb_fmap {A B} (f : A → B) (g : B → bool) (l : list A) :
  existsb g (f <$> l) = existsb (λ x, g (f x)) l.
Proof. induction l as [|x l IH]; csimpl; [done|]. by rewrite IH. Qed.

Lemma existsb_concat {A B} (f : A → list B) (g : B → bool) (l : list A) :
  existsb (λ x, existsb g (f x)) l = existsb g (concat (f <$> l)).
Proof.
  induction l as [|x l IH]; csimpl; [done|]. by rewrite existsb_app, IH.
Qed.

Lemma fold_fixed (d : N) :
  ¬ (65 ≤ d ≤ 90)%N → d ≠ 304%N → d ≠ 305%N → d ≠ 383%N → d ≠ 8490%N → Re.fold d = d.
Proof.
  intros. unfold Re.fold.
  repeat match goal with
         | |- context [(?a <=? ?b)%N] => destruct (N.leb_spec a b); cbn [andb orb]
         | |- context [(?a =? ?b)%N] => destruct (N.eqb_spec a b); cbn [andb orb]
         end; lia.
Qed.

Lemma fold_idem (c : N) : Re.fold (Re.fold c) = Re.fold c.
Proof.
  apply fold_fixed; unfold Re.fold;
    repeat match goal with
           | |- context [(?a <=? ?b)%N] => destruct (N.leb_spec a b); cbn [andb orb]
           | |- context [(?a =? ?b)%N] => destruct (N.eqb_spec a b); cbn [andb orb]
           end; lia.
Qed.

Lemma fold_fold (s : list N) : Re.fold <$> (Re.fold <$> s) = Re.fold <$> s.
Proof. induction s as [|c s IH]; csimpl; [done|]. by rewrite fold_idem, IH. Qed.

Lemma match_here_expand (items : list (N * bool)) (s : list N) :
  Re.match_here items s
  = existsb (λ lit, Re.startswith (Re.fold <$> lit) (Re.fold <$> s)) (Re.expand items).
Proof.
  revert s. induction items as [|[a optional] items IH]; intros s; [done|].
  cbn [Re.match_here Re.expand]. rewrite existsb_app, existsb_fmap. f_equal.
  - destruct s as [|b s]; csimpl.
    + by rewrite existsb_false.
    + rewrite existsb_and. by rewrite IH.
  - destruct optional; [|done]. apply IH.
Qed.

Lemma search_expand (items : list (N * bool)) (s : list N) :
  Re.search items s
  = existsb (λ lit, Re.contains (Re.fold <$> lit) (Re.fold <$> s)) (Re.expand items).
Proof.
  induction s as [|b s IH].
  - cbn [Re.search]. csimpl. rewrite match_here_expand.
    by rewrite existsb_or, existsb_false.
  - cbn [Re.search]. csimpl. rewrite existsb_or, <- IH.
    by rewrite match_here_expand.
Qed.

Lemma fold_code (a : ascii) :
  Re.fold (N_of_ascii a) = N_of_ascii (Str.lower_char a).
Proof. destruct a as [[] [] [] [] [] [] [] []]; vm_compute; reflexivity. Qed.

Lemma codes_lower (s : string) : Re.fold <$> Re.codes s = Re.codes (Str.lower s).
Proof.
  induction s as [|a s IH]; [done|].
  cbn [Re.codes Str.lower]. csimpl. by rewrite fold_code, IH.
Qed.

Lemma code_eqb (a b : ascii) : (N_of_ascii a =? N_of_ascii b)%N = bool_decide (a = b).
Proof.
  case_bool_decide as Hab.
  - subst. apply N.eqb_refl.
  - apply N.eqb_neq. intros Heq. apply Hab.
    by rewrite <- (ascii_N_embedding a), <- (ascii_N_embedding b), Heq.
Qed.

Lemma startswith_codes (p s : string) :
  Re.startswith (Re.codes p) (Re.codes s) = Str.startswith p s.
Proof.
  revert s. induction p as [|a p IH]; intros [|b s]; try done.
  cbn [Re.codes Re.startswith Str.startswith]. by rewrite code_eqb, IH.
Qed.

Lemma contains_codes (p s : string) :
  Re.contains (Re.codes p) (Re.codes s) = Str.contains p s.
Proof.
  induction s as [|b s IH].
  - cbn [Re.codes Re.contains Str.contains]. by rewrite <- startswith_codes.
  - cbn [Re.codes Re.contains Str.contains]. by rewrite IH, <- startswith_codes.
Qed.

End article_facts.

(** X15. [looks_like_article_url] holds exactly when the URL contains one
    of sixteen markers up to the case folding of [re.IGNORECASE], which
    beyond the letters [A] to [Z] takes U+0130 and U+0131 to [i], U+017F to
    [s] and U+212A to [k]: the answer depends on the folded URL only,
    [/topics] needs no closing slash, and [/case-studies?/] stands for
    [/case-studies/] and [/case-studie/], so that [/case-study/] is not
    among the markers.  A URL with [/po], U+017F and [ts/] is taken for an
    article.  On a URL of code points below 256, the folding is the
    lowercasing of the letters [A] to [Z]. *)
Theorem looks_like_article_url_spec (url : list N) :
  let markers :=
    ["/blog/"; "/posts/"; "/post/"; "/articles/"; "/article/"; "/guides/"; "/guide/";
     "/learn/"; "/topics"; "/news/"; "/insights/"; "/stories/";
     "/resources/"; "/resource/"; "/case-studies/"; "/case-studie/"] in
  looks_like_article_url url
  = existsb (λ m, Re.contains (Re.codes m) (Re.fold <$> url)) markers
  ∧ looks_like_article_url (Re.fold <$> url) = looks_like_article_url url
  ∧ "/case-study/" ∉ markers
  ∧ looks_like_article_url (Re.codes "https://a.com/case-study/acme") = false
  ∧ looks_like_article_url (Re.codes "https://a.com/Case-Studies/acme") = true
  ∧ looks_like_article_url (Re.codes "https://a.com/po" ++ [383%N] ++ Re.codes "ts/x")
    = true
  ∧ (∀ s : string,
       looks_like_article_url (Re.codes s)
       = existsb (λ m, Str.contains m (Str.lower s)) markers).
Proof.
  intros markers.
  assert (Hspec : ∀ u, looks_like_article_url u
                       = existsb (λ m, Re.contains (Re.codes m) (Re.fold <$> u)) markers).
  { intros u. unfold looks_like_article_url.
    rewrite (existsb_eq _ (λ p, existsb (λ lit, Re.contains (Re.fold <$> lit) (Re.fold <$> u))
                                        (Re.expand (Re.parse p))))
      by (intros p; apply search_expand).
    rewrite (existsb_concat (λ p, Re.expand (Re.parse p))).
    rewrite <- (existsb_fmap (fmap Re.fold) (λ m, Re.contains m (Re.fold <$> u))).
    rewrite <- (existsb_fmap Re.codes (λ m, Re.contains m (Re.fold <$> u))).
    reflexivity. }
  split_and!.
  - apply Hspec.
  - by rewrite !Hspec, fold_fold.
  - subst markers. apply (bool_decide_unpack _). vm_compute. exact I.
  - vm_compute. reflexivity.
  - vm_compute. reflexivity.
  - vm_compute. reflexivity.
  - intros s. rewrite Hspec, codes_lower. apply existsb_eq. intros m.
    apply contains_codes.
Qed.

(** ** The pattern lists of the callers

    [cli.main] and [app.scrape_to_json] read the include and exclude
    patterns from one comma-separated string. *)

Module Patterns.

(** [s.split(c)] for a one-character separator *)
Fixpoint split (c : ascii) (s : string) : list string :=
    match s with
    | "" => [""]
    | String a s' =>
        if decide (a = c) then "" :: split c s'
        else match split c s' with
             | p :: ps => String a p :: ps
             | [] => [String a ""]
             end
    end.

(** [c.isspace()], for the characters below 256 *)
Definition is_space (a : ascii) : bool :=
    let n := Ascii.nat_of_ascii a in
    ((9 <=? n) && (n <=? 13)) || ((28 <=? n) && (n <=? 32))
    || (n =? 133) || (n =? 160).

(** [s.rstrip()] *)
Fixpoint rstrip (s : string) : string :=
    match s with
    | "" => ""
    | String a s' =>
        match rstrip s' with
        | "" => if is_space a then "" else String a ""
        | r => String a r
        end
    end.

(** [s.strip()] *)
Definition strip (s : string) : string := rstrip (Str.lstrip is_space s).

(** [cli.main]:
    [[p.strip() for p in s.split(",") if p.strip()] if s else []] *)
Definition cli_list (s : string) : list string :=
    if Str.nonempty s
    then strip <$> filter (λ p, Str.nonempty (strip p) = true) (split "," s)
    else [].

(** [app.scrape_to_json]:
    [[p.strip() for p in s.split(",") if p.strip()]] *)
Definition app_list (s : string) : list string :=
    strip <$> filter (λ p, Str.nonempty (strip p) = true) (split "," s).

(** A pattern as the lists hold them. *)
Definition clean (p : string) : Prop :=
    p ≠ "" ∧ lacks "," p ∧ strip p = p.

End Patterns.

Section pattern_facts.
Import Patterns.

Lemma split_not_nil c s : split c s ≠ [].
Proof.
  induction s as [|a s IH]; simpl; [done|].
  destruct (decide (a = c)); [done|]. by destruct (split c s).
Qed.

Lemma split_lacks c s : Forall (lacks c) (split c s).
Proof.
  induction s as [|a s IH]; simpl; [by repeat constructor|].
  destruct (decide (a = c)) as [->|Hne]; [by constructor|].
  destruct (split c s) as [|p ps]; [by repeat constructor; try apply lacks_cons|].
  apply Forall_cons in IH as [Hp Hps]. constructor; [|done]. by apply lacks_cons.
Qed.

Lemma split_plain c s : lacks c s → split c s = [s].
Proof.
  induction s as [|a s IH]; [done|]. intros [Hne Hs]%lacks_cons. simpl.
  rewrite decide_False by done. by rewrite IH.
Qed.

Lemma split_app c p s : lacks c p → split c (p +:+ String c s) = p :: split c s.
Proof.
  induction p as [|a p IH]; intros Hp.
  - rewrite str_app_nil_l. simpl. by rewrite decide_True.
  - apply lacks_cons in Hp as [Hne Hp]. rewrite str_app_cons. simpl.
    rewrite decide_False by done. by rewrite IH.
Qed.

Lemma split_join c ps :
  ps ≠ [] → Forall (lacks c) ps → split c (Str.join (String c "") ps) = ps.
Proof.
  induction ps as [|p ps IH]; [done|]. intros _ [Hp Hps]%Forall_cons.
  destruct ps as [|q ps]; [by apply split_plain|].
  change (Str.join (String c "") (p :: q :: ps))
    with (p +:+ String c "" +:+ Str.join (String c "") (q :: ps)).
  rewrite str_app_cons, str_app_nil_l, split_app by done. by rewrite IH.
Qed.

Lemma lacks_lstrip c P s : lacks c s → lacks c (Str.lstrip P s).
Proof.
  induction s as [|a s IH]; [done|]. intros Hs. simpl.
  destruct (P a); [|done]. apply lacks_cons in Hs as [_ Hs]. auto.
Qed.

Lemma lacks_rstrip c s : lacks c s → lacks c (rstrip s).
Proof.
  induction s as [|a s IH]; [done|]. intros [Hne Hs]%lacks_cons. simpl.
  specialize (IH Hs). destruct (rstrip s) as [|b r].
  - destruct (is_space a); [done|]. by apply lacks_cons.
  - by apply lacks_cons.
Qed.

Lemma lacks_strip c s : lacks c s → lacks c (strip s).
Proof. intros. by apply lacks_rstrip, lacks_lstrip. Qed.

Lemma rstrip_idem' s : rstrip (rstrip s) = rstrip s.
Proof.
  induction s as [|a s IH]; [done|]. simpl.
  destruct (rstrip s) as [|b r] eqn:Hr.
  - destruct (is_space a) eqn:Ha; [done|]. simpl. by rewrite Ha.
  - simpl. simpl in IH. by rewrite IH.
Qed.

(** The first character is kept unless it is a space. *)
Lemma lstrip_head P s :
  Str.lstrip P s = "" ∨ ∃ a r, Str.lstrip P s = String a r ∧ P a = false.
Proof.
  induction s as [|a s IH]; [by left|]. simpl.
  destruct (P a) eqn:Ha; [done|]. right. by exists a, s.
Qed.

Lemma lstrip_rstrip a r :
  is_space a = false → Str.lstrip is_space (rstrip (String a r)) = rstrip (String a r).
Proof.
  intros Ha. cbn [rstrip]. destruct (rstrip r); rewrite ?Ha; cbn [Str.lstrip]; by rewrite Ha.
Qed.

Lemma strip_idem s : strip (strip s) = strip s.
Proof.
  unfold strip. destruct (lstrip_head is_space s) as [->|(a & r & -> & Ha)]; [done|].
  by rewrite lstrip_rstrip, rstrip_idem'.
Qed.

(** No space at either end. *)
Lemma strip_fixed s : strip s = s → Str.lstrip is_space s = s ∧ rstrip s = s.
Proof.
  intros Hs. assert (Hl : Str.lstrip is_space s = s).
  { rewrite <- Hs at 1. unfold strip.
    destruct (lstrip_head is_space s) as [He|(a & r & He & Ha)]; rewrite He.
    - rewrite <- Hs. unfold strip. by rewrite He.
    - rewrite lstrip_rstrip by done. rewrite <- He. exact Hs. }
  split; [done|]. unfold strip in Hs. by rewrite Hl in Hs.
Qed.

End pattern_facts.

(** X16. The callers read a comma-separated string into a list of patterns.
    [cli.main] and [app.scrape_to_json] read it the same way (the guard for
    the empty string in [cli.main] changes nothing); every pattern of the
    list is non-empty, has no comma and no space at either end; every list
    of such patterns is read back from its elements joined by commas; so a
    pattern with a comma, or one that begins or ends with a space, cannot be
    given. *)
Theorem pattern_lists (s : string) :
  Patterns.cli_list s = Patterns.app_list s
  ∧ Forall Patterns.clean (Patterns.app_list s)
  ∧ (∀ ps, Forall Patterns.clean ps → Patterns.app_list (Str.join "," ps) = ps)
  ∧ Patterns.app_list (Str.join "," (Patterns.app_list s)) = Patterns.app_list s.
Proof.
  assert (Hclean : ∀ t, Forall Patterns.clean (Patterns.app_list t)).
  { intros t. unfold Patterns.app_list. apply Forall_fmap, Forall_forall.
    intros p [Hp Hin]%list_elem_of_filter. cbn [compose].
    pose proof (split_lacks "," t) as Hl. rewrite Forall_forall in Hl.
    split_and!; [by apply nonempty_true|by apply lacks_strip, Hl|apply strip_idem]. }
  assert (Hback : ∀ ps, Forall Patterns.clean ps
                        → Patterns.app_list (Str.join "," ps) = ps).
  { intros ps Hps. unfold Patterns.app_list.
    destruct (decide (ps = [])) as [->|Hne]; [done|].
    rewrite split_join; [|done|eapply Forall_impl; [exact Hps|by intros p (_ & ? & _)]].
    clear Hne. induction Hps as [|p ps (Hp & _ & Hs) Hps IH]; [done|].
    rewrite filter_cons_True by (rewrite Hs; by apply nonempty_true).
    csimpl. by rewrite Hs, IH. }
  split_and!; [|done|done|by apply Hback].
  unfold Patterns.cli_list. by destruct s.
Qed.

Example pattern_lists_example :
  Patterns.cli_list " /privacy , ,/Terms of use,,login " = ["/privacy"; "/Terms of use"; "login"]
  ∧ Patterns.app_list "" = []
  ∧ Patterns.cli_list " , " = [].
Proof. split_and!; vm_compute; reflexivity. Qed.

(** ** [scrapper/extractor.py]: from the crawled URLs to the items

    What the extractor obtains from the network and from the third-party
    parsers (httpx, trafilatura, readability, BeautifulSoup, markdownify) is
    a field of the class [Extractor].  [extract_title_from_html] and
    [html_to_markdown] catch every exception themselves and consist of such
    calls only; they are fields as well. *)

Class Extractor := {
  (** [httpx.get(url, ...)] of [fetch_html]; [None] is an exception *)
  extractor_get : string → option Response;
  (** [trafilatura.extract(html, ..., url=url)]; the outer [None] is an
      exception, the inner one the value [None] *)
  trafilatura_extract : string → string → option (option string);
  (** the truth value of [trafilatura.bare_extraction(html)]; [None] is an
      exception *)
  bare_extraction : string → option bool;
  (** [trafilatura.bare_extraction(html).get("title")]; the outer [None] is
      an exception *)
  bare_extraction_title : string → option (option string);
  extract_title_from_html : string → option string;
  html_to_markdown : string → string
}.

(** An item: the dictionary that [extract_markdown_items] appends. *)
Module Item.
Record t := mk {
    title : string;
    content : string;
    content_type : string;
    source_url : string }.
End Item.

Section extractor.
Context `{Extractor}.

(** The truth value of a string or [None]. *)
Definition truthy (o : option string) : bool :=
  match o with Some s => Str.nonempty s | None => false end.

(** [a or b] *)
Definition or_else (a b : option string) : option string :=
  if truthy a then a else b.

Definition fetch_html (url : string) : option string :=
  match extractor_get url with
  | Some resp =>
      if bool_decide (400 ≤ status_code resp)%Z then None
      else if negb (Str.contains "text/html" (default "" (content_type resp))) then None
      else Some (text resp)
  | None => None
  end.

Definition extract_with_trafilatura (url html : string) : option string * option string :=
  match trafilatura_extract url html with
  | Some (Some downloaded) =>
      if Str.nonempty downloaded then
        match bare_extraction html with
        | Some true =>
            if truthy (extract_title_from_html html)
            then (extract_title_from_html html, Some (Patterns.strip downloaded))
            else match bare_extraction_title html with
                 | Some doc_title => (doc_title, Some (Patterns.strip downloaded))
                 | None => (None, None)
                 end
        | Some false => (None, Some (Patterns.strip downloaded))
        | None => (None, None)
        end
      else (None, None)
  | _ => (None, None)
  end.

Definition guess_content_type (url html : string) : string :=
  let url_l := Str.lower url in
  if existsb (λ x, Str.contains x url_l)
             ["/blog/"; "/post/"; "/posts/"; "/article"; "/insights"; "/news/"]
  then "blog"
  else if existsb (λ x, Str.contains x url_l)
                  ["/learn/"; "/guide"; "/guides"; "/topics"; "/tutorial"]
  then "other"
  else "other".

(** One round of the loop of [extract_markdown_items]: the item that is
    appended, if any. *)
Definition item_of (url : string) : option Item.t :=
  match fetch_html url with
  | Some html =>
      if negb (Str.nonempty html) then None
      else
        let '(title, content_md) := extract_with_trafilatura url html in
        let content_md :=
          if negb (truthy content_md) then html_to_markdown html
          else default "" content_md in
        let title :=
          default "" (or_else (or_else title (extract_title_from_html html)) (Some url)) in
        let content_type := guess_content_type url html in
        if Str.nonempty content_md && (0 <? Str.length (Patterns.strip content_md))
        then Some (Item.mk title content_md content_type url)
        else None
  | None => None
  end.

Definition extract_markdown_items (urls : list string) : list Item.t :=
  foldl (λ items url,
           match item_of url with
           | Some item => items ++ [item]
           | None => items
           end) [] urls.

Lemma extract_markdown_items_omap (urls : list string) :
  extract_markdown_items urls = omap item_of urls.
Proof.
  unfold extract_markdown_items.
  cut (∀ items, foldl (λ items url,
                         match item_of url with
                         | Some item => items ++ [item]
                         | None => items
                         end) items urls = items ++ omap item_of urls).
  { intros Hc. by rewrite Hc. }
  induction urls as [|url urls IH]; intros items; simpl; [by rewrite app_nil_r|].
  rewrite IH. destruct (item_of url); [|done]. by rewrite <- app_assoc.
Qed.

Lemma item_of_Some (url : string) (item : Item.t) :
  item_of url = Some item →
  Item.source_url item = url
  ∧ (∃ html, fetch_html url = Some html ∧ html ≠ ""
             ∧ Item.content_type item = guess_content_type url html)
  ∧ Patterns.strip (Item.content item) ≠ ""
  ∧ (url ≠ "" → Item.title item ≠ "").
Proof.
  unfold item_of. destruct (fetch_html url) as [html|]; [|done].
  destruct (Str.nonempty html) eqn:Hhtml; [|done]. cbn [negb].
  destruct (extract_with_trafilatura url html) as [t c].
  set (content_md := if negb (truthy c) then html_to_markdown html else default "" c).
  set (tt := or_else (or_else t (extract_title_from_html html)) (Some url)).
  destruct (Str.nonempty content_md && (0 <? Str.length (Patterns.strip content_md)))
    eqn:Hc; [|done].
  intros [= <-]. cbn [Item.source_url Item.content Item.content_type Item.title].
  apply andb_true_iff in Hc as [_ Hlen%Nat.ltb_lt].
  split_and!; [done| | |].
  - exists html. split_and!; [done| |done]. by apply nonempty_true.
  - intros He. rewrite He in Hlen. simpl in Hlen. lia.
  - intros Hurl. subst tt. unfold or_else at 1.
    destruct (truthy (or_else t (extract_title_from_html html))) eqn:Ht.
    + destruct (or_else t (extract_title_from_html html)) as [x|]; [|done].
      simpl. simpl in Ht. by apply nonempty_true.
    + done.
Qed.

Lemma omap_sublist {A B} (f : A → option B) (g : B → A) (l : list A) :
  (∀ x y, f x = Some y → g y = x) → g <$> omap f l `sublist_of` l.
Proof.
  intros Hfg. induction l as [|x l IH]; csimpl; [constructor|].
  destruct (f x) as [y|] eqn:Hy; csimpl.
  - rewrite (Hfg x y Hy). by constructor.
  - by constructor.
Qed.

Lemma guess_content_type_cases (url html : string) :
  guess_content_type url html
  = if existsb (λ x, Str.contains x (Str.lower url))
               ["/blog/"; "/post/"; "/posts/"; "/article"; "/insights"; "/news/"]
    then "blog" else "other".
Proof. unfold guess_content_type. by repeat case_match. Qed.

Lemma sublist_StronglySorted {A} (R : relation A) (l1 l2 : list A) :
  l1 `sublist_of` l2 → StronglySorted R l2 → StronglySorted R l1.
Proof.
  induction 1 as [|x l1 l2 Hsub IH|x l1 l2 Hsub IH]; intros Hs; [done| |].
  - apply StronglySorted_inv in Hs as [Hs Hall]. constructor; [auto|].
    rewrite Forall_forall in Hall |- *. intros y Hy. apply Hall.
    by eapply elem_of_sublist.
  - apply StronglySorted_inv in Hs as [Hs _]. auto.
Qed.

End extractor.

(** ** The callers: from a root URL to the items *)

Section callers.
Context `{Env} `{Extractor}.

(** [app.scrape_to_json]; the settings of the side bar are parameters. *)
Definition scrape_to_json (url_str : string) (max_pages concurrency : Z)
    (include_patterns exclude_patterns : string) (sched : list nat)
    : Outcome (string * list Item.t) :=
  let includes := Patterns.app_list include_patterns in
  let excludes := Patterns.app_list exclude_patterns in
  match crawl_site url_str max_pages concurrency includes excludes sched with
  | Returned urls => Returned (url_str, extract_markdown_items urls)
  | Raised => Raised
  | Running => Running
  end.

(** [cli.main], up to the dictionary [result]. *)
Definition main (url : string) (max_pages concurrency : Z)
    (include_patterns exclude_patterns : string) (sched : list nat)
    : Outcome (string * list Item.t) :=
  let include_list := Patterns.cli_list include_patterns in
  let exclude_list := Patterns.cli_list exclude_patterns in
  match crawl_site url max_pages concurrency include_list exclude_list sched with
  | Returned discovered_urls => Returned (url, extract_markdown_items discovered_urls)
  | Raised => Raised
  | Running => Running
  end.

Lemma cli_list_app_list (s : string) : Patterns.cli_list s = Patterns.app_list s.
Proof. unfold Patterns.cli_list. by destruct s. Qed.

End callers.

(** A site of three pages of which the extractor finds two worth an item. *)
Module Demo.

Definition extractor : Extractor := {|
  extractor_get := λ u,
    if bool_decide (u = "https://a.com/b") then Some (mkResponse 404 None "")
    else Some (mkResponse 200 (Some "text/html") ("<h1>" +:+ u));
  trafilatura_extract := λ _ html, Some (Some ("  text of " +:+ html));
  bare_extraction := λ _, Some false;
  bare_extraction_title := λ _, None;
  extract_title_from_html := λ _, None;
  html_to_markdown := λ _, ""
|}.

End Demo.

(** X17. [extract_markdown_items] keeps the order of the URLs and makes at
    most one item for each: the source URLs of the items are a sublist of the
    input.  The URL of every item answered [fetch_html] with a non-empty
    page, the content of the item has a character that is not a space, its
    title is not empty unless the URL is, and its content type is [blog]
    when the lowercased URL contains one of six markers and [other]
    otherwise, whatever the page. *)
Theorem extract_markdown_items_spec `{Extractor} (urls : list string) :
  let items := extract_markdown_items urls in
  Item.source_url <$> items `sublist_of` urls
  ∧ length items ≤ length urls
  ∧ Forall (λ item,
       (∃ html, fetch_html (Item.source_url item) = Some html ∧ html ≠ "")
       ∧ Patterns.strip (Item.content item) ≠ ""
       ∧ (Item.source_url item ≠ "" → Item.title item ≠ "")
       ∧ Item.content_type item
         = if existsb (λ x, Str.contains x (Str.lower (Item.source_url item)))
                      ["/blog/"; "/post/"; "/posts/"; "/article"; "/insights"; "/news/"]
           then "blog" else "other") items.
Proof.
  intros items. subst items. rewrite extract_markdown_items_omap.
  assert (Hsub : Item.source_url <$> omap item_of urls `sublist_of` urls).
  { apply omap_sublist. by intros url item (? & _)%item_of_Some. }
  split_and!; [done| |].
  - apply sublist_length in Hsub. by rewrite length_fmap in Hsub.
  - apply Forall_forall. intros item (url & Hin & Hitem)%list_elem_of_omap.
    apply item_of_Some in Hitem as (-> & (html & Hf & Hne & Hct) & Hc & Ht).
    split_and!; [by exists html|done|done|].
    by rewrite Hct, guess_content_type_cases.
Qed.

(** X18. What [app.scrape_to_json] and [cli.main] return.  Both return the
    same; the include patterns do not matter; the site is the URL that was
    given; the items come in the order of their source URLs, which are
    pairwise different and sorted, and each of which is in the list that
    [crawl_site] returned; there are at most
    [max(1, max_pages + max(0, concurrency - 1))] items. *)
Theorem scrape_to_json_items `{Env} `{Extractor} (url_str : string)
    (max_pages concurrency : Z) (include_patterns exclude_patterns : string)
    (sched : list nat) (site : string) (items : list Item.t) :
  scrape_to_json url_str max_pages concurrency include_patterns exclude_patterns sched
  = Returned (site, items) →
  site = url_str
  ∧ main url_str max_pages concurrency include_patterns exclude_patterns sched
    = Returned (site, items)
  ∧ (∀ other, scrape_to_json url_str max_pages concurrency other exclude_patterns sched
              = Returned (site, items))
  ∧ (∃ urls, crawl_site url_str max_pages concurrency
               (Patterns.app_list include_patterns)
               (Patterns.app_list exclude_patterns) sched = Returned urls
             ∧ Item.source_url <$> items `sublist_of` urls)
  ∧ StronglySorted String.le (Item.source_url <$> items)
  ∧ NoDup (Item.source_url <$> items)
  ∧ (Z.of_nat (length items) ≤ Z.max 1 (max_pages + Z.max 0 (concurrency - 1)))%Z.
Proof.
  unfold scrape_to_json, main. rewrite !cli_list_app_list.
  destruct (crawl_site _ _ _ _ _ _) as [urls| |] eqn:Hsite; [|done|done].
  intros [= <- <-].
  destruct (crawl_site_shape _ _ _ _ _ _ _ Hsite) as (Hsorted & Hnodup & _ & Hlen & _).
  assert (Hsub : Item.source_url <$> extract_markdown_items urls `sublist_of` urls).
  { rewrite extract_markdown_items_omap. apply omap_sublist.
    by intros url item (? & _)%item_of_Some. }
  split_and!; [done|done| |by exists urls| | |].
  - intros other.
    assert (crawl_site url_str max_pages concurrency (Patterns.app_list other)
              (Patterns.app_list exclude_patterns) sched = Returned urls) as ->; [|done].
    rewrite <- Hsite. reflexivity.
  - by eapply sublist_StronglySorted.
  - by eapply sublist_NoDup.
  - apply sublist_length in Hsub. rewrite length_fmap in Hsub. lia.
Qed.

Lemma scrape_to_json_items_witness :
  @main Overshoot.env Demo.extractor "https://a.com" 2 2 "blog,guide" "" Overshoot.sched
  = Returned ("https://a.com",
              [Item.mk "https://a.com/" "text of <h1>https://a.com/" "other" "https://a.com/";
               Item.mk "https://a.com/c" "text of <h1>https://a.com/c" "other" "https://a.com/c"]).
Proof.
  refine (proj1 (proj2 (@scrape_to_json_items Overshoot.env Demo.extractor
                          "https://a.com" 2 2 "blog,guide" "" Overshoot.sched _ _ _))).
  vm_compute. reflexivity.
Defined.

(** ** The URLs of the frontier are normalized *)

Section normalized_frontier.
Context `{Env}.

(** [u] is a value of [normalize_url]. *)
Definition normalized (u : string) : Prop := ∃ x, u = normalize_url x.

Lemma normalize_url_no_fragment (x : string) :
  has_scheme x = true → Str.has "#" (normalize_url x) = false.
Proof.
  unfold has_scheme. destruct (Url.urlparse x) as [parsed|] eqn:Hp; [|done].
  intros Hs%nonempty_true. pose proof (urlparse_spec _ _ Hp) as Hok.
  destruct (normalize_url_scheme _ _ Hp Hs) as (_ & _ & ->).
  pose proof (po_netloc _ Hok) as (_ & _ & Hn).
  pose proof (po_path _ Hok) as [_ Hpa].
  pose proof (po_params _ Hok) as [_ Hpr].
  pose proof (po_query _ Hok) as Hq.
  apply has_false, lacks_app. split.
  - apply lacks_base_of; auto using caseless_hash; done.
  - by apply lacks_query_part.
Qed.

Lemma normalized_no_fragment (u : string) :
  normalized u → has_scheme u = true → Str.has "#" u = false.
Proof.
  intros [x ->] Hs. apply normalize_url_no_fragment.
  destruct (has_scheme x) eqn:Hx; [done|].
  by rewrite (normalize_url_no_scheme x Hx), Hx in Hs.
Qed.

Lemma discover_from_sitemap_normalized (base_url u : string) :
  u ∈ discover_from_sitemap base_url → normalized u.
Proof.
  unfold discover_from_sitemap. destruct (guess_sitemaps base_url) as [sm_urls|].
  - intros [Hu|(sm & _ & resp & locs & loc & _ & _ & _ & _ & _ & ->)]%add_sitemaps_elem.
    + by apply elem_of_empty in Hu.
    + by exists loc.
  - intros Hu. by apply elem_of_empty in Hu.
Qed.

Lemma discover_from_feeds_normalized (base_url u : string) (urls : gset string) :
  discover_from_feeds base_url = Some urls → u ∈ urls → normalized u.
Proof.
  unfold discover_from_feeds. destruct (guess_feeds base_url) as [feed_urls|]; [|done].
  cbn [mbind option_bind]. intros [= <-].
  intros [Hu|(fu & _ & parsed & _ & _ & Hent)]%add_feeds_elem.
  - by apply elem_of_empty in Hu.
  - destruct Hent as (pre & e & post & link & joined & _ & _ & _ & _ & _ & ->).
    by exists joined.
Qed.

Lemma inpage_discover_normalized (html base_url u : string) (links : gset string) :
  inpage_discover html base_url = Some links → u ∈ links → normalized u.
Proof.
  unfold inpage_discover. destruct (soup_hrefs html) as [hrefs|]; [|done].
  cbn [mbind option_bind]. intros Hl Hu.
  pose proof (add_hrefs_spec base_url hrefs ∅) as Hspec. rewrite Hl in Hspec.
  destruct Hspec as [_ Hiff]. apply Hiff in Hu as [Hu|(href & joined & _ & _ & _ & ->)].
  - by apply elem_of_empty in Hu.
  - by exists joined.
Qed.

End normalized_frontier.

(** X19. Whatever is on the queue, in [seen] or in [results] during a crawl
    that [crawl_bfs] started is a value of [normalize_url]: the normalized
    root, a normalized seed or a normalized link.  So a URL of the frontier
    that has a scheme has no fragment, and the frontier never holds two
    URLs that differ only in their fragment. *)
Theorem frontier_is_normalized `{Env} (root_url : string) (ctx : CrawlContext)
    (max_pages concurrency : Z) (exc : list string) (from_feeds : gset string)
    (sched : list nat) (u : string) :
  build_ctx root_url = Some ctx →
  discover_from_feeds (root ctx) = Some from_feeds →
  let st := run ctx max_pages exc sched
              (crawl_init ctx max_pages concurrency
                 (∅ ∪ discover_from_sitemap (root ctx) ∪ from_feeds)) in
  u ∈ to_visit (frontier st) ∨ u ∈ seen (frontier st) ∨ u ∈ results (frontier st) →
  normalized u ∧ (has_scheme u = true → Str.has "#" u = false).
Proof.
  intros Hctx Hfd st Hu.
  cut (normalized u). { intros Hn. split; [done|by apply normalized_no_fragment]. }
  subst st. rewrite crawl_init_start in Hu.
  match type of Hu with context [start ?q ?n] =>
    pose proof (crawl_inv_run ctx max_pages exc q n sched) as [[Hres _ _] _ _ _ Ho];
    set (q0 := q) in * end.
  assert (Hfront : u ∈ to_visit (frontier (run ctx max_pages exc sched
                                   (start q0 (Z.to_nat concurrency))))
                   ∨ u ∈ seen (frontier (run ctx max_pages exc sched
                                   (start q0 (Z.to_nat concurrency))))).
  { destruct Hu as [?|[?|?]]; auto. }
  destruct (Ho u Hfront) as [Hq|(v & resp & links & _ & _ & Hl & Hin)].
  - subst q0. apply elem_of_cons in Hq as [->|Hq].
    + apply build_ctx_Some in Hctx as (parsed & _ & ->). by exists root_url.
    + apply elem_of_take in Hq as (i & Hq & _).
      apply list_elem_of_lookup_2 in Hq.
      rewrite set_order_perm, elem_of_elements, (left_id_L ∅ (∪)) in Hq.
      apply elem_of_union in Hq as [Hq|Hq].
      * by eapply discover_from_sitemap_normalized.
      * by eapply discover_from_feeds_normalized.
  - by eapply inpage_discover_normalized.
Qed.

Lemma frontier_is_normalized_witness :
  @normalized Blog.env "https://a.com/Docs"
  ∧ (@has_scheme Blog.env "https://a.com/Docs" = true
     → Str.has "#" "https://a.com/Docs" = false).
Proof.
  apply (@frontier_is_normalized Blog.env "https://a.com"
           (mkCtx "https://a.com/" "a.com" {[ "a.com"; "a.com"; "www.a.com" ]})
           5 1 [] {[ "https://a.com/e1"; "https://a.com/e2" ]} [0; 0; 0]).
  - vm_compute. reflexivity.
  - vm_compute. reflexivity.
  - left. apply (bool_decide_unpack _). vm_compute. exact I.
Defined.
